(** * Graphics paths of gdi32 (dlls/gdi32/path.c)

    A shallow embedding of the path recorder, the flattener, the region
    bridge, [GetPath] and the entry checks of the widener, followed by the
    properties the path specification states about them.

    Conventions of the embedding.
    - [INT]/[LONG] values are integers of [Z].  The sums of coordinates in
      the glyph outlines and in the box of [pathdrv_AngleArc] wrap around at
      32 bits ([to_INT]), as they do on the machine; the half axes that
      [pathdrv_RoundRect] adds to the sides of its box are taken within
      range.  Array indices and entry counts are natural numbers.  The
      unsigned accumulator [count] of [pathdrv_PolyPolygon] and
      [pathdrv_PolyPolyline] wraps modulo 2^32.
    - [struct gdi_path] keeps its two parallel arrays; each is modelled by
      its first [count] cells, so [count] is the length of [flags].
    - A function that works on a [struct gdi_path *] is a computation of the
      monad [M]: it threads the path and may stop on a failed [assert] or on
      an access outside the valid cells of an array.
    - What the file consumes from the rest of gdi32 (heap, coordinate
      mapping, Bezier flattener, region constructor, the floating-point
      geometry of the widener) is the interface [Host].
    - The arcs are embedded with their floating-point code: the type
      [double], its operations and the functions of math.h are the interface
      [FloatingPoint], and the [do ... while] loop over the quadrants is
      followed for a bounded number of iterations, so that a call of an arc
      stops on an assertion, returns, or is still in its loop. *)

From Stdlib Require Import ZArith Lia Bool.
From Stdlib Require QArith Qround Qabs Qreduction.
From stdpp Require Import base tactics option list.

Local Open Scope Z_scope.

(** ** Data *)

Definition INT := Z.
Definition BYTE := Z.
Definition HRGN := Z.

Record POINT : Type := mkPOINT { x : INT; y : INT }.

#[global] Instance POINT_eq_dec : EqDecision POINT.
Proof. solve_decision. Defined.

(** Modelled from the spec: the tag constants [MOVE=6], [LINE=2],
    [BEZIER=4], [CLOSE=1] of wingdi.h, which is not among the sources. *)
Definition PT_CLOSEFIGURE : BYTE := 1.
Definition PT_LINETO : BYTE := 2.
Definition PT_BEZIERTO : BYTE := 4.
Definition PT_MOVETO : BYTE := 6.

(** Modelled from the spec: the error codes the path functions report, with
    the numbers of winerror.h, which is not among the sources. *)
Definition ERROR_NOT_ENOUGH_MEMORY : Z := 8.
Definition ERROR_INVALID_PARAMETER : Z := 87.
Definition ERROR_CAN_NOT_COMPLETE : Z := 1003.

(** Modelled from the spec: graphics mode ([COMPATIBLE] vs [ADVANCED]) and
    arc direction, the two enumerations of wingdi.h the recorder compares
    against. *)
Inductive graphics_mode : Type := GM_COMPATIBLE | GM_ADVANCED.
Inductive arc_direction : Type := AD_COUNTERCLOCKWISE | AD_CLOCKWISE.

#[global] Instance graphics_mode_eq_dec : EqDecision graphics_mode.
Proof. solve_decision. Defined.
#[global] Instance arc_direction_eq_dec : EqDecision arc_direction.
Proof. solve_decision. Defined.

(** Modelled from the spec: the pen style masks [END_CAP_MASK], [JOIN_MASK],
    [TYPE_MASK] and the [COSMETIC] pen type, with the numbers of wingdi.h,
    which is not among the sources; and the two object types a pen handle
    can have. *)
Definition PS_COSMETIC : Z := 0x00000000.
Definition PS_GEOMETRIC : Z := 0x00010000.
Definition PS_ENDCAP_MASK : Z := 0x00000F00.
Definition PS_JOIN_MASK : Z := 0x0000F000.
Definition PS_TYPE_MASK : Z := 0x000F0000.
Definition OBJ_PEN : Z := 1.
Definition OBJ_EXTPEN : Z := 11.

Definition NUM_ENTRIES_INITIAL : nat := 16.

Definition sizeof_POINT : nat := 8.
Definition sizeof_BYTE : nat := 1.
Definition sizeof_int : nat := 4.

Record gdi_path : Type := mk_gdi_path {
  points : list POINT;
  flags : list BYTE;
  allocated : nat;
  newStroke : bool;
  pos : POINT                 (* current cursor position *)
}.

Definition count (path : gdi_path) : nat := length (flags path).

(** The entries of a path, point and tag side by side. *)
Definition entry : Type := POINT * BYTE.
Definition entries (path : gdi_path) : list entry :=
  zip (points path) (flags path).

(** Both arrays hold [count] cells. *)
Definition parallel (path : gdi_path) : Prop :=
  length (points path) = length (flags path).

Definition set_points (l : list POINT) (p : gdi_path) : gdi_path :=
  mk_gdi_path l (flags p) (allocated p) (newStroke p) (pos p).
Definition set_flags (l : list BYTE) (p : gdi_path) : gdi_path :=
  mk_gdi_path (points p) l (allocated p) (newStroke p) (pos p).
Definition set_allocated (n : nat) (p : gdi_path) : gdi_path :=
  mk_gdi_path (points p) (flags p) n (newStroke p) (pos p).
Definition set_newStroke (b : bool) (p : gdi_path) : gdi_path :=
  mk_gdi_path (points p) (flags p) (allocated p) b (pos p).
Definition set_pos (q : POINT) (p : gdi_path) : gdi_path :=
  mk_gdi_path (points p) (flags p) (allocated p) (newStroke p) q.

(** ** The host

    Everything path.c calls but does not define.  The floating-point
    geometry of the widener is kept outside the embedding: the host hands
    back the rounded points that computation produces, and the embedding
    keeps the traffic on the path buffers. *)

(** The four control points [points[0..3]] that [PATH_DoArcPart] computes
    for one piece of an arc. *)
Definition control_points : Type := POINT * POINT * POINT * POINT.

(** What [GetObjectW] copies out for a pen: a [LOGPEN] or an [EXTLOGPEN]. *)
Inductive pen_data : Type :=
| LOGPEN_data (style : Z) (width : POINT)
| EXTLOGPEN_data (style : Z) (width : Z).

(** [LOGPEN.lopnStyle] and [EXTLOGPEN.elpPenStyle] are the same first word
    of the buffer; [elpWidth] is the second, where a [LOGPEN] keeps
    [lopnWidth.x]. *)
Definition lopnStyle (d : pen_data) : Z :=
  match d with LOGPEN_data s _ => s | EXTLOGPEN_data s _ => s end.
Definition elpPenStyle (d : pen_data) : Z :=
  match d with LOGPEN_data s _ => s | EXTLOGPEN_data s _ => s end.
Definition elpWidth (d : pen_data) : Z :=
  match d with LOGPEN_data _ w => x w | EXTLOGPEN_data _ w => w end.

Record pen_object : Type := mk_pen_object {
  GetObjectW_size : nat;      (* 0 when the handle is not valid *)
  GetObjectType : Z;
  GetObjectW_data : pen_data
}.

Class Host : Type := {
  (* does the process heap grant a block of that many bytes? *)
  HeapAlloc_ok : nat -> bool;
  sizeof_gdi_path : nat;
  (* world-to-viewport mapping of one point, and its inverse on an array,
     which fails when the mapping cannot be inverted *)
  LPtoDP : POINT -> POINT;
  DPtoLP : list POINT -> option (list POINT);
  GetGraphicsMode : graphics_mode;
  GetArcDirection : arc_direction;
  GetPolyFillMode : INT;
  (* polyline for one cubic, NULL on failure *)
  GDI_Bezier : POINT -> POINT -> POINT -> POINT -> option (list POINT);
  CreatePolyPolygonRgn : list POINT -> list INT -> nat -> INT -> HRGN;
  sizeof_pointer : nat;
  (* floating point: the points that end up in pUpPath and pDownPath for
     one stroke; arguments: points and flags of the stroke, end cap, join,
     penWidthIn, penWidthOut (the miter limit is the host's) *)
  widen_geometry : list POINT -> list BYTE -> Z -> Z -> Z -> Z ->
                   list POINT * list POINT
}.

(** ** Floating point

    The arcs compute in [double].  The embedding keeps that code as it is
    written, with its conversions between [INT] and [double], its
    assertions and its quadrant loop, and takes the arithmetic itself from
    the machine and the C library: [FloatingPoint] is what path.c uses of
    them.  Comparisons are those of C, so [a > b] is [d_lt b a] and
    [a >= b] is [d_le b a]. *)
Class FloatingPoint : Type := {
  double : Type;
  (* the conversion of an [INT] to [double], also the literals 1.0, 2.0,
     ...; and the conversion of a [double] to [INT], which drops the
     fraction *)
  dbl : INT -> double;
  int_of_dbl : double -> INT;
  d_add : double -> double -> double;
  d_sub : double -> double -> double;
  d_mul : double -> double -> double;
  d_div : double -> double -> double;
  d_neg : double -> double;
  d_lt : double -> double -> bool;
  d_le : double -> double -> bool;
  (* the literals 0.5 and 1e-8 *)
  dbl_0_5 : double;
  dbl_1e_8 : double;
  (* math.h *)
  M_PI : double;
  M_PI_2 : double;
  atan2 : double -> double -> double;
  cos : double -> double;
  sin : double -> double;
  floor : double -> double;
  ceil : double -> double;
  fabs : double -> double;
  (* gdi_private.h *)
  GDI_ROUND : double -> INT;
  (* the members of [dc->xformWorld2Vport], converted to [double] *)
  eM11 : double;
  eM12 : double;
  eM21 : double;
  eM22 : double;
  eDx : double;
  eDy : double;
  (* [pathdrv_AngleArc], whose angles are of type [FLOAT]: x1, y1, x2, y2,
     the rounded ends of the arc, and [eSweepAngle >= 0] *)
  FLOAT : Type;
  AngleArc_ends : INT -> INT -> Z -> FLOAT -> FLOAT -> INT * INT * INT * INT;
  sweep_nonnegative : FLOAT -> bool;
  (* the four quarter turns of [pathdrv_RoundRect] are quarter turns:
     [fabs (angleEnd - angleStart) <= M_PI_2] for (0, -M_PI_2),
     (-M_PI_2, -M_PI), (M_PI, M_PI_2) and (M_PI_2, 0), whose differences
     are exact in binary floating point *)
  quarter_turns :
    d_le (fabs (d_sub (d_neg M_PI_2) (dbl 0))) M_PI_2 = true /\
    d_le (fabs (d_sub (d_neg M_PI) (d_neg M_PI_2))) M_PI_2 = true /\
    d_le (fabs (d_sub M_PI_2 M_PI)) M_PI_2 = true /\
    d_le (fabs (d_sub (dbl 0) M_PI_2)) M_PI_2 = true
}.

Declare Scope double_scope.
Delimit Scope double_scope with D.
Infix "+" := d_add : double_scope.
Infix "-" := d_sub : double_scope.
Infix "*" := d_mul : double_scope.
Infix "/" := d_div : double_scope.
Notation "- a" := (d_neg a) : double_scope.
Infix "<" := d_lt : double_scope.
Infix "<=" := d_le : double_scope.
Notation "a > b" := (d_lt b a) : double_scope.
Notation "a >= b" := (d_le b a) : double_scope.

(** ** The monad of path operations *)

Inductive outcome (A : Type) : Type :=
| Done (a : A)
| AssertFailed
| Fault.
Arguments Done {A} a.
Arguments AssertFailed {A}.
Arguments Fault {A}.

Definition M (A : Type) : Type := gdi_path -> outcome (A * gdi_path).

Definition ret {A} (a : A) : M A := fun p => Done (a, p).

Definition bind {A B} (m : M A) (k : A -> M B) : M B :=
  fun p => match m p with
           | Done (a, p') => k a p'
           | AssertFailed => AssertFailed
           | Fault => Fault
           end.

Notation "v <- c1 ;; c2" := (bind c1 (fun v => c2))
  (at level 100, c1 at next level, right associativity).
Notation "c1 ;; c2" := (bind c1 (fun _ => c2))
  (at level 100, right associativity).

Definition get : M gdi_path := fun p => Done (p, p).
Definition modify (f : gdi_path -> gdi_path) : M unit := fun p => Done (tt, f p).
Definition assert (b : bool) : M unit :=
  fun p => if b then Done (tt, p) else AssertFailed.
Definition fault {A} : M A := fun _ => Fault.

(** [path->flags[i]] and [path->points[i]], read and written. *)
Definition flag_at (i : nat) : M BYTE :=
  fun p => match flags p !! i with Some f => Done (f, p) | None => Fault end.
Definition point_at (i : nat) : M POINT :=
  fun p => match points p !! i with Some q => Done (q, p) | None => Fault end.
Definition set_flag (i : nat) (f : BYTE) : M unit :=
  fun p => if decide (i < count p)%nat
           then Done (tt, set_flags (<[i:=f]> (flags p)) p)
           else Fault.

Definition has_close (f : BYTE) : bool := negb (Z.land f PT_CLOSEFIGURE =? 0).
Definition base_type (f : BYTE) : BYTE := Z.land f (Z.lnot PT_CLOSEFIGURE).

(** The part of the device context the path functions touch: the committed
    path and the selected pen. *)
Record DC : Type := mk_DC {
  dc_path : option gdi_path;
  dc_hPen : pen_object
}.

(** What a call leaves behind besides its result: the device context and the
    code it passed to [SetLastError], if it did. *)
Record reply (A : Type) : Type := mk_reply {
  value : A;
  last_error : option Z;
  dc_after : DC
}.
Arguments mk_reply {A} _ _ _.
Arguments value {A} _.
Arguments last_error {A} _.
Arguments dc_after {A} _.

(** [memcpy (dst, src, length src)] on a buffer of [length dst] cells. *)
Definition memcpy {A} (dst src : list A) : outcome (list A) :=
  if decide (length src <= length dst)%nat
  then Done (src ++ drop (length src) dst)
  else Fault.

Section Recorder.
Context `{Host} `{FP : FloatingPoint}.

(** ** Path buffer *)

Definition alloc_gdi_path (cnt : nat) : option gdi_path :=
  if negb (HeapAlloc_ok sizeof_gdi_path) then None
  else
    let cnt := Nat.max NUM_ENTRIES_INITIAL cnt in
    if negb (HeapAlloc_ok (cnt * sizeof_POINT)) || negb (HeapAlloc_ok (cnt * sizeof_BYTE))
    then None
    else Some (mk_gdi_path [] [] cnt true (mkPOINT 0 0)).

Definition PATH_ReserveEntries (cnt : nat) : M bool :=
  pPath <- get ;;
  if decide (allocated pPath < cnt)%nat then
    let cnt := Nat.max (allocated pPath * 2) cnt in
    if negb (HeapAlloc_ok (cnt * sizeof_POINT)) then ret false
    else if negb (HeapAlloc_ok (cnt * sizeof_BYTE)) then ret false
    else modify (set_allocated cnt) ;; ret true
  else ret true.

Definition PATH_AddEntry (pPoint : POINT) (f : BYTE) : M bool :=
  pPath <- get ;;
  ok <- PATH_ReserveEntries (count pPath + 1) ;;
  if negb ok then ret false
  else
    modify (fun p => set_flags (flags p ++ [f]) (set_points (points p ++ [pPoint]) p)) ;;
    ret true.

(** [memcpy] of [cnt] points out of the caller's array. *)
Definition read_points (pts : list POINT) (cnt : nat) : M (list POINT) :=
  if decide (cnt <= length pts)%nat then ret (take cnt pts) else fault.

(** Both return the index of the first type byte written, for fix-ups, or
    [None] for the NULL of a failed reservation. *)
Definition add_log_points (pts : list POINT) (cnt : nat) (type : BYTE) : M (option nat) :=
  path <- get ;;
  ok <- PATH_ReserveEntries (count path + cnt) ;;
  if negb ok then ret None
  else
    src <- read_points pts cnt ;;
    modify (fun p => set_flags (flags p ++ replicate cnt type)
                       (set_points (points p ++ map LPtoDP src) p)) ;;
    ret (Some (count path)).

Definition add_points (pts : list POINT) (cnt : nat) (type : BYTE) : M (option nat) :=
  path <- get ;;
  ok <- PATH_ReserveEntries (count path + cnt) ;;
  if negb ok then ret None
  else
    src <- read_points pts cnt ;;
    modify (fun p => set_flags (flags p ++ replicate cnt type)
                       (set_points (points p ++ src) p)) ;;
    ret (Some (count path)).

(** start a new path stroke if necessary *)
Definition start_new_stroke : M bool :=
  path <- get ;;
  continues <-
    (if newStroke path then ret false
     else if decide (count path = 0)%nat then ret false
     else
       f <- flag_at (count path - 1) ;;
       if has_close f then ret false
       else
         q <- point_at (count path - 1) ;;
         ret ((x q =? x (pos path)) && (y q =? y (pos path)))) ;;
  if (continues : bool) then ret true
  else
    modify (set_newStroke false) ;;
    r <- add_points [pos path] 1 PT_MOVETO ;;
    ret (bool_decide (is_Some r)).

(** set current position to the last point that was added to the path *)
Definition update_current_pos : M unit :=
  path <- get ;;
  assert (negb (count path =? 0)%nat) ;;
  q <- point_at (count path - 1) ;;
  modify (set_pos q).

(** close the current figure *)
Definition close_figure : M unit :=
  path <- get ;;
  assert (negb (count path =? 0)%nat) ;;
  f <- flag_at (count path - 1) ;;
  set_flag (count path - 1) (Z.lor f PT_CLOSEFIGURE).

(** add a number of points, starting a new stroke if necessary *)
Definition add_log_points_new_stroke (pts : list POINT) (cnt : nat) (type : BYTE) : M bool :=
  ok <- start_new_stroke ;;
  if negb ok then ret false
  else
    r <- add_log_points pts cnt type ;;
    match r with
    | None => ret false
    | Some _ => update_current_pos ;; ret true
    end.

(** ** Recorder: the entries of the path driver *)

Definition pathdrv_MoveTo (x0 y0 : INT) : M bool :=
  modify (set_newStroke true) ;;
  modify (set_pos (LPtoDP (mkPOINT x0 y0))) ;;
  ret true.

Definition pathdrv_LineTo (x0 y0 : INT) : M bool :=
  add_log_points_new_stroke [mkPOINT x0 y0] 1 PT_LINETO.

Definition pathdrv_PolyBezierTo (pts : list POINT) (cbPoints : nat) : M bool :=
  add_log_points_new_stroke pts cbPoints PT_BEZIERTO.

Definition pathdrv_PolyBezier (pts : list POINT) (cbPoints : nat) : M bool :=
  type <- add_log_points pts cbPoints PT_BEZIERTO ;;
  match type with
  | None => ret false
  | Some type => set_flag type PT_MOVETO ;; ret true
  end.

Definition pathdrv_Polyline (pts : list POINT) (cbPoints : nat) : M bool :=
  type <- add_log_points pts cbPoints PT_LINETO ;;
  match type with
  | None => ret false
  | Some type =>
      (if decide (cbPoints = 0)%nat then ret tt else set_flag type PT_MOVETO) ;;
      ret true
  end.

Definition pathdrv_PolylineTo (pts : list POINT) (cbPoints : nat) : M bool :=
  add_log_points_new_stroke pts cbPoints PT_LINETO.

Definition pathdrv_Polygon (pts : list POINT) (cbPoints : nat) : M bool :=
  type <- add_log_points pts cbPoints PT_LINETO ;;
  match type with
  | None => ret false
  | Some type =>
      (if decide (cbPoints = 0)%nat then ret tt else set_flag type PT_MOVETO) ;;
      (if decide (1 < cbPoints)%nat
       then set_flag (type + (cbPoints - 1)) (Z.lor PT_LINETO PT_CLOSEFIGURE)
       else ret tt) ;;
      ret true
  end.

(** The first loop of [pathdrv_PolyPolygon] and [pathdrv_PolyPolyline]:
    [None] when some [counts[poly] < 2], otherwise the total, accumulated in
    a [UINT]. *)
Fixpoint sum_counts (counts : list INT) (cnt : Z) : option Z :=
  match counts with
  | [] => Some cnt
  | c :: counts' =>
      if c <? 2 then None else sum_counts counts' ((cnt + c) mod 2 ^ 32)
  end.

(** make the first point of each polyline a PT_MOVETO, and close the last one *)
Fixpoint PolyPolygon_fixup (type : nat) (counts : list INT) : M unit :=
  match counts with
  | [] => ret tt
  | c :: counts' =>
      set_flag type PT_MOVETO ;;
      set_flag (type + (Z.to_nat c - 1)) (Z.lor PT_LINETO PT_CLOSEFIGURE) ;;
      PolyPolygon_fixup (type + Z.to_nat c) counts'
  end.

Definition pathdrv_PolyPolygon (pts : list POINT) (counts : list INT) : M bool :=
  let polygons := length counts in
  if decide (polygons = 0)%nat then ret false
  else
    match sum_counts counts 0 with
    | None => ret false
    | Some cnt =>
        type <- add_log_points pts (Z.to_nat cnt) PT_LINETO ;;
        match type with
        | None => ret false
        | Some type => PolyPolygon_fixup type counts ;; ret true
        end
    end.

(** make the first point of each polyline a PT_MOVETO *)
Fixpoint PolyPolyline_fixup (type : nat) (counts : list INT) : M unit :=
  match counts with
  | [] => ret tt
  | c :: counts' =>
      set_flag type PT_MOVETO ;;
      PolyPolyline_fixup (type + Z.to_nat c) counts'
  end.

Definition pathdrv_PolyPolyline (pts : list POINT) (counts : list INT) : M bool :=
  let polylines := length counts in
  if decide (polylines = 0)%nat then ret false
  else
    match sum_counts counts 0 with
    | None => ret false
    | Some cnt =>
        type <- add_log_points pts (Z.to_nat cnt) PT_LINETO ;;
        match type with
        | None => ret false
        | Some type => PolyPolyline_fixup type counts ;; ret true
        end
    end.

(** [for (i = 0; i < path->count; i++) if (path->flags[i] == PT_MOVETO) lastmove = i;] *)
Fixpoint find_lastmove (fl : list BYTE) (i lastmove : nat) : nat :=
  match fl with
  | [] => lastmove
  | f :: fl' => find_lastmove fl' (S i) (if f =? PT_MOVETO then i else lastmove)
  end.

(** The tail of a [pathdrv_PolyDraw] iteration, after the [switch]. *)
Definition PolyDraw_close (t : BYTE) (lastmove : nat) : M unit :=
  if has_close t then
    close_figure ;;
    q <- point_at lastmove ;;
    modify (set_pos q)
  else ret tt.

(** The main loop of [pathdrv_PolyDraw]; [pts] and [types] are the parts of
    the two arrays from index [i] on. *)
Fixpoint PolyDraw_loop (pts : list POINT) (types : list BYTE)
    (orig_pos : POINT) (lastmove : nat) {struct types} : M bool :=
  match types with
  | [] => ret true
  | t :: types1 =>
      if t =? PT_MOVETO then
        modify (set_newStroke true) ;;
        match pts with
        | [] => fault
        | q :: _ => modify (set_pos (LPtoDP q))
        end ;;
        path <- get ;;
        PolyDraw_close t (count path) ;;
        PolyDraw_loop (drop 1 pts) types1 orig_pos (count path)
      else if (t =? PT_LINETO) || (t =? Z.lor PT_LINETO PT_CLOSEFIGURE) then
        ok <- add_log_points_new_stroke pts 1 PT_LINETO ;;
        if negb ok then ret false
        else
          PolyDraw_close t lastmove ;;
          PolyDraw_loop (drop 1 pts) types1 orig_pos lastmove
      else
        (* restore original position *)
        let reject := modify (set_pos orig_pos) ;; ret false in
        if t =? PT_BEZIERTO then
          match types1 with
          | t1 :: t2 :: types3 =>
              if (t1 =? PT_BEZIERTO) && (base_type t2 =? PT_BEZIERTO) then
                ok <- add_log_points_new_stroke pts 3 PT_BEZIERTO ;;
                if negb ok then ret false
                else
                  PolyDraw_close t2 lastmove ;;
                  PolyDraw_loop (drop 3 pts) types3 orig_pos lastmove
              else reject
          | _ => reject
          end
        else reject
  end.

Definition pathdrv_PolyDraw (pts : list POINT) (types : list BYTE) : M bool :=
  path <- get ;;
  let lastmove := find_lastmove (flags path) 0 0 in
  let orig_pos := pos path in
  PolyDraw_loop pts types orig_pos lastmove.

Definition pathdrv_CloseFigure : M bool :=
  path <- get ;;
  (if decide (count path = 0)%nat then ret tt else close_figure) ;;
  ret true.

(** ** Primitive shapes *)

(** Helper function for RoundRect() and Rectangle() *)
Definition PATH_CheckCorners (x1 y1 x2 y2 : INT) : POINT * POINT :=
  (* Convert points to device coordinates *)
  let c0 := LPtoDP (mkPOINT x1 y1) in
  let c1 := LPtoDP (mkPOINT x2 y2) in
  (* Make sure first corner is top left and second corner is bottom right *)
  let '(c0x, c1x) := if x c1 <? x c0 then (x c1, x c0) else (x c0, x c1) in
  let '(c0y, c1y) := if y c1 <? y c0 then (y c1, y c0) else (y c0, y c1) in
  (* In GM_COMPATIBLE, don't include bottom and right edges *)
  if decide (GetGraphicsMode = GM_COMPATIBLE)
  then (mkPOINT c0x c0y, mkPOINT (c1x - 1) (c1y - 1))
  else (mkPOINT c0x c0y, mkPOINT c1x c1y).

Definition pathdrv_Rectangle (x1 y1 x2 y2 : INT) : M bool :=
  let '(c0, c1) := PATH_CheckCorners x1 y1 x2 y2 in
  let pts := [mkPOINT (x c1) (y c0); c0; mkPOINT (x c0) (y c1); c1] in
  type <- add_points pts 4 PT_LINETO ;;
  match type with
  | None => ret false
  | Some type =>
      set_flag type PT_MOVETO ;;
      f <- flag_at (type + 3) ;;
      set_flag (type + 3) (Z.lor f PT_CLOSEFIGURE) ;;
      ret true
  end.

(** A floating point version of the POINT structure *)
Record FLOAT_POINT : Type := mkFLOAT_POINT { fx : double; fy : double }.

(** Performs a world-to-viewport transformation on the specified point
    (which is in floating point format). *)
Definition INTERNAL_LPTODP_FLOAT (point : FLOAT_POINT) : FLOAT_POINT :=
  let x := fx point in
  let y := fy point in
  mkFLOAT_POINT (x * eM11 + y * eM21 + eDx)%D (x * eM12 + y * eM22 + eDy)%D.

(** Scales a normalized point (x, y) with respect to the box whose corners
    are passed in [corners]. *)
Definition PATH_ScaleNormalizedPoint (corners : FLOAT_POINT * FLOAT_POINT)
    (x y : double) : POINT :=
  let '(c0, c1) := corners in
  mkPOINT (GDI_ROUND (fx c0 + (fx c1 - fx c0) * dbl_0_5 * (x + dbl 1))%D)
          (GDI_ROUND (fy c0 + (fy c1 - fy c0) * dbl_0_5 * (y + dbl 1))%D).

(** Normalizes a point with respect to the box whose corners are passed in
    [corners]; the result is [( *pX, *pY)]. *)
Definition PATH_NormalizePoint (corners : FLOAT_POINT * FLOAT_POINT)
    (pPoint : FLOAT_POINT) : double * double :=
  let '(c0, c1) := corners in
  (((fx pPoint - fx c0) / (fx c1 - fx c0) * dbl 2 - dbl 1)%D,
   ((fy pPoint - fy c0) / (fy c1 - fy c0) * dbl 2 - dbl 1)%D).

(** [points[0..3]] of [PATH_DoArcPart]: the control points [xNorm], [yNorm]
    of the piece, scaled to the box. *)
Definition DoArcPart_points (corners : FLOAT_POINT * FLOAT_POINT)
    (angleStart angleEnd : double) : control_points :=
  (* Compute control points *)
  let halfAngle := ((angleEnd - angleStart) / dbl 2)%D in
  let '(n0, n1, n2, n3) :=
    if (fabs halfAngle > dbl_1e_8)%D then
      let a := (dbl 4 / dbl 3 * (dbl 1 - cos halfAngle) / sin halfAngle)%D in
      let x0 := cos angleStart in
      let y0 := sin angleStart in
      let x3 := cos angleEnd in
      let y3 := sin angleEnd in
      ((x0, y0), ((x0 - a * y0)%D, (y0 + a * x0)%D),
       ((x3 + a * y3)%D, (y3 - a * x3)%D), (x3, y3))
    else
      let n := (cos angleStart, sin angleStart) in
      (n, n, n, n) in
  let scale (n : double * double) := PATH_ScaleNormalizedPoint corners n.1 n.2 in
  (scale n0, scale n1, scale n2, scale n3).

(** Appends the Bezier spline of one arc piece; the angles should span a
    quarter circle at most.  If [startEntryType] is non-zero, an entry of
    that type for the first control point is added; otherwise the current
    position is taken to be the first control point. *)
Definition PATH_DoArcPart (corners : FLOAT_POINT * FLOAT_POINT)
    (angleStart angleEnd : double) (startEntryType : BYTE) : M bool :=
  assert (fabs (angleEnd - angleStart) <= M_PI_2)%D ;;
  let '(p0, p1, p2, p3) := DoArcPart_points corners angleStart angleEnd in
  (* Add starting point to path if desired *)
  let start := if startEntryType =? 0 then 1%nat else 0%nat in
  type <- add_points (drop start [p0; p1; p2; p3]) (4 - start) PT_BEZIERTO ;;
  match type with
  | None => ret false
  | Some type =>
      (if decide (start = 0)%nat then set_flag type startEntryType else ret tt) ;;
      ret true
  end.

(** The [do ... while (!end)] loop of [PATH_Arc], which adds one Bezier
    spline per quadrant that the arc spans and does not look at the result
    of [PATH_DoArcPart].  [fuel] bounds the iterations that are followed:
    [None] is the loop that has not ended by then.  [start] and
    [angleEndQuadrant] are the variables as the iteration before left
    them. *)
Fixpoint arc_quadrants (fuel : nat) (corners : FLOAT_POINT * FLOAT_POINT)
    (angleStart angleEnd : double) (direction : arc_direction) (lines : Z)
    (start : bool) (angleEndQuadrant : double) : M (option unit) :=
  match fuel with
  | O => ret None
  | S fuel' =>
      (* Determine the start and end angles for this quadrant *)
      let angleStartQuadrant := if start then angleStart else angleEndQuadrant in
      let angleEndQuadrant :=
        if start then
          match direction with
          | AD_CLOCKWISE => ((floor (angleStart / M_PI_2) + dbl 1) * M_PI_2)%D
          | AD_COUNTERCLOCKWISE => ((ceil (angleStart / M_PI_2) - dbl 1) * M_PI_2)%D
          end
        else
          match direction with
          | AD_CLOCKWISE => (angleEndQuadrant + M_PI_2)%D
          | AD_COUNTERCLOCKWISE => (angleEndQuadrant - M_PI_2)%D
          end in
      (* Have we reached the last part of the arc? *)
      let end_ :=
        match direction with
        | AD_CLOCKWISE => (angleEnd < angleEndQuadrant)%D
        | AD_COUNTERCLOCKWISE => (angleEnd > angleEndQuadrant)%D
        end in
      (* Adjust the end angle for this quadrant *)
      let angleEndQuadrant := if end_ then angleEnd else angleEndQuadrant in
      (* Add the Bezier spline to the path *)
      PATH_DoArcPart corners angleStartQuadrant angleEndQuadrant
        (if start then (if lines =? -1 then PT_LINETO else PT_MOVETO) else 0) ;;
      if end_ then ret (Some tt)
      else arc_quadrants fuel' corners angleStart angleEnd direction lines false
             angleEndQuadrant
  end.

(** [corners] of [PATH_Arc] after the conversion to device coordinates and
    the two swaps, which go through the [INT] variable [temp]. *)
Definition arc_corners (x1 y1 x2 y2 : INT) : FLOAT_POINT * FLOAT_POINT :=
  (* Convert points to device coordinates *)
  let c0 := INTERNAL_LPTODP_FLOAT (mkFLOAT_POINT (dbl x1) (dbl y1)) in
  let c1 := INTERNAL_LPTODP_FLOAT (mkFLOAT_POINT (dbl x2) (dbl y2)) in
  (* Make sure first corner is top left and second corner is bottom right *)
  let '(c0x, c1x) :=
    if (fx c0 > fx c1)%D then (fx c1, dbl (int_of_dbl (fx c0))) else (fx c0, fx c1) in
  let '(c0y, c1y) :=
    if (fy c0 > fy c1)%D then (fy c1, dbl (int_of_dbl (fy c0))) else (fy c0, fy c1) in
  (mkFLOAT_POINT c0x c0y, mkFLOAT_POINT c1x c1y).

(** [atan2 (y, x)] for the normalized position of a point given in logical
    coordinates: [angleStart], and [angleEnd] before its adjustment. *)
Definition arc_angle (corners : FLOAT_POINT * FLOAT_POINT) (xp yp : INT) : double :=
  let '(x, y) :=
    PATH_NormalizePoint corners (INTERNAL_LPTODP_FLOAT (mkFLOAT_POINT (dbl xp) (dbl yp))) in
  atan2 y x.

(** Make sure the end angle is "on the right side" of the start angle: the
    adjusted [angleEnd] and what the assertion on it tests, [true] where
    there is none. *)
Definition arc_end_angle (direction : arc_direction) (angleStart angleEnd : double)
    : double * bool :=
  match direction with
  | AD_CLOCKWISE =>
      if (angleEnd <= angleStart)%D then
        let angleEnd := (angleEnd + dbl 2 * M_PI)%D in
        (angleEnd, (angleEnd >= angleStart)%D)
      else (angleEnd, true)
  | AD_COUNTERCLOCKWISE =>
      if (angleEnd >= angleStart)%D then
        let angleEnd := (angleEnd - dbl 2 * M_PI)%D in
        (angleEnd, (angleEnd <= angleStart)%D)
      else (angleEnd, true)
  end.

(** This adds up to five Bezier splines representing the arc to the path.
    When [lines] is 1, we add 1 extra line to get a chord, when [lines] is
    2, we add 2 extra lines to get a pie, and when [lines] is -1 we add 1
    extra line from the current DC position to the starting position of
    the arc before drawing the arc itself (arcto).  The result is [Some] of
    what the call returns, and [None] when its quadrant loop has not ended
    after [fuel] iterations. *)
Definition PATH_Arc (fuel : nat) (x1 y1 x2 y2 xStart yStart xEnd yEnd : INT)
    (direction : arc_direction) (lines : Z) : M (option bool) :=
  (* Check for zero height / width *)
  if (x1 =? x2) || (y1 =? y2) then ret (Some true)
  else
    let corners := arc_corners x1 y1 x2 y2 in
    (* Compute start and end angle *)
    let angleStart := arc_angle corners xStart yStart in
    let '(angleEnd, on_the_right_side) :=
      arc_end_angle direction angleStart (arc_angle corners xEnd yEnd) in
    assert on_the_right_side ;;
    (* In GM_COMPATIBLE, don't include bottom and right edges *)
    let corners :=
      if decide (GetGraphicsMode = GM_COMPATIBLE)
      then (corners.1, mkFLOAT_POINT (fx corners.2 - dbl 1)%D (fy corners.2 - dbl 1)%D)
      else corners in
    (* arcto: Add a PT_MOVETO only if this is the first entry in a stroke *)
    ok <- (if lines =? -1 then start_new_stroke else ret true) ;;
    if negb ok then ret (Some false)
    else
      (* Add the arc to the path with one Bezier spline per quadrant *)
      ended <- arc_quadrants fuel corners angleStart angleEnd direction lines true (dbl 0) ;;
      match ended with
      | None => ret None
      | Some _ =>
          (* chord: close figure. pie: add line and close figure *)
          if lines =? -1 then update_current_pos ;; ret (Some true)
          else if lines =? 1 then close_figure ;; ret (Some true)
          else if lines =? 2 then
            let centre :=
              mkPOINT (int_of_dbl ((fx corners.1 + fx corners.2) / dbl 2)%D)
                      (int_of_dbl ((fy corners.1 + fy corners.2) / dbl 2)%D) in
            ok <- PATH_AddEntry centre (Z.lor PT_LINETO PT_CLOSEFIGURE) ;;
            if negb ok then ret (Some false) else ret (Some true)
          else ret (Some true)
      end.

Definition pathdrv_Arc (fuel : nat) (left top right bottom xstart ystart xend yend : INT)
    : M (option bool) :=
  PATH_Arc fuel left top right bottom xstart ystart xend yend GetArcDirection 0.

Definition pathdrv_ArcTo (fuel : nat) (left top right bottom xstart ystart xend yend : INT)
    : M (option bool) :=
  PATH_Arc fuel left top right bottom xstart ystart xend yend GetArcDirection (-1).

Definition pathdrv_Chord (fuel : nat) (left top right bottom xstart ystart xend yend : INT)
    : M (option bool) :=
  PATH_Arc fuel left top right bottom xstart ystart xend yend GetArcDirection 1.

Definition pathdrv_Pie (fuel : nat) (left top right bottom xstart ystart xend yend : INT)
    : M (option bool) :=
  PATH_Arc fuel left top right bottom xstart ystart xend yend GetArcDirection 2.

Definition pathdrv_Ellipse (fuel : nat) (x1 y1 x2 y2 : INT) : M (option bool) :=
  PATH_Arc fuel x1 y1 x2 y2 x1 ((y1 + y2) ÷ 2) x1 ((y1 + y2) ÷ 2) GetArcDirection 1.

(** ** Flattener *)

Definition PATH_AddFlatBezier (pt0 pt1 pt2 pt3 : POINT) (closed : bool) : M bool :=
  match GDI_Bezier pt0 pt1 pt2 pt3 with
  | None => ret false
  | Some [] => fault
  | Some (_ :: pts1) =>
      r <- add_points pts1 (length pts1) PT_LINETO ;;
      let ok := bool_decide (is_Some r) in
      (if ok && closed then close_figure else ret tt) ;;
      ret ok
  end.

(** A cell of the source path of [PATH_FlattenPath], which is only read. *)
Definition load {A} (l : list A) (i : nat) : M A :=
  fun p => match l !! i with Some a => Done (a, p) | None => Fault end.

(** The loop of [PATH_FlattenPath] from index [srcpt] on, running in the new
    path; [n] bounds the iterations left, and [count pPath - srcpt] of them
    are enough since every iteration advances [srcpt]. *)
Fixpoint flatten_loop (pPath : gdi_path) (n srcpt : nat) : M bool :=
  match n with
  | O => ret true
  | S n' =>
      if decide (count pPath <= srcpt)%nat then ret true
      else
        f <- load (flags pPath) srcpt ;;
        if (base_type f =? PT_MOVETO) || (base_type f =? PT_LINETO) then
          q <- load (points pPath) srcpt ;;
          ok <- PATH_AddEntry q f ;;
          if negb ok then ret false
          else flatten_loop pPath n' (srcpt + 1)
        else if base_type f =? PT_BEZIERTO then
          f2 <- load (flags pPath) (srcpt + 2) ;;
          (if decide (srcpt = 0)%nat then fault else ret tt) ;;
          pt0 <- load (points pPath) (srcpt - 1) ;;
          pt1 <- load (points pPath) srcpt ;;
          pt2 <- load (points pPath) (srcpt + 1) ;;
          pt3 <- load (points pPath) (srcpt + 2) ;;
          ok <- PATH_AddFlatBezier pt0 pt1 pt2 pt3 (has_close f2) ;;
          if negb ok then ret false
          else flatten_loop pPath n' (srcpt + 3)
        else flatten_loop pPath n' (srcpt + 1)
  end.

(** Replaces Beziers with line segments; [None] is the NULL result, and the
    second component the code [alloc_gdi_path] passes to [SetLastError]. *)
Definition PATH_FlattenPath (pPath : gdi_path) : outcome (option gdi_path * option Z) :=
  match alloc_gdi_path (count pPath) with
  | None => Done (None, Some ERROR_NOT_ENOUGH_MEMORY)
  | Some new_path =>
      match flatten_loop pPath (count pPath) 0 new_path with
      | Done (true, new_path) => Done (Some new_path, None)
      | Done (false, _) => Done (None, None)
      | AssertFailed => AssertFailed
      | Fault => Fault
      end
  end.

(** ** Region bridge *)

(** [counts[polygons++] = v] on a buffer of [length counts] cells. *)
Definition store_count (counts : list INT) (polygons : nat) (v : INT)
    : outcome (list INT * nat) :=
  if decide (polygons < length counts)%nat
  then Done (<[polygons := v]> counts, S polygons)
  else Fault.

(** The loop of [path_to_region] over the flags from index [i] on. *)
Fixpoint region_loop (fl : list BYTE) (i pos polygons : nat) (counts : list INT)
    : outcome (nat * list INT * nat) :=
  match fl with
  | [] => Done (pos, counts, polygons)
  | f :: fl' =>
      if negb (f =? PT_MOVETO) then region_loop fl' (S i) pos polygons counts
      else
        match store_count counts polygons (Z.of_nat i - Z.of_nat pos) with
        | Done (counts, polygons) => region_loop fl' (S i) i polygons counts
        | AssertFailed => AssertFailed
        | Fault => Fault
        end
  end.

(** What [path_to_region] hands to [CreatePolyPolygonRgn] besides the
    points: the first [polygons] cells of [counts], and [polygons].  The
    cells of the fresh buffer start as 0. *)
Definition region_polygons (path : gdi_path) : outcome (list INT * nat) :=
  match flags path with
  | [] => Fault
  | f0 :: fl =>
      if negb (f0 =? PT_MOVETO) then AssertFailed
      else
        match region_loop fl 1 0 0 (replicate (count path / 2) 0) with
        | Done (pos, counts, polygons) =>
            let i := count path in
            match (if decide (pos + 1 < i)%nat
                   then store_count counts polygons (Z.of_nat i - Z.of_nat pos)
                   else Done (counts, polygons)) with
            | Done (counts, polygons) =>
                if decide (polygons <= count path / 2)%nat
                then Done (take polygons counts, polygons)
                else AssertFailed
            | AssertFailed => AssertFailed
            | Fault => Fault
            end
        | AssertFailed => AssertFailed
        | Fault => Fault
        end
  end.

(** convert a (flattened) path to a region *)
Definition path_to_region (path : gdi_path) (mode : INT) : outcome HRGN :=
  if decide (count path = 0)%nat then Done 0
  else if negb (HeapAlloc_ok (count path / 2 * sizeof_int)) then Done 0
  else
    match region_polygons path with
    | Done (counts, polygons) =>
        Done (CreatePolyPolygonRgn (points path) counts polygons mode)
    | AssertFailed => AssertFailed
    | Fault => Fault
    end.

(** ** Entry points on a device context *)

(** [GetPath]: the result, and the caller's two buffers after the call. *)
Definition GetPath (dc : DC) (pPoints : list POINT) (pTypes : list BYTE) (nSize : INT)
    : outcome (reply INT * list POINT * list BYTE) :=
  match dc_path dc with
  | None => Done (mk_reply (-1) (Some ERROR_CAN_NOT_COMPLETE) dc, pPoints, pTypes)
  | Some path =>
      if nSize =? 0 then Done (mk_reply (Z.of_nat (count path)) None dc, pPoints, pTypes)
      else if nSize <? Z.of_nat (count path) then
        Done (mk_reply (-1) (Some ERROR_INVALID_PARAMETER) dc, pPoints, pTypes)
      else
        match memcpy pPoints (take (count path) (points path)), memcpy pTypes (flags path) with
        | Done pPoints, Done pTypes =>
            (* Convert the points to logical coordinates *)
            match DPtoLP (take (count path) pPoints) with
            | None =>
                Done (mk_reply (-1) (Some ERROR_CAN_NOT_COMPLETE) dc, pPoints, pTypes)
            | Some logical =>
                Done (mk_reply (Z.of_nat (count path)) None dc,
                      logical ++ drop (count path) pPoints, pTypes)
            end
        | _, _ => Fault
        end
  end.

(** ** Widener *)

(** [PATH_AddEntry (pStrokes[numStrokes - 1], ...)], result not looked at. *)
Definition add_to_last_stroke (pStrokes : list gdi_path) (q : POINT) (f : BYTE)
    : outcome (list gdi_path) :=
  match last pStrokes with
  | None => Fault
  | Some stroke =>
      match PATH_AddEntry q f stroke with
      | Done (_, stroke) => Done (<[pred (length pStrokes) := stroke]> pStrokes)
      | AssertFailed => AssertFailed
      | Fault => Fault
      end
  end.

(** The first loop of [PATH_WidenPath]: cut the flattened path into strokes.
    [fl] are the flags from index [i] on and [prev] is [flags[i-1]];
    [None] is the NULL result. *)
Fixpoint widen_strokes (flat_path : gdi_path) (fl : list BYTE) (i : nat)
    (prev : option BYTE) (pStrokes : list gdi_path) : outcome (option (list gdi_path)) :=
  match fl with
  | [] => Done (Some pStrokes)
  | f :: fl' =>
      if (match prev with None => true | Some f1 => has_close f1 end)
         && negb (f =? PT_MOVETO)
      then Done None
      else if f =? PT_MOVETO then
        if negb (HeapAlloc_ok (S (length pStrokes) * sizeof_pointer)) then Done None
        else
          match alloc_gdi_path 0, points flat_path !! i with
          | Some stroke, Some point =>
              match add_to_last_stroke (pStrokes ++ [stroke]) point f with
              | Done pStrokes => widen_strokes flat_path fl' (S i) (Some f) pStrokes
              | AssertFailed => AssertFailed
              | Fault => Fault
              end
          | _, _ => Fault
          end
      else if (f =? PT_LINETO) || (f =? Z.lor PT_LINETO PT_CLOSEFIGURE) then
        match points flat_path !! i with
        | Some point =>
            match add_to_last_stroke pStrokes point f with
            | Done pStrokes => widen_strokes flat_path fl' (S i) (Some f) pStrokes
            | AssertFailed => AssertFailed
            | Fault => Fault
            end
        | None => Fault
        end
      else if f =? PT_BEZIERTO then
        (* should never happen because of the FlattenPath call *)
        widen_strokes flat_path fl' (S i) (Some f) pStrokes
      else Done None
  end.

(** Entries for a run of points, the first with [type0] and the others
    [PT_LINETO]; the results of [PATH_AddEntry] are not looked at. *)
Fixpoint add_run (pts : list POINT) (type0 : BYTE) : M unit :=
  match pts with
  | [] => ret tt
  | q :: pts' => PATH_AddEntry q type0 ;; add_run pts' PT_LINETO
  end.

(** The second loop of [PATH_WidenPath], running in [pNewPath]: the up path
    forwards, then the down path backwards. *)
Fixpoint widen_assemble (pStrokes : list gdi_path) (endcap joint penWidthIn penWidthOut : Z)
    : M unit :=
  match pStrokes with
  | [] => ret tt
  | stroke :: pStrokes' =>
      let '(up, down) :=
        widen_geometry (points stroke) (flags stroke) endcap joint penWidthIn penWidthOut in
      add_run up PT_MOVETO ;;
      match down with
      | [] => ret tt
      | _ =>
          f <- load (flags stroke) (count stroke - 1) ;;
          add_run (rev down) (if has_close f then PT_MOVETO else PT_LINETO)
      end ;;
      widen_assemble pStrokes' endcap joint penWidthIn penWidthOut
  end.

Definition PATH_WidenPath (dc : DC) : outcome (option gdi_path * option Z) :=
  let size := GetObjectW_size (dc_hPen dc) in
  if decide (size = 0)%nat then Done (None, Some ERROR_CAN_NOT_COMPLETE)
  else if negb (HeapAlloc_ok size) then Fault
  else
    let elp := GetObjectW_data (dc_hPen dc) in
    let obj_type := GetObjectType (dc_hPen dc) in
    match (if obj_type =? OBJ_PEN then Some (lopnStyle elp)
           else if obj_type =? OBJ_EXTPEN then Some (elpPenStyle elp)
           else None) with
    | None => Done (None, Some ERROR_CAN_NOT_COMPLETE)
    | Some penStyle =>
        let penWidth := elpWidth elp in
        let endcap := Z.land PS_ENDCAP_MASK penStyle in
        let joint := Z.land PS_JOIN_MASK penStyle in
        let penType := Z.land PS_TYPE_MASK penStyle in
        (* The function cannot apply to cosmetic pens *)
        if (obj_type =? OBJ_EXTPEN) && (penType =? PS_COSMETIC)
        then Done (None, Some ERROR_CAN_NOT_COMPLETE)
        else
          match dc_path dc with
          | None => Fault
          | Some path =>
              match PATH_FlattenPath path with
              | Done (None, err) => Done (None, err)
              | Done (Some flat_path, _) =>
                  let penWidthIn := penWidth ÷ 2 in
                  let penWidthOut :=
                    if penWidthIn + penWidth ÷ 2 <? penWidth
                    then penWidth ÷ 2 + 1 else penWidth ÷ 2 in
                  match widen_strokes flat_path (flags flat_path) 0 None [] with
                  | Done None => Done (None, None)
                  | Done (Some pStrokes) =>
                      match alloc_gdi_path (count flat_path) with
                      | None =>
                          (* pNewPath is not checked before it is written to *)
                          match pStrokes with
                          | [] => Done (None, Some ERROR_NOT_ENOUGH_MEMORY)
                          | _ => Fault
                          end
                      | Some pNewPath =>
                          match widen_assemble pStrokes endcap joint
                                  penWidthIn penWidthOut pNewPath with
                          | Done (_, pNewPath) => Done (Some pNewPath, None)
                          | AssertFailed => AssertFailed
                          | Fault => Fault
                          end
                      end
                  | AssertFailed => AssertFailed
                  | Fault => Fault
                  end
              | AssertFailed => AssertFailed
              | Fault => Fault
              end
          end
    end.

Definition nulldrv_WidenPath (dc : DC) : outcome (reply bool) :=
  match dc_path dc with
  | None => Done (mk_reply false (Some ERROR_CAN_NOT_COMPLETE) dc)
  | Some _ =>
      match PATH_WidenPath dc with
      | Done (None, err) => Done (mk_reply false err dc)
      | Done (Some path, err) => Done (mk_reply true err (mk_DC (Some path) (dc_hPen dc)))
      | AssertFailed => AssertFailed
      | Fault => Fault
      end
  end.

Definition nulldrv_FlattenPath (dc : DC) : outcome (reply bool) :=
  match dc_path dc with
  | None => Done (mk_reply false (Some ERROR_CAN_NOT_COMPLETE) dc)
  | Some pPath =>
      match PATH_FlattenPath pPath with
      | Done (None, err) => Done (mk_reply false err dc)
      | Done (Some path, err) => Done (mk_reply true err (mk_DC (Some path) (dc_hPen dc)))
      | AssertFailed => AssertFailed
      | Fault => Fault
      end
  end.

(** [PathToRegion]: the committed path is flattened, dropped from the device
    context, and turned into a region. *)
Definition PathToRegion (dc : DC) : outcome (reply HRGN) :=
  match dc_path dc with
  | None => Done (mk_reply 0 (Some ERROR_CAN_NOT_COMPLETE) dc)
  | Some pPath =>
      let dc' := mk_DC None (dc_hPen dc) in
      match PATH_FlattenPath pPath with
      | Done (None, err) => Done (mk_reply 0 err dc')
      | Done (Some path, err) =>
          match path_to_region path GetPolyFillMode with
          | Done hrgn => Done (mk_reply hrgn err dc')
          | AssertFailed => AssertFailed
          | Fault => Fault
          end
      | AssertFailed => AssertFailed
      | Fault => Fault
      end
  end.

End Recorder.

(** * Specification-side definitions *)

Section Specification.
Context `{Host}.

(** Whether [PATH_ReserveEntries] gets its [cnt] entries, and the path it
    leaves when it does. *)
Definition reserve_ok (p : gdi_path) (cnt : nat) : bool :=
  if decide (allocated p < cnt)%nat then
    HeapAlloc_ok (Nat.max (allocated p * 2) cnt * sizeof_POINT)
    && HeapAlloc_ok (Nat.max (allocated p * 2) cnt * sizeof_BYTE)
  else true.

Definition grown (p : gdi_path) (cnt : nat) : gdi_path :=
  if decide (allocated p < cnt)%nat
  then set_allocated (Nat.max (allocated p * 2) cnt) p
  else p.

(** The path with further cells at the end of both arrays. *)
Definition appended (p : gdi_path) (pts : list POINT) (fl : list BYTE) : gdi_path :=
  set_flags (flags p ++ fl) (set_points (points p ++ pts) p).

(** The heap never refuses a block. *)
Definition heap_grants : Prop := forall n, HeapAlloc_ok n = true.

(** The stroke-continuation rule in the words of the specification: a new
    stroke is required when the latch is set, the path is empty, the last
    entry carries CLOSE, or the last point is not the current position. *)
Definition needs_new_stroke (p : gdi_path) : bool :=
  newStroke p
  || bool_decide (count p = 0)%nat
  || match last (flags p) with Some f => has_close f | None => true end
  || bool_decide (last (points p) <> Some (pos p)).

(** The entries a stroke extension puts in front of its own: the synthetic
    MOVE at the current position, when a new stroke is required. *)
Definition stroke_start_points (p : gdi_path) : list POINT :=
  if needs_new_stroke p then [pos p] else [].
Definition stroke_start_flags (p : gdi_path) : list BYTE :=
  if needs_new_stroke p then [PT_MOVETO] else [].

(** [q'] is [q] with further entries, tagged as [P] allows, and nothing
    else touched. *)
Definition extends_with (P : BYTE -> Prop) (q q' : gdi_path) : Prop :=
  exists pts fl,
    points q' = points q ++ pts /\ flags q' = flags q ++ fl /\
    length pts = length fl /\ Forall P fl /\
    pos q' = pos q /\ newStroke q' = newStroke q.

(** The tags of [poly_polygon] and [poly_poly_line] in the words of the
    specification: every segment starts with MOVE, and a polygon segment
    ends with LINE|CLOSE. *)
Definition total (counts : list INT) : Z := foldr Z.add 0 counts.
Definition counts_ok (counts : list INT) : bool :=
  negb (bool_decide (counts = [])) && forallb (fun c => 2 <=? c) counts.
Definition polygon_tags (counts : list INT) : list BYTE :=
  concat (map (fun c => PT_MOVETO :: replicate (Z.to_nat c - 2) PT_LINETO
                          ++ [Z.lor PT_LINETO PT_CLOSEFIGURE]) counts).
Definition polyline_tags (counts : list INT) : list BYTE :=
  concat (map (fun c => PT_MOVETO :: replicate (Z.to_nat c - 1) PT_LINETO) counts).

(** The tagged streams [poly_draw] accepts, in the words of the
    specification: MOVE, LINE with or without CLOSE, and BEZIER followed by
    two more BEZIER tags, only the third of which may carry CLOSE. *)
Inductive accepted_types : list BYTE -> Prop :=
| accepted_nil : accepted_types []
| accepted_move types :
    accepted_types types -> accepted_types (PT_MOVETO :: types)
| accepted_line types :
    accepted_types types -> accepted_types (PT_LINETO :: types)
| accepted_line_close types :
    accepted_types types ->
    accepted_types (Z.lor PT_LINETO PT_CLOSEFIGURE :: types)
| accepted_bezier t3 types :
    t3 = PT_BEZIERTO \/ t3 = Z.lor PT_BEZIERTO PT_CLOSEFIGURE ->
    accepted_types types ->
    accepted_types (PT_BEZIERTO :: PT_BEZIERTO :: t3 :: types).

(** Where the loop of [pathdrv_PolyDraw] keeps [lastmove]: on an entry of
    the path, or on the cell the pending MOVE will be written to. *)
Definition lastmove_ok (lastmove : nat) (p : gdi_path) : Prop :=
  (lastmove < count p)%nat \/ (lastmove = count p /\ needs_new_stroke p = true).

(** The lengths of the maximal runs of a flags array that start at a MOVE
    entry; [run_lengths fl cur] continues a run that has [cur] entries so
    far. *)
Fixpoint run_lengths (fl : list BYTE) (cur : nat) : list nat :=
  match fl with
  | [] => [cur]
  | f :: fl' =>
      if f =? PT_MOVETO then cur :: run_lengths fl' 1
      else run_lengths fl' (S cur)
  end.

Definition move_runs (fl : list BYTE) : list nat :=
  match fl with
  | [] => []
  | _ :: fl' => run_lengths fl' 1
  end.

(** [path_to_region] after its first assertion: the loop, then the store for
    the last run. *)
Definition region_loop_and_last (fl : list BYTE) (i pos polygons : nat)
    (counts : list INT) : outcome (list INT * nat) :=
  match region_loop fl i pos polygons counts with
  | Done (pos, counts, polygons) =>
      if decide (pos + 1 < i + length fl)%nat
      then store_count counts polygons (Z.of_nat (i + length fl) - Z.of_nat pos)
      else Done (counts, polygons)
  | AssertFailed => AssertFailed
  | Fault => Fault
  end.

(** The flattener in the words of the specification.  A BEZIER triple is
    replaced by the polyline the external flattener returns for the cubic
    that starts at the entry before the triple, first point dropped, the
    rest tagged LINE, the last one LINE|CLOSE when the third entry of the
    triple carries CLOSE; other entries are copied. *)
Definition line_tags (n : nat) (closed : bool) : list BYTE :=
  replicate (n - 1) PT_LINETO
    ++ [if closed then Z.lor PT_LINETO PT_CLOSEFIGURE else PT_LINETO].

Definition bezier_lines (pt0 pt1 pt2 pt3 : POINT) (closed : bool) : list entry :=
  match GDI_Bezier pt0 pt1 pt2 pt3 with
  | Some (_ :: pts1) => zip pts1 (line_tags (length pts1) closed)
  | _ => []
  end.

Fixpoint flattened (prev : POINT) (es : list entry) : list entry :=
  match es with
  | [] => []
  | (q1, f1) :: es1 =>
      if base_type f1 =? PT_BEZIERTO then
        match es1 with
        | (q2, f2) :: (q3, f3) :: es3 =>
            bezier_lines prev q1 q2 q3 (has_close f3) ++ flattened q3 es3
        | _ => []
        end
      else (q1, f1) :: flattened q1 es1
  end.

(** The first entry of a path has no predecessor and is copied. *)
Definition flatten_entries (es : list entry) : list entry :=
  match es with
  | [] => []
  | (q0, f0) :: es1 => (q0, f0) :: flattened q0 es1
  end.

(** The structural invariants of the data model: MOVE and LINE entries,
    BEZIER entries in triples, and MOVE as the first tag. *)
Inductive bezier_triples : list BYTE -> Prop :=
| triples_nil : bezier_triples []
| triples_single f fl :
    base_type f = PT_MOVETO \/ base_type f = PT_LINETO ->
    bezier_triples fl -> bezier_triples (f :: fl)
| triples_bezier f1 f2 f3 fl :
    base_type f1 = PT_BEZIERTO -> base_type f2 = PT_BEZIERTO ->
    base_type f3 = PT_BEZIERTO ->
    bezier_triples fl -> bezier_triples (f1 :: f2 :: f3 :: fl).

Definition structural (P : gdi_path) : Prop :=
  parallel P /\
  match flags P with
  | [] => True
  | f0 :: fl => f0 = PT_MOVETO /\ bezier_triples fl
  end.

(** The contract of the external cubic flattener: it returns a polyline of
    at least two points. *)
Definition bezier_contract : Prop :=
  forall pt0 pt1 pt2 pt3,
    exists pts, GDI_Bezier pt0 pt1 pt2 pt3 = Some pts /\ (2 <= length pts)%nat.

(** Every maximal run of consecutive BEZIER tags, CLOSE bits ignored, has a
    length divisible by 3; [k] is the length of the run under way. *)
Fixpoint bezier_runs (fl : list BYTE) (k : nat) : bool :=
  match fl with
  | [] => (k mod 3 =? 0)%nat
  | f :: fl' =>
      if base_type f =? PT_BEZIERTO then bezier_runs fl' (S k)
      else (k mod 3 =? 0)%nat && bezier_runs fl' 0
  end.

(** What every recorded path keeps: parallel arrays, a first tag that is
    MOVE up to its CLOSE bit, and BEZIER runs of length divisible by 3. *)
Definition good_flags (fl : list BYTE) : Prop :=
  (forall f, fl !! 0%nat = Some f -> base_type f = PT_MOVETO) /\
  bezier_runs fl 0 = true.

Definition recorded (p : gdi_path) : Prop := parallel p /\ good_flags (flags p).


(** The corners of a rectangle in the words of the specification: both
    corners mapped to device coordinates, ordered top-left / bottom-right,
    the bottom-right one pulled in by one in COMPATIBLE mode. *)
Definition exclusive_edge : Z :=
  match GetGraphicsMode with GM_COMPATIBLE => 1 | GM_ADVANCED => 0 end.
Definition rect_left (x1 y1 x2 y2 : INT) : INT :=
  Z.min (x (LPtoDP (mkPOINT x1 y1))) (x (LPtoDP (mkPOINT x2 y2))).
Definition rect_top (x1 y1 x2 y2 : INT) : INT :=
  Z.min (y (LPtoDP (mkPOINT x1 y1))) (y (LPtoDP (mkPOINT x2 y2))).
Definition rect_right (x1 y1 x2 y2 : INT) : INT :=
  Z.max (x (LPtoDP (mkPOINT x1 y1))) (x (LPtoDP (mkPOINT x2 y2))) - exclusive_edge.
Definition rect_bottom (x1 y1 x2 y2 : INT) : INT :=
  Z.max (y (LPtoDP (mkPOINT x1 y1))) (y (LPtoDP (mkPOINT x2 y2))) - exclusive_edge.

End Specification.

(** * Recorder calls and sample hosts *)

(** The calls an application makes between [BeginPath] and [EndPath], as
    the path driver receives them. *)
Inductive call : Type :=
| MoveTo (x0 y0 : INT)
| LineTo (x0 y0 : INT)
| PolylineTo (pts : list POINT)
| Polyline (pts : list POINT)
| Polygon (pts : list POINT)
| PolyBezier (pts : list POINT)
| PolyBezierTo (pts : list POINT)
| PolyPolygon (pts : list POINT) (counts : list INT)
| PolyPolyline (pts : list POINT) (counts : list INT)
| PolyDraw (pts : list POINT) (types : list BYTE)
| Rectangle (x1 y1 x2 y2 : INT)
| CloseFigure.

(** The calls the gdi32 entry points let through and whose arrays are as
    long as their counts say. *)
Definition legal (c : call) : Prop :=
  match c with
  | PolyBezier pts => (length pts mod 3 = 1)%nat
  | PolyBezierTo pts => (length pts mod 3 = 0)%nat
  | PolyPolygon pts counts | PolyPolyline pts counts =>
      Z.of_nat (length pts) = foldr Z.add 0 counts /\ foldr Z.add 0 counts < 2 ^ 32
  | PolyDraw pts types => length pts = length types
  | _ => True
  end.

Section Calls.
Context `{Host}.

Definition run_call (c : call) : M bool :=
  match c with
  | MoveTo x0 y0 => pathdrv_MoveTo x0 y0
  | LineTo x0 y0 => pathdrv_LineTo x0 y0
  | PolylineTo pts => pathdrv_PolylineTo pts (length pts)
  | Polyline pts => pathdrv_Polyline pts (length pts)
  | Polygon pts => pathdrv_Polygon pts (length pts)
  | PolyBezier pts => pathdrv_PolyBezier pts (length pts)
  | PolyBezierTo pts => pathdrv_PolyBezierTo pts (length pts)
  | PolyPolygon pts counts => pathdrv_PolyPolygon pts counts
  | PolyPolyline pts counts => pathdrv_PolyPolyline pts counts
  | PolyDraw pts types => pathdrv_PolyDraw pts types
  | Rectangle x1 y1 x2 y2 => pathdrv_Rectangle x1 y1 x2 y2
  | CloseFigure => pathdrv_CloseFigure
  end.

(** A sequence of calls; the application gets each result and goes on. *)
Fixpoint run_calls (cs : list call) : M unit :=
  match cs with
  | [] => ret tt
  | c :: cs' => run_call c ;; run_calls cs'
  end.

(** The path [nulldrv_BeginPath] installs, the cursor at [(CursPosX,
    CursPosY)]. *)
Definition begin_path (CursPosX CursPosY : INT) : option gdi_path :=
  match alloc_gdi_path 0 with
  | None => None
  | Some path => Some (set_pos (LPtoDP (mkPOINT CursPosX CursPosY)) path)
  end.

End Calls.

(** A host with the identity mapping, a heap that grants every block, a
    cubic flattener that answers with the chord, and a stand-in for the
    floating-point geometry of the widener. *)
Definition plain_host : Host := {|
  HeapAlloc_ok := fun _ => true;
  sizeof_gdi_path := 40;
  LPtoDP := fun q => q;
  DPtoLP := fun pts => Some pts;
  GetGraphicsMode := GM_ADVANCED;
  GetArcDirection := AD_COUNTERCLOCKWISE;
  GetPolyFillMode := 1;
  GDI_Bezier := fun pt0 _ _ pt3 => Some [pt0; pt3];
  CreatePolyPolygonRgn := fun _ _ polygons _ => 1 + Z.of_nat polygons;
  sizeof_pointer := 8;
  widen_geometry := fun pts _ _ _ _ _ => (pts, pts)
|}.

(** The same host under a world transform that cannot be inverted. *)
Definition singular_host : Host := {|
  HeapAlloc_ok := fun _ => true;
  sizeof_gdi_path := 40;
  LPtoDP := fun _ => mkPOINT 0 0;
  DPtoLP := fun _ => None;
  GetGraphicsMode := GM_ADVANCED;
  GetArcDirection := AD_COUNTERCLOCKWISE;
  GetPolyFillMode := 1;
  GDI_Bezier := fun pt0 _ _ pt3 => Some [pt0; pt3];
  CreatePolyPolygonRgn := fun _ _ polygons _ => 1 + Z.of_nat polygons;
  sizeof_pointer := 8;
  widen_geometry := fun pts _ _ _ _ _ => (pts, pts)
|}.

(** A freshly begun path, and the triangle of the specification's first
    scenario. *)
Definition fresh_path : gdi_path := mk_gdi_path [] [] 16 true (mkPOINT 0 0).

Definition triangle : gdi_path :=
  mk_gdi_path [mkPOINT 0 0; mkPOINT 10 0; mkPOINT 5 10]
              [PT_MOVETO; PT_LINETO; Z.lor PT_LINETO PT_CLOSEFIGURE]
              16 false (mkPOINT 5 10).

(** One closed cubic. *)
Definition closed_cubic : gdi_path :=
  mk_gdi_path [mkPOINT 0 0; mkPOINT 1 1; mkPOINT 2 2; mkPOINT 3 3]
              [PT_MOVETO; PT_BEZIERTO; PT_BEZIERTO; Z.lor PT_BEZIERTO PT_CLOSEFIGURE]
              16 false (mkPOINT 3 3).

(** A stock pen made by [CreatePen (PS_SOLID, 0, ...)]: a [LOGPEN] whose
    style word has no type bits, and a cosmetic extended pen. *)
Definition solid_pen : pen_object :=
  mk_pen_object 16 OBJ_PEN (LOGPEN_data 0 (mkPOINT 0 0)).
Definition cosmetic_extpen : pen_object :=
  mk_pen_object 28 OBJ_EXTPEN (EXTLOGPEN_data PS_COSMETIC 1).

(** The pen type as [PATH_WidenPath] computes it. *)
Definition pen_type (pen : pen_object) : Z :=
  Z.land PS_TYPE_MASK (elpPenStyle (GetObjectW_data pen)).
(** * Copies and the flat path of the DIB driver *)

Section Copies.
Context `{Host}.

(** [copy_gdi_path]: the copy has room for exactly [count] entries; [None]
    is the NULL result, which comes with ERROR_NOT_ENOUGH_MEMORY. *)
Definition copy_gdi_path (src_path : gdi_path) : outcome (option gdi_path) :=
  if negb (HeapAlloc_ok sizeof_gdi_path) then Done None
  else
    let cnt := count src_path in
    if negb (HeapAlloc_ok (cnt * sizeof_POINT)) || negb (HeapAlloc_ok (cnt * sizeof_BYTE))
    then Done None
    else if decide (cnt <= length (points src_path))%nat
    then Done (Some (mk_gdi_path (take cnt (points src_path)) (flags src_path) cnt
                       (newStroke src_path) (pos src_path)))
    else Fault.

(** retrieve a flattened path in device coordinates, and optionally its
    region; the DC path is deleted.  The second component is what the call
    stores through [points], [flags] and [rgn]. *)
Definition get_gdi_flat_path (dc : DC) (rgn : bool)
    : outcome (reply INT * option (list POINT * list BYTE * option HRGN)) :=
  match dc_path dc with
  | None => Done (mk_reply (-1) (Some ERROR_CAN_NOT_COMPLETE) dc, None)
  | Some pPath =>
      let dc' := mk_DC None (dc_hPen dc) in
      match PATH_FlattenPath pPath with
      | Done (None, err) => Done (mk_reply (-1) err dc', None)
      | Done (Some path, err) =>
          if rgn then
            match path_to_region path GetPolyFillMode with
            | Done hrgn =>
                Done (mk_reply (Z.of_nat (count path)) err dc',
                      Some (points path, flags path, Some hrgn))
            | AssertFailed => AssertFailed
            | Fault => Fault
            end
          else Done (mk_reply (Z.of_nat (count path)) err dc',
                     Some (points path, flags path, None))
      | AssertFailed => AssertFailed
      | Fault => Fault
      end
  end.

End Copies.

(** * Device contexts: the life of a path *)

(** [struct path_physdev], the device of the recording driver.
    [pathdrv_CreateDC] leaves its [path] unset; the caller stores it. *)
Record path_physdev : Type := mk_path_physdev { physdev_path : option gdi_path }.

(** Modelled from the spec: the device context holds a stack of drawing
    drivers; [BeginPath] pushes the recording driver, every drawing call
    between [BeginPath] and [EndPath] is intercepted by it, [EndPath] pops it
    and [AbortPath] pops and discards ([push_dc_driver], [pop_dc_driver],
    [find_dc_driver] and [GET_DC_PHYSDEV] of gdi_private.h, which is not
    among the sources).  [physDev] keeps the recording drivers on the stack,
    top first; the driver below them is the null driver, and the entries the
    table [path_driver] leaves NULL go to it. *)
Record device_context : Type := mk_context {
  ctx_dc : DC;                      (* dc->path and dc->hPen *)
  path_open : bool;
  physDev : list path_physdev;
  CursPosX : INT;
  CursPosY : INT
}.

Definition ctx_path (c : device_context) : option gdi_path := dc_path (ctx_dc c).

Definition set_ctx_dc (dc : DC) (c : device_context) : device_context :=
  mk_context dc (path_open c) (physDev c) (CursPosX c) (CursPosY c).
Definition set_ctx_path (path : option gdi_path) (c : device_context) : device_context :=
  set_ctx_dc (mk_DC path (dc_hPen (ctx_dc c))) c.
Definition set_path_open (b : bool) (c : device_context) : device_context :=
  mk_context (ctx_dc c) b (physDev c) (CursPosX c) (CursPosY c).
Definition set_physDev (l : list path_physdev) (c : device_context) : device_context :=
  mk_context (ctx_dc c) (path_open c) l (CursPosX c) (CursPosY c).

Definition find_dc_driver (c : device_context) : option path_physdev := head (physDev c).
Definition pop_dc_driver (c : device_context) : option path_physdev * device_context :=
  match physDev c with
  | [] => (None, c)
  | d :: ds => (Some d, set_physDev ds c)
  end.
Definition push_dc_driver (d : path_physdev) (c : device_context) : device_context :=
  set_physDev (d :: physDev c) c.

(** The recording in progress, if there is one. *)
Definition recording (c : device_context) : option gdi_path :=
  match find_dc_driver c with
  | Some d => physdev_path d
  | None => None
  end.

(** What an entry point leaves behind: its result, the code it passed to
    [SetLastError], if it did, and the device context. *)
Record answer (A : Type) : Type := mk_answer {
  returned : A;
  reported : option Z;
  context_after : device_context
}.
Arguments mk_answer {A} _ _ _.
Arguments returned {A} _.
Arguments reported {A} _.
Arguments context_after {A} _.

(** The result of an entry point that works on [dc->path] only. *)
Definition lift_reply {A} (c : device_context) (r : reply A) : answer A :=
  mk_answer (value r) (last_error r) (set_ctx_dc (dc_after r) c).

(** The requests an application sends to one device context. *)
Inductive request : Type :=
| Req_BeginPath
| Req_EndPath
| Req_AbortPath
| Req_CloseFigure
| Req_Draw (cl : call)
| Req_FillPath
| Req_StrokePath
| Req_StrokeAndFillPath
| Req_FlattenPath.

Section Lifecycle.
Context `{Host}.

(** Modelled from the spec: [struct path_physdev] is a [struct gdi_physdev]
    (three pointers, gdi_driver.h, not among the sources) and the path
    pointer. *)
Definition sizeof_path_physdev : nat := 4 * sizeof_pointer.

Definition pathdrv_CreateDC (c : device_context) : bool * device_context :=
  if negb (HeapAlloc_ok sizeof_path_physdev) then (false, c)
  else (true, push_dc_driver (mk_path_physdev None) c).

(** [physdev = get_path_physdev (find_dc_driver (dc, &path_driver));
    physdev->path = path]. *)
Definition store_physdev_path (path : gdi_path) (c : device_context) : outcome device_context :=
  match physDev c with
  | [] => Fault
  | _ :: ds => Done (set_physDev (mk_path_physdev (Some path) :: ds) c)
  end.

(** A function of the recording driver, run on [physdev->path]. *)
Definition in_physdev {A} (m : M A) (c : device_context) : outcome (A * device_context) :=
  match physDev c with
  | [] => Fault
  | d :: ds =>
      match physdev_path d with
      | None => Fault
      | Some path =>
          match m path with
          | Done (a, path) => Done (a, set_physDev (mk_path_physdev (Some path) :: ds) c)
          | AssertFailed => AssertFailed
          | Fault => Fault
          end
      end
  end.

Definition pathdrv_BeginPath (c : device_context) : outcome (answer bool) :=
  (* path already open, nothing to do *)
  Done (mk_answer true None c).

Definition pathdrv_AbortPath (c : device_context) : outcome (answer bool) :=
  match pop_dc_driver c with
  | (None, _) => Fault
  | (Some _, c) => Done (mk_answer true None c)
  end.

Definition pathdrv_EndPath (c : device_context) : outcome (answer bool) :=
  match find_dc_driver c with
  | None => Fault
  | Some physdev =>
      match physdev_path physdev with
      | None => Fault
      | Some path =>
          let c := set_ctx_path (Some path) c in
          Done (mk_answer true None (snd (pop_dc_driver c)))
      end
  end.

Definition nulldrv_BeginPath (c : device_context) : outcome (answer bool) :=
  match alloc_gdi_path 0 with
  | None => Done (mk_answer false (Some ERROR_NOT_ENOUGH_MEMORY) c)
  | Some path =>
      match pathdrv_CreateDC c with
      | (false, _) => Done (mk_answer false None c)
      | (true, c) =>
          let path := set_pos (LPtoDP (mkPOINT (CursPosX c) (CursPosY c))) path in
          match store_physdev_path path c with
          | Done c => Done (mk_answer true None (set_ctx_path None c))
          | AssertFailed => AssertFailed
          | Fault => Fault
          end
      end
  end.

Definition nulldrv_EndPath (c : device_context) : outcome (answer bool) :=
  Done (mk_answer false (Some ERROR_CAN_NOT_COMPLETE) c).

Definition nulldrv_AbortPath (c : device_context) : outcome (answer bool) :=
  Done (mk_answer true None (set_ctx_path None c)).

Definition nulldrv_CloseFigure (c : device_context) : outcome (answer bool) :=
  Done (mk_answer false (Some ERROR_CAN_NOT_COMPLETE) c).

(** The entry points of gdi32: [GET_DC_PHYSDEV] picks the topmost driver
    that implements the function. *)
Definition BeginPath (c : device_context) : outcome (answer bool) :=
  match find_dc_driver c with
  | Some _ => pathdrv_BeginPath c
  | None => nulldrv_BeginPath c
  end.

Definition EndPath (c : device_context) : outcome (answer bool) :=
  match find_dc_driver c with
  | Some _ => pathdrv_EndPath c
  | None => nulldrv_EndPath c
  end.

Definition AbortPath (c : device_context) : outcome (answer bool) :=
  match find_dc_driver c with
  | Some _ => pathdrv_AbortPath c
  | None => nulldrv_AbortPath c
  end.

Definition CloseFigure_ (c : device_context) : outcome (answer bool) :=
  match find_dc_driver c with
  | Some _ =>
      match in_physdev pathdrv_CloseFigure c with
      | Done (ret, c) => Done (mk_answer ret None c)
      | AssertFailed => AssertFailed
      | Fault => Fault
      end
  | None => nulldrv_CloseFigure c
  end.

(** [GetPath (dev->hdc, NULL, NULL, 0)]: the length of the committed path,
    or -1. *)
Definition GetPath_count (c : device_context) : outcome (answer INT) :=
  match GetPath (ctx_dc c) [] [] 0 with
  | Done (r, _, _) => Done (lift_reply c r)
  | AssertFailed => AssertFailed
  | Fault => Fault
  end.

Definition nulldrv_FillPath (c : device_context) : outcome (answer bool) :=
  match GetPath_count c with
  | Done r =>
      if returned r =? -1 then Done (mk_answer false (reported r) (context_after r))
      else
        match AbortPath (context_after r) with
        | Done r' => Done (mk_answer true (reported r') (context_after r'))
        | AssertFailed => AssertFailed
        | Fault => Fault
        end
  | AssertFailed => AssertFailed
  | Fault => Fault
  end.

Definition nulldrv_StrokeAndFillPath (c : device_context) : outcome (answer bool) :=
  match GetPath_count c with
  | Done r =>
      if returned r =? -1 then Done (mk_answer false (reported r) (context_after r))
      else
        match AbortPath (context_after r) with
        | Done r' => Done (mk_answer true (reported r') (context_after r'))
        | AssertFailed => AssertFailed
        | Fault => Fault
        end
  | AssertFailed => AssertFailed
  | Fault => Fault
  end.

Definition nulldrv_StrokePath (c : device_context) : outcome (answer bool) :=
  match GetPath_count c with
  | Done r =>
      if returned r =? -1 then Done (mk_answer false (reported r) (context_after r))
      else
        match AbortPath (context_after r) with
        | Done r' => Done (mk_answer true (reported r') (context_after r'))
        | AssertFailed => AssertFailed
        | Fault => Fault
        end
  | AssertFailed => AssertFailed
  | Fault => Fault
  end.

(** [pFillPath], [pStrokePath], [pStrokeAndFillPath] and [pFlattenPath] are
    NULL in [path_driver]: these requests reach the null driver. *)
Definition FillPath (c : device_context) : outcome (answer bool) := nulldrv_FillPath c.
Definition StrokeAndFillPath (c : device_context) : outcome (answer bool) :=
  nulldrv_StrokeAndFillPath c.
Definition StrokePath (c : device_context) : outcome (answer bool) := nulldrv_StrokePath c.

Definition FlattenPath (c : device_context) : outcome (answer bool) :=
  match nulldrv_FlattenPath (ctx_dc c) with
  | Done r => Done (lift_reply c r)
  | AssertFailed => AssertFailed
  | Fault => Fault
  end.

(** [nulldrv_SelectClipPath]; [ExtSelectClipRgn] belongs to the clipping
    code and [ERROR] is 0. *)
Definition nulldrv_SelectClipPath (ExtSelectClipRgn : HRGN -> INT -> INT)
    (c : device_context) (mode : INT) : outcome (answer bool) :=
  match PathToRegion (ctx_dc c) with
  | Done r =>
      let hrgn := value r in
      let ret := if hrgn =? 0 then false else negb (ExtSelectClipRgn hrgn mode =? 0) in
      Done (mk_answer ret (last_error r) (set_ctx_dc (dc_after r) c))
  | AssertFailed => AssertFailed
  | Fault => Fault
  end.

(** A drawing call: recorded when the recording driver is on the stack;
    [None] when it goes to the drivers that render. *)
Definition draw (cl : call) (c : device_context) : outcome (option bool * device_context) :=
  match find_dc_driver c with
  | Some _ =>
      match in_physdev (run_call cl) c with
      | Done (ret, c) => Done (Some ret, c)
      | AssertFailed => AssertFailed
      | Fault => Fault
      end
  | None => Done (None, c)
  end.

(** [PATH_SavePath]: the answer carries [dst]; [src] is only read. *)
Definition PATH_SavePath (dst src : device_context) : outcome (answer bool) :=
  match ctx_path src with
  | Some path =>
      match copy_gdi_path path with
      | Done (Some copy) => Done (mk_answer true None (set_ctx_path (Some copy) dst))
      | Done None =>
          Done (mk_answer false (Some ERROR_NOT_ENOUGH_MEMORY) (set_ctx_path None dst))
      | AssertFailed => AssertFailed
      | Fault => Fault
      end
  | None =>
      match find_dc_driver src with
      | Some physdev =>
          match physdev_path physdev with
          | None => Fault
          | Some path =>
              match copy_gdi_path path with
              | Done (Some copy) =>
                  Done (mk_answer true None
                          (set_path_open true (set_ctx_path (Some copy) dst)))
              | Done None =>
                  Done (mk_answer false (Some ERROR_NOT_ENOUGH_MEMORY)
                          (set_ctx_path None dst))
              | AssertFailed => AssertFailed
              | Fault => Fault
              end
          end
      | None => Done (mk_answer true None (set_ctx_path None dst))
      end
  end.

(** [PATH_RestorePath]: the result, [dst] and [src] after the call. *)
Definition PATH_RestorePath (dst src : device_context) : outcome (bool * device_context * device_context) :=
  let dst := snd (pop_dc_driver dst) in
  match (match ctx_path src with
         | Some path =>
             if path_open src then
               match pathdrv_CreateDC dst with
               | (false, dst) => Done (false, dst, src)
               | (true, dst) =>
                   match store_physdev_path path dst with
                   | Done dst =>
                       Done (true, dst, set_ctx_path None (set_path_open false src))
                   | AssertFailed => AssertFailed
                   | Fault => Fault
                   end
               end
             else Done (true, dst, src)
         | None => Done (true, dst, src)
         end) with
  | Done (false, dst, src) => Done (false, dst, src)
  | Done (true, dst, src) =>
      Done (true, set_ctx_path (ctx_path src) dst, set_ctx_path None src)
  | AssertFailed => AssertFailed
  | Fault => Fault
  end.

(** One request, and a sequence of them; the application looks at each
    result and goes on. *)
Definition serve (r : request) (c : device_context) : outcome device_context :=
  let after (o : outcome (answer bool)) : outcome device_context :=
    match o with
    | Done a => Done (context_after a)
    | AssertFailed => AssertFailed
    | Fault => Fault
    end in
  match r with
  | Req_BeginPath => after (BeginPath c)
  | Req_EndPath => after (EndPath c)
  | Req_AbortPath => after (AbortPath c)
  | Req_CloseFigure => after (CloseFigure_ c)
  | Req_Draw cl =>
      match draw cl c with
      | Done (_, c) => Done c
      | AssertFailed => AssertFailed
      | Fault => Fault
      end
  | Req_FillPath => after (FillPath c)
  | Req_StrokePath => after (StrokePath c)
  | Req_StrokeAndFillPath => after (StrokeAndFillPath c)
  | Req_FlattenPath => after (FlattenPath c)
  end.

Fixpoint serve_all (rs : list request) (c : device_context) : outcome device_context :=
  match rs with
  | [] => Done c
  | r :: rs' =>
      match serve r c with
      | Done c => serve_all rs' c
      | AssertFailed => AssertFailed
      | Fault => Fault
      end
  end.

End Lifecycle.


(** A device context holds at most one recording and no committed path
    beside it, and its paths keep the structure of recorded paths. *)
Definition context_ok (c : device_context) : Prop :=
  match physDev c with
  | [] => match ctx_path c with Some path => recorded path | None => True end
  | [d] => ctx_path c = None /\ exists path, physdev_path d = Some path /\ recorded path
  | _ => False
  end.

(** Two paths with the same entries, stroke latch and current position;
    their capacities may differ. *)
Definition same_contents (p q : gdi_path) : Prop :=
  points p = points q /\ flags p = flags q /\
  newStroke p = newStroke q /\ pos p = pos q.

Definition same_paths (a b : option gdi_path) : Prop :=
  match a, b with
  | Some p, Some q => same_contents p q
  | None, None => True
  | _, _ => False
  end.

(** * The remaining shapes *)

(** The conversion of an unsigned 32-bit value to [INT]. *)
Definition to_INT (z : Z) : INT := (z + 2 ^ 31) mod 2 ^ 32 - 2 ^ 31.

Section Shapes.
Context `{Host} `{FP : FloatingPoint}.

Definition pathdrv_RoundRect (x1 y1 x2 y2 ell_width ell_height : INT) : M bool :=
  let '(c0, c1) := PATH_CheckCorners x1 y1 x2 y2 in
  (* Add points to the roundrect path *)
  let e0 := mkFLOAT_POINT (dbl (x c1 - ell_width)) (dbl (y c0)) in
  let e1 := mkFLOAT_POINT (dbl (x c1)) (dbl (y c0 + ell_height)) in
  ok <- PATH_DoArcPart (e0, e1) (dbl 0) (- M_PI_2)%D PT_MOVETO ;;
  if negb ok then ret false
  else
    ok <- PATH_AddEntry (mkPOINT (x c0 + ell_width ÷ 2) (y c0)) PT_LINETO ;;
    if negb ok then ret false
    else
      let e0 := mkFLOAT_POINT (dbl (x c0)) (fy e0) in
      let e1 := mkFLOAT_POINT (dbl (x c0 + ell_width)) (fy e1) in
      ok <- PATH_DoArcPart (e0, e1) (- M_PI_2)%D (- M_PI)%D 0 ;;
      if negb ok then ret false
      else
        ok <- PATH_AddEntry (mkPOINT (x c0) (y c1 - ell_height ÷ 2)) PT_LINETO ;;
        if negb ok then ret false
        else
          let e0 := mkFLOAT_POINT (fx e0) (dbl (y c1 - ell_height)) in
          let e1 := mkFLOAT_POINT (fx e1) (dbl (y c1)) in
          ok <- PATH_DoArcPart (e0, e1) M_PI M_PI_2 0 ;;
          if negb ok then ret false
          else
            ok <- PATH_AddEntry (mkPOINT (x c1 - ell_width ÷ 2) (y c1)) PT_LINETO ;;
            if negb ok then ret false
            else
              let e0 := mkFLOAT_POINT (dbl (x c1 - ell_width)) (fy e0) in
              let e1 := mkFLOAT_POINT (dbl (x c1)) (fy e1) in
              ok <- PATH_DoArcPart (e0, e1) M_PI_2 (dbl 0) 0 ;;
              if negb ok then ret false
              else
                (* Close the roundrect figure *)
                close_figure ;;
                ret true.

(** [radius] is a DWORD: the corners of the box are computed modulo 2^32. *)
Definition pathdrv_AngleArc (fuel : nat) (x0 y0 : INT) (radius : Z)
    (eStartAngle eSweepAngle : FLOAT) : M (option bool) :=
  let '(x1, y1, x2, y2) := AngleArc_ends x0 y0 radius eStartAngle eSweepAngle in
  PATH_Arc fuel (to_INT (x0 - radius)) (to_INT (y0 - radius))
           (to_INT (x0 + radius)) (to_INT (y0 + radius)) x1 y1 x2 y2
           (if sweep_nonnegative eSweepAngle then AD_COUNTERCLOCKWISE else AD_CLOCKWISE)
           (-1).

(** What [PATH_DoArcPart] asserts of the angles it is given. *)
Definition quarter_at_most (span : double * double) : bool :=
  (fabs (span.2 - span.1) <= M_PI_2)%D.

(** The angles the quadrant loop of [PATH_Arc] hands to [PATH_DoArcPart],
    iteration by iteration; [None] when the loop has not ended after [fuel]
    iterations. *)
Fixpoint arc_spans (fuel : nat) (angleStart angleEnd : double) (direction : arc_direction)
    (start : bool) (angleEndQuadrant : double) : option (list (double * double)) :=
  match fuel with
  | O => None
  | S fuel' =>
      let angleStartQuadrant := if start then angleStart else angleEndQuadrant in
      let angleEndQuadrant :=
        if start then
          match direction with
          | AD_CLOCKWISE => ((floor (angleStart / M_PI_2) + dbl 1) * M_PI_2)%D
          | AD_COUNTERCLOCKWISE => ((ceil (angleStart / M_PI_2) - dbl 1) * M_PI_2)%D
          end
        else
          match direction with
          | AD_CLOCKWISE => (angleEndQuadrant + M_PI_2)%D
          | AD_COUNTERCLOCKWISE => (angleEndQuadrant - M_PI_2)%D
          end in
      let end_ :=
        match direction with
        | AD_CLOCKWISE => (angleEnd < angleEndQuadrant)%D
        | AD_COUNTERCLOCKWISE => (angleEnd > angleEndQuadrant)%D
        end in
      let angleEndQuadrant := if end_ then angleEnd else angleEndQuadrant in
      if end_ then Some [(angleStartQuadrant, angleEndQuadrant)]
      else
        match arc_spans fuel' angleStart angleEnd direction false angleEndQuadrant with
        | Some spans => Some ((angleStartQuadrant, angleEndQuadrant) :: spans)
        | None => None
        end
  end.

(** The floating-point part of an arc goes through: no assertion of
    [PATH_Arc] or [PATH_DoArcPart] fails, and the quadrant loop ends within
    [fuel] iterations, after the pieces [spans]. *)
Definition arc_goes_through (fuel : nat) (x1 y1 x2 y2 xStart yStart xEnd yEnd : INT)
    (direction : arc_direction) (spans : list (double * double)) : Prop :=
  let corners := arc_corners x1 y1 x2 y2 in
  let angleStart := arc_angle corners xStart yStart in
  let '(angleEnd, on_the_right_side) :=
    arc_end_angle direction angleStart (arc_angle corners xEnd yEnd) in
  on_the_right_side = true /\
  arc_spans fuel angleStart angleEnd direction true (dbl 0) = Some spans /\
  forallb quarter_at_most spans = true.

(** The box [PATH_Arc] draws in: [corners] with the adjustment of
    GM_COMPATIBLE. *)
Definition arc_box (x1 y1 x2 y2 : INT) : FLOAT_POINT * FLOAT_POINT :=
  let corners := arc_corners x1 y1 x2 y2 in
  if decide (GetGraphicsMode = GM_COMPATIBLE)
  then (corners.1, mkFLOAT_POINT (fx corners.2 - dbl 1)%D (fy corners.2 - dbl 1)%D)
  else corners.

(** [centre] of a pie. *)
Definition arc_centre (x1 y1 x2 y2 : INT) : POINT :=
  let corners := arc_box x1 y1 x2 y2 in
  mkPOINT (int_of_dbl ((fx corners.1 + fx corners.2) / dbl 2)%D)
          (int_of_dbl ((fy corners.1 + fy corners.2) / dbl 2)%D).

(** The end point of an arc: the last control point of its last piece. *)
Definition arc_end (x1 y1 x2 y2 : INT) (spans : list (double * double)) : option POINT :=
  match last spans with
  | Some span => Some (DoArcPart_points (arc_box x1 y1 x2 y2) span.1 span.2).2
  | None => None
  end.

End Shapes.

(** The tags of a round rectangle. *)
Definition RoundRect_tags : list BYTE :=
  [PT_MOVETO; PT_BEZIERTO; PT_BEZIERTO; PT_BEZIERTO; PT_LINETO;
   PT_BEZIERTO; PT_BEZIERTO; PT_BEZIERTO; PT_LINETO;
   PT_BEZIERTO; PT_BEZIERTO; PT_BEZIERTO; PT_LINETO;
   PT_BEZIERTO; PT_BEZIERTO; Z.lor PT_BEZIERTO PT_CLOSEFIGURE].

(** * Glyph outlines *)

(** Modelled from the spec: a fixed-point number is a 16-bit fraction and a
    signed 16-bit integer part ([FIXED] of wingdi.h, which is not among the
    sources). *)
Record FIXED : Type := mk_FIXED { fract : Z; fixed_value : Z }.
Record POINTFX : Type := mk_POINTFX { pfx_x : FIXED; pfx_y : FIXED }.

(** Modelled from the spec: a native outline is a sequence of polygon
    records, each a header with a type and a fixed-point start point,
    followed by curve records with a type and a point array
    ([TTPOLYGONHEADER] and [TTPOLYCURVE] of wingdi.h, which is not among the
    sources).  The records lie one after the other in the buffer; [cb] is
    the size of a header with its curves and [cpfx] the length of [apfx]. *)
Record TTPOLYCURVE : Type := mk_TTPOLYCURVE { wType : Z; apfx : list POINTFX }.
Record TTPOLYGONHEADER : Type := mk_TTPOLYGONHEADER {
  dwType : Z;
  pfxStart : POINTFX;
  curves : list TTPOLYCURVE
}.

Definition TT_POLYGON_TYPE : Z := 24.
Definition TT_PRIM_LINE : Z := 1.
Definition TT_PRIM_QSPLINE : Z := 2.
Definition TT_PRIM_CSPLINE : Z := 3.

Definition int_from_fixed (f : FIXED) : INT :=
  if 0x8000 <=? fract f then fixed_value f + 1 else fixed_value f.

(** [pt.x = x + int_from_fixed (p.x); pt.y = y - int_from_fixed (p.y)], the
    sum and the difference taken in the 32 bits of an [INT]. *)
Definition outline_point (x0 y0 : INT) (p : POINTFX) : POINT :=
  mkPOINT (to_INT (x0 + int_from_fixed (pfx_x p)))
          (to_INT (y0 - int_from_fixed (pfx_y p))).

(** [*(POINTFX * )((char * )curve - sizeof(POINTFX))] for the record that
    follows [curve], given the same for [curve]: the last point of [curve],
    or, when [curve] has no point, the four bytes in front of it followed by
    its two words, read as a [POINTFX]. *)
Definition POINTFX_before_next (before : POINTFX) (curve : TTPOLYCURVE) : POINTFX :=
  match last (apfx curve) with
  | Some p => p
  | None => mk_POINTFX (pfx_y before) (mk_FIXED (wType curve) 0)
  end.

Section Outlines.
Context `{Host}.

(** The [while (n > 2)] loop of [PATH_BezierTo]; the result is [i] and
    [pt[2]] after the loop.  The sums [lppt[i+2].x + lppt[i+1].x] and
    [lppt[i+2].y + lppt[i+1].y] are sums of two [INT]: they wrap around at
    32 bits before they are halved. *)
Fixpoint BezierTo_loop (lppt : list POINT) (n i : nat) (pt2 : POINT) : M (nat * POINT) :=
  match n with
  | O => ret (i, pt2)
  | S n' =>
      if decide (2 < n)%nat then
        q1 <- load lppt (i + 1) ;;
        q2 <- load lppt (i + 2) ;;
        let mid := mkPOINT (to_INT (x q2 + x q1) ÷ 2) (to_INT (y q2 + y q1) ÷ 2) in
        add_points [pt2; q1; mid] 3 PT_BEZIERTO ;;
        BezierTo_loop lppt n' (i + 1) mid
      else ret (i, pt2)
  end.

(** internally used by PATH_add_outline *)
Definition PATH_BezierTo (lppt : list POINT) (n : nat) : M unit :=
  if decide (n < 2)%nat then ret tt
  else if decide (n = 2)%nat then
    q <- load lppt 1 ;;
    PATH_AddEntry q PT_LINETO ;;
    ret tt
  else if decide (n = 3)%nat then
    add_points lppt 3 PT_BEZIERTO ;;
    ret tt
  else
    q0 <- load lppt 0 ;;
    r <- BezierTo_loop lppt (n - 1) 0 q0 ;;
    q1 <- load lppt (r.1 + 1) ;;
    q2 <- load lppt (r.1 + 2) ;;
    add_points [r.2; q1; q2] 3 PT_BEZIERTO ;;
    ret tt.

(** The [TT_PRIM_LINE] loop of [PATH_add_outline]. *)
Fixpoint outline_lines (x0 y0 : INT) (ps : list POINTFX) : M unit :=
  match ps with
  | [] => ret tt
  | p :: ps' =>
      PATH_AddEntry (outline_point x0 y0 p) PT_LINETO ;;
      outline_lines x0 y0 ps'
  end.

(** The loop of [PATH_add_outline] over the curves of one polygon; [before]
    is the [POINTFX] in front of the curve record. *)
Fixpoint outline_curves (x0 y0 : INT) (before : POINTFX) (cs : list TTPOLYCURVE) : M bool :=
  match cs with
  | [] => ret true
  | curve :: cs' =>
      if wType curve =? TT_PRIM_LINE then
        outline_lines x0 y0 (apfx curve) ;;
        outline_curves x0 y0 (POINTFX_before_next before curve) cs'
      else if (wType curve =? TT_PRIM_QSPLINE) || (wType curve =? TT_PRIM_CSPLINE) then
        if negb (HeapAlloc_ok ((length (apfx curve) + 1) * sizeof_POINT)) then ret false
        else
          let pts := outline_point x0 y0 before :: map (outline_point x0 y0) (apfx curve) in
          PATH_BezierTo pts (length (apfx curve) + 1) ;;
          outline_curves x0 y0 (POINTFX_before_next before curve) cs'
      else ret false
  end.

(** The loop of [PATH_add_outline] over the polygons. *)
Fixpoint outline_polygons (x0 y0 : INT) (headers : list TTPOLYGONHEADER) : M bool :=
  match headers with
  | [] => ret true
  | header :: headers' =>
      if negb (dwType header =? TT_POLYGON_TYPE) then ret false
      else
        PATH_AddEntry (outline_point x0 y0 (pfxStart header)) PT_MOVETO ;;
        ok <- outline_curves x0 y0 (pfxStart header) (curves header) ;;
        if negb ok then ret false
        else outline_polygons x0 y0 headers'
  end.

Definition PATH_add_outline (x0 y0 : INT) (headers : list TTPOLYGONHEADER) : M bool :=
  ok <- outline_polygons x0 y0 headers ;;
  if negb ok then ret false
  else close_figure ;; ret true.

End Outlines.

(** The middle of two points as 32-bit arithmetic gives it: each sum of
    coordinates wraps around at 32 bits, and its half is rounded toward
    zero. *)
Definition midpoint (a b : POINT) : POINT :=
  mkPOINT (to_INT (x b + x a) ÷ 2) (to_INT (y b + y a) ÷ 2).

(** Two points whose sums of coordinates are [INT] values. *)
Definition sums_fit (a b : POINT) : Prop :=
  - 2 ^ 31 <= x a + x b < 2 ^ 31 /\ - 2 ^ 31 <= y a + y b < 2 ^ 31.

(** The chain of cubic Beziers [PATH_BezierTo] makes of a quadratic spline
    of at least three points: every control point but the last is followed
    by the middle of it and the next one; [prev] is the end of the piece
    before. *)
Fixpoint spline_points (prev : POINT) (rest : list POINT) : list POINT :=
  match rest with
  | [c; e] => [prev; c; e]
  | c :: (d :: _) as rest' =>
      let mid := midpoint c d in
      prev :: c :: mid :: spline_points mid rest'
  | _ => []
  end.

(** The entries of a well-typed outline made of line curves and of spline
    curves with at least two points: MOVE at the start of each polygon, a
    LINE for each point of a line curve, the Bezier chain for a spline. *)
Definition curve_points (x0 y0 : INT) (before : POINTFX) (curve : TTPOLYCURVE)
    : list POINT :=
  if wType curve =? TT_PRIM_LINE then map (outline_point x0 y0) (apfx curve)
  else spline_points (outline_point x0 y0 before) (map (outline_point x0 y0) (apfx curve)).

Definition curve_tags (curve : TTPOLYCURVE) : list BYTE :=
  if wType curve =? TT_PRIM_LINE then replicate (length (apfx curve)) PT_LINETO
  else replicate (3 * (length (apfx curve) - 1)) PT_BEZIERTO.

Fixpoint curves_points (x0 y0 : INT) (before : POINTFX) (cs : list TTPOLYCURVE)
    : list POINT :=
  match cs with
  | [] => []
  | curve :: cs' =>
      curve_points x0 y0 before curve
        ++ curves_points x0 y0 (POINTFX_before_next before curve) cs'
  end.

Definition outline_points (x0 y0 : INT) (headers : list TTPOLYGONHEADER) : list POINT :=
  concat (map (fun h => outline_point x0 y0 (pfxStart h)
                          :: curves_points x0 y0 (pfxStart h) (curves h)) headers).

Definition outline_tags (headers : list TTPOLYGONHEADER) : list BYTE :=
  concat (map (fun h => PT_MOVETO :: concat (map curve_tags (curves h))) headers).

(** The curves of a well-typed outline: lines, and splines of at least two
    points. *)
Definition curve_ok (curve : TTPOLYCURVE) : Prop :=
  wType curve = TT_PRIM_LINE \/
  ((wType curve = TT_PRIM_QSPLINE \/ wType curve = TT_PRIM_CSPLINE) /\
   (2 <= length (apfx curve))%nat).

(** The tags with CLOSE set on the last one. *)
Definition close_last (tags : list BYTE) : list BYTE :=
  match last tags with
  | Some f => <[(length tags - 1)%nat := Z.lor f PT_CLOSEFIGURE]> tags
  | None => tags
  end.

Definition header_ok (header : TTPOLYGONHEADER) : Prop :=
  dwType header = TT_POLYGON_TYPE /\ Forall curve_ok (curves header).

(** * Invariants of the path buffer *)

(** The entries fit the arrays; and the arrays have room for [a] entries at
    least. *)
Definition within_capacity (p : gdi_path) : Prop := (count p <= allocated p)%nat.
Definition capacity_from (a : nat) (p : gdi_path) : Prop :=
  within_capacity p /\ (a <= allocated p)%nat.

(** A computation keeps a property of the path whenever it returns. *)
Definition keeps {A} (I : gdi_path -> Prop) (m : M A) : Prop :=
  forall p, I p ->
    match m p with
    | Done (_, p') => I p'
    | _ => True
    end.

(** A path without BEZIER entries whose first tag is MOVE up to the CLOSE
    bit: what the flattener leaves. *)
Definition polyline_path (q : gdi_path) : Prop :=
  parallel q /\
  Forall (fun f => base_type f <> PT_BEZIERTO) (flags q) /\
  (forall f, flags q !! 0%nat = Some f -> base_type f = PT_MOVETO).

(** Tags that are MOVE or LINE up to the CLOSE bit. *)
Definition move_or_line (f : BYTE) : Prop :=
  base_type f = PT_MOVETO \/ base_type f = PT_LINETO.

(** * Sample data *)

(** A stand-in for the floating-point part: rational numbers, exact in the
    four operations, with 355/113 for pi, the identity for the transform of
    the device context, and the angles, sines and cosines of the eight
    compass directions (0.7071 for the diagonal); [FLOAT] angles are whole
    degrees.  It is exact for the arcs whose ends lie on the axes of their
    box. *)
Module Rational.
Definition pi : QArith_base.Q := QArith_base.Qmake 355 113.
Definition of_Z (n : Z) : QArith_base.Q := QArith_base.inject_Z n.
Definition add (a b : QArith_base.Q) : QArith_base.Q := Qreduction.Qred (QArith_base.Qplus a b).
Definition sub (a b : QArith_base.Q) : QArith_base.Q := Qreduction.Qred (QArith_base.Qminus a b).
Definition mul (a b : QArith_base.Q) : QArith_base.Q := Qreduction.Qred (QArith_base.Qmult a b).
Definition div (a b : QArith_base.Q) : QArith_base.Q := Qreduction.Qred (QArith_base.Qdiv a b).
Definition le (a b : QArith_base.Q) : bool := QArith_base.Qle_bool a b.
Definition lt (a b : QArith_base.Q) : bool := negb (QArith_base.Qle_bool b a).
Definition truncate (a : QArith_base.Q) : Z := Z.quot (QArith_base.Qnum a) (Z.pos (QArith_base.Qden a)).
Definition round (a : QArith_base.Q) : Z := Qround.Qfloor (QArith_base.Qplus a (QArith_base.Qmake 1 2)).

(** The compass direction of an angle, counted in eighths of a turn. *)
Definition eighth (a : QArith_base.Q) : Z := Qround.Qfloor (QArith_base.Qdiv a (QArith_base.Qdiv pi (of_Z 4))) mod 8.
Definition diagonal : QArith_base.Q := QArith_base.Qmake 7071 10000.
Definition cosine (a : QArith_base.Q) : QArith_base.Q :=
  match eighth a with
  | 0 => of_Z 1 | 1 => diagonal | 2 => of_Z 0 | 3 => QArith_base.Qopp diagonal
  | 4 => of_Z (-1) | 5 => QArith_base.Qopp diagonal | 6 => of_Z 0 | _ => diagonal
  end.
Definition sine (a : QArith_base.Q) : QArith_base.Q :=
  match eighth a with
  | 0 => of_Z 0 | 1 => diagonal | 2 => of_Z 1 | 3 => diagonal
  | 4 => of_Z 0 | 5 => QArith_base.Qopp diagonal | 6 => of_Z (-1) | _ => QArith_base.Qopp diagonal
  end.
Definition arctan2 (b a : QArith_base.Q) : QArith_base.Q :=
  let quarter := QArith_base.Qdiv pi (of_Z 4) in
  if QArith_base.Qeq_bool b (of_Z 0) then (if lt a (of_Z 0) then pi else of_Z 0)
  else if QArith_base.Qeq_bool a (of_Z 0) then
    (if lt (of_Z 0) b then mul (of_Z 2) quarter else mul (of_Z (-2)) quarter)
  else if lt (of_Z 0) a then (if lt (of_Z 0) b then quarter else QArith_base.Qopp quarter)
  else (if lt (of_Z 0) b then mul (of_Z 3) quarter else mul (of_Z (-3)) quarter).

(** degrees to radians *)
Definition radians (degrees : Z) : QArith_base.Q := div (mul (of_Z degrees) pi) (of_Z 180).
Definition angle_arc_ends (x0 y0 radius eStartAngle eSweepAngle : Z) : Z * Z * Z * Z :=
  let on_circle (degrees : Z) :=
    (round (add (of_Z x0) (mul (cosine (radians degrees)) (of_Z radius))),
     round (sub (of_Z y0) (mul (sine (radians degrees)) (of_Z radius)))) in
  let '(xa, ya) := on_circle eStartAngle in
  let '(xb, yb) := on_circle (eStartAngle + eSweepAngle) in
  (xa, ya, xb, yb).
End Rational.

Definition plain_float : FloatingPoint.
Proof.
  refine {|
    double := QArith_base.Q;
    dbl := Rational.of_Z;
    int_of_dbl := Rational.truncate;
    d_add := Rational.add;
    d_sub := Rational.sub;
    d_mul := Rational.mul;
    d_div := Rational.div;
    d_neg := QArith_base.Qopp;
    d_lt := Rational.lt;
    d_le := Rational.le;
    dbl_0_5 := QArith_base.Qmake 1 2;
    dbl_1e_8 := QArith_base.Qmake 1 100000000;
    M_PI := Rational.pi;
    M_PI_2 := QArith_base.Qmake 355 226;
    atan2 := Rational.arctan2;
    cos := Rational.cosine;
    sin := Rational.sine;
    floor := fun a => Rational.of_Z (Qround.Qfloor a);
    ceil := fun a => Rational.of_Z (Qround.Qceiling a);
    fabs := Qabs.Qabs;
    GDI_ROUND := Rational.round;
    eM11 := Rational.of_Z 1;
    eM12 := Rational.of_Z 0;
    eM21 := Rational.of_Z 0;
    eM22 := Rational.of_Z 1;
    eDx := Rational.of_Z 0;
    eDy := Rational.of_Z 0;
    FLOAT := Z;
    AngleArc_ends := Rational.angle_arc_ends;
    sweep_nonnegative := fun a => 0 <=? a;
    quarter_turns := _
  |}.
  repeat split; reflexivity.
Defined.

(** The pieces of the quadrant loop for the upper half of the ellipse in
    the box from (0,0) to (10,8), from (10,4) to (0,4): two quarters and
    the empty piece the loop adds when the arc ends on an axis. *)
Definition half_ellipse_spans
    : list (double (FloatingPoint := plain_float) * double (FloatingPoint := plain_float)) :=
  Eval vm_compute in
    let corners := arc_corners (FP := plain_float) 0 0 10 8 in
    let angleStart := arc_angle (FP := plain_float) corners 10 4 in
    let angleEnd :=
      (arc_end_angle (FP := plain_float) AD_COUNTERCLOCKWISE angleStart
         (arc_angle (FP := plain_float) corners 0 4)).1 in
    default [] (arc_spans (FP := plain_float) 8 angleStart angleEnd AD_COUNTERCLOCKWISE
                  true (dbl (FloatingPoint := plain_float) 0)).

(** A host like [plain_host] whose heap has no block of more than 128
    bytes: the arrays of a path cannot grow beyond their initial 16
    entries. *)
Definition scarce_host : Host := {|
  HeapAlloc_ok := fun n => bool_decide (n <= 128)%nat;
  sizeof_gdi_path := 40;
  LPtoDP := fun q => q;
  DPtoLP := fun pts => Some pts;
  GetGraphicsMode := GM_ADVANCED;
  GetArcDirection := AD_COUNTERCLOCKWISE;
  GetPolyFillMode := 1;
  GDI_Bezier := fun pt0 _ _ pt3 => Some [pt0; pt3];
  CreatePolyPolygonRgn := fun _ _ polygons _ => 1 + Z.of_nat polygons;
  sizeof_pointer := 8;
  widen_geometry := fun pts _ _ _ _ _ => (pts, pts)
|}.

(** A polyline of sixteen points, and the path it makes of a freshly begun
    one: the arrays are full. *)
Definition sixteen_points : list POINT :=
  map (fun n => mkPOINT (Z.of_nat n) 0) (seq 0 16).
Definition full_path : gdi_path :=
  mk_gdi_path sixteen_points (PT_MOVETO :: replicate 15 PT_LINETO) 16 true (mkPOINT 0 0).

(** Sample device contexts, the cursor at (3,4): one with nothing in it,
    one with the triangle committed, one that is recording the triangle. *)
Definition idle_context : device_context :=
  mk_context (mk_DC None solid_pen) false [] 3 4.
Definition committed_context : device_context :=
  mk_context (mk_DC (Some triangle) solid_pen) false [] 3 4.
Definition recording_context : device_context :=
  mk_context (mk_DC None solid_pen) false [mk_path_physdev (Some triangle)] 3 4.

(** A glyph outline of one polygon: a line to (3.5, 0), then a quadratic
    spline through (4, 2), (2, 4) and (0, 2). *)
Definition whole (n : Z) : FIXED := mk_FIXED 0 n.
Definition sample_outline : list TTPOLYGONHEADER :=
  [mk_TTPOLYGONHEADER TT_POLYGON_TYPE (mk_POINTFX (whole 0) (whole 0))
     [mk_TTPOLYCURVE TT_PRIM_LINE [mk_POINTFX (mk_FIXED 0x8000 3) (whole 0)];
      mk_TTPOLYCURVE TT_PRIM_QSPLINE
        [mk_POINTFX (whole 4) (whole 2); mk_POINTFX (whole 2) (whole 4);
         mk_POINTFX (whole 0) (whole 2)]]].


(** * Properties *)

Section Properties.
Context `{Host} `{FP : FloatingPoint}.

Lemma PATH_ReserveEntries_run cnt p :
  PATH_ReserveEntries cnt p =
  Done (reserve_ok p cnt, if reserve_ok p cnt then grown p cnt else p).
Proof.
  unfold PATH_ReserveEntries, reserve_ok, grown, bind, get, ret, modify.
  destruct (decide (allocated p < cnt)%nat); [|done].
  destruct (HeapAlloc_ok (_ * sizeof_POINT)); simpl; [|done].
  destruct (HeapAlloc_ok (_ * sizeof_BYTE)); simpl; done.
Qed.

Lemma add_points_run pts cnt type p :
  (cnt <= length pts)%nat ->
  add_points pts cnt type p =
  if reserve_ok p (count p + cnt)
  then Done (Some (count p),
             appended (grown p (count p + cnt)) (take cnt pts) (replicate cnt type))
  else Done (None, p).
Proof.
  intros Hlen. unfold add_points, bind, get.
  rewrite PATH_ReserveEntries_run.
  destruct (reserve_ok p (count p + cnt)); simpl; [|done].
  unfold read_points. destruct (decide (cnt <= length pts)%nat); [|lia].
  done.
Qed.

Lemma add_log_points_run pts cnt type p :
  (cnt <= length pts)%nat ->
  add_log_points pts cnt type p =
  if reserve_ok p (count p + cnt)
  then Done (Some (count p),
             appended (grown p (count p + cnt)) (map LPtoDP (take cnt pts))
               (replicate cnt type))
  else Done (None, p).
Proof.
  intros Hlen. unfold add_log_points, bind, get.
  rewrite PATH_ReserveEntries_run.
  destruct (reserve_ok p (count p + cnt)); simpl; [|done].
  unfold read_points. destruct (decide (cnt <= length pts)%nat); [|lia].
  done.
Qed.

(** *** Cells written after an append *)

Lemma grown_fields p n :
  points (grown p n) = points p /\ flags (grown p n) = flags p /\
  newStroke (grown p n) = newStroke p /\ pos (grown p n) = pos p.
Proof. unfold grown. by destruct (decide _). Qed.

Lemma count_grown p n : count (grown p n) = count p.
Proof. unfold count. by rewrite (proj1 (proj2 (grown_fields p n))). Qed.

Lemma count_appended q pts fl : count (appended q pts fl) = (count q + length fl)%nat.
Proof. unfold count, appended. simpl. by rewrite length_app. Qed.

Lemma set_flag_appended q pts fl i v :
  (i < length fl)%nat ->
  set_flag (count q + i) v (appended q pts fl) = Done (tt, appended q pts (<[i:=v]> fl)).
Proof.
  intros Hi. unfold set_flag. rewrite count_appended.
  destruct (decide _) as [_|]; [|lia].
  unfold appended, set_flags, set_points, count. simpl.
  by rewrite insert_app_r.
Qed.

Lemma flag_at_appended q pts fl i f :
  fl !! i = Some f ->
  flag_at (count q + i) (appended q pts fl) = Done (f, appended q pts fl).
Proof.
  intros Hi. unfold flag_at, appended, count. simpl.
  rewrite lookup_app_r; [|lia].
  replace (length (flags q) + i - length (flags q))%nat with i by lia.
  by rewrite Hi.
Qed.

(** ** Rectangle *)

Lemma PATH_CheckCorners_spec x1 y1 x2 y2 :
  PATH_CheckCorners x1 y1 x2 y2 =
  (mkPOINT (rect_left x1 y1 x2 y2) (rect_top x1 y1 x2 y2),
   mkPOINT (rect_right x1 y1 x2 y2) (rect_bottom x1 y1 x2 y2)).
Proof.
  unfold PATH_CheckCorners, rect_left, rect_top, rect_right, rect_bottom, exclusive_edge.
  set (c0 := LPtoDP (mkPOINT x1 y1)). set (c1 := LPtoDP (mkPOINT x2 y2)).
  destruct (Z.ltb_spec (x c1) (x c0)), (Z.ltb_spec (y c1) (y c0));
    destruct GetGraphicsMode; simpl; f_equal; f_equal; lia.
Qed.

Lemma pathdrv_Rectangle_run x1 y1 x2 y2 p :
  pathdrv_Rectangle x1 y1 x2 y2 p =
  if reserve_ok p (count p + 4)
  then Done (true,
             appended (grown p (count p + 4))
               [mkPOINT (rect_right x1 y1 x2 y2) (rect_top x1 y1 x2 y2);
                mkPOINT (rect_left x1 y1 x2 y2) (rect_top x1 y1 x2 y2);
                mkPOINT (rect_left x1 y1 x2 y2) (rect_bottom x1 y1 x2 y2);
                mkPOINT (rect_right x1 y1 x2 y2) (rect_bottom x1 y1 x2 y2)]
               [PT_MOVETO; PT_LINETO; PT_LINETO; Z.lor PT_LINETO PT_CLOSEFIGURE])
  else Done (false, p).
Proof.
  unfold pathdrv_Rectangle.
  rewrite PATH_CheckCorners_spec. simpl.
  unfold bind at 1. rewrite add_points_run by (simpl; lia).
  destruct (reserve_ok p (count p + 4)); [|done].
  simpl take. simpl replicate.
  set (q := grown p (count p + 4)).
  replace (count p) with (count q) by apply count_grown.
  unfold bind.
  rewrite <- (Nat.add_0_r (count q)) at 1.
  rewrite set_flag_appended by (simpl; lia). simpl.
  erewrite flag_at_appended by reflexivity.
  rewrite set_flag_appended by (simpl; lia). done.
Qed.

(** C5. For every input, degenerate ones included, the rectangle operation
    appends exactly four entries tagged MOVE, LINE, LINE, LINE|CLOSE at
    (right,top), (left,top), (left,bottom), (right,bottom) of the
    device-mapped, ordered corners, the bottom-right one pulled in by one in
    COMPATIBLE mode; the only other outcome is the refusal of the heap to
    grow the arrays, which leaves the path as it was. *)
Theorem C5_rectangle_entries (x1 y1 x2 y2 : INT) (p : gdi_path) :
  let l := rect_left x1 y1 x2 y2 in
  let t := rect_top x1 y1 x2 y2 in
  let r := rect_right x1 y1 x2 y2 in
  let b := rect_bottom x1 y1 x2 y2 in
  pathdrv_Rectangle x1 y1 x2 y2 p =
  if reserve_ok p (count p + 4)
  then Done (true,
             appended (grown p (count p + 4))
               [mkPOINT r t; mkPOINT l t; mkPOINT l b; mkPOINT r b]
               [PT_MOVETO; PT_LINETO; PT_LINETO; Z.lor PT_LINETO PT_CLOSEFIGURE])
  else Done (false, p).
Proof. intros l t r b. apply pathdrv_Rectangle_run. Qed.

(** ** Arcs with an empty bounding box *)

Lemma PATH_Arc_degenerate fuel x1 y1 x2 y2 xs ys xe ye direction lines p :
  x1 = x2 \/ y1 = y2 ->
  PATH_Arc fuel x1 y1 x2 y2 xs ys xe ye direction lines p = Done (Some true, p).
Proof.
  intros Hbox. unfold PATH_Arc.
  assert ((x1 =? x2) || (y1 =? y2) = true) as ->; [|done].
  apply orb_true_iff. destruct Hbox; [left|right]; by apply Z.eqb_eq.
Qed.

(** C8. An arc, arcto, chord or pie whose bounding box has [x1 = x2] or
    [y1 = y2] returns success and leaves the path as it was: entries,
    current position and new-stroke latch.  The call returns before any
    floating-point computation, whatever the bound [fuel] on the quadrant
    loop it never reaches. *)
Theorem C8_degenerate_arc_is_noop (fuel : nat) (left top right bottom xs ys xe ye : INT)
    (p : gdi_path) :
  left = right \/ top = bottom ->
  pathdrv_Arc fuel left top right bottom xs ys xe ye p = Done (Some true, p) /\
  pathdrv_ArcTo fuel left top right bottom xs ys xe ye p = Done (Some true, p) /\
  pathdrv_Chord fuel left top right bottom xs ys xe ye p = Done (Some true, p) /\
  pathdrv_Pie fuel left top right bottom xs ys xe ye p = Done (Some true, p).
Proof.
  intros Hbox. unfold pathdrv_Arc, pathdrv_ArcTo, pathdrv_Chord, pathdrv_Pie.
  by rewrite !PATH_Arc_degenerate.
Qed.

(** ** Stroke continuation *)

Lemma last_flag_lookup p : flags p !! (count p - 1)%nat = last (flags p).
Proof. rewrite last_lookup. unfold count. f_equal. lia. Qed.

Lemma last_point_lookup p :
  parallel p -> points p !! (count p - 1)%nat = last (points p).
Proof. intros Hp. rewrite last_lookup. unfold count. rewrite <- Hp. f_equal. lia. Qed.

Lemma POINT_eqb q1 q2 :
  (x q1 =? x q2) && (y q1 =? y q2) = bool_decide (q1 = q2).
Proof.
  destruct q1 as [a b], q2 as [c d]. simpl.
  destruct (Z.eqb_spec a c), (Z.eqb_spec b d); simpl; symmetry;
    (apply bool_decide_eq_true_2 || apply bool_decide_eq_false_2); congruence.
Qed.

Lemma start_new_stroke_run p :
  parallel p ->
  start_new_stroke p =
  if needs_new_stroke p then
    let p0 := set_newStroke false p in
    if reserve_ok p0 (count p + 1)
    then Done (true, appended (grown p0 (count p + 1)) [pos p] [PT_MOVETO])
    else Done (false, p0)
  else Done (true, p).
Proof.
  intros Hp. unfold start_new_stroke, needs_new_stroke, bind at 1, get at 1.
  unfold bind at 1.
  destruct (newStroke p) eqn:Hns; simpl.
  { unfold bind, modify. simpl. rewrite add_points_run by (simpl; lia).
    change (count (set_newStroke false p)) with (count p).
    by destruct (reserve_ok _ _). }
  destruct (decide (count p = 0)%nat) as [H0|H0]; simpl.
  { rewrite bool_decide_eq_true_2 by done. simpl.
    unfold bind, modify. simpl. rewrite add_points_run by (simpl; lia).
    change (count (set_newStroke false p)) with (count p).
    by destruct (reserve_ok _ _). }
  rewrite bool_decide_eq_false_2 by done. simpl.
  unfold bind at 1, flag_at. rewrite last_flag_lookup.
  destruct (last (flags p)) as [f|] eqn:Hf.
  2:{ apply last_None in Hf. unfold count in H0. rewrite Hf in H0. done. }
  destruct (has_close f); simpl.
  { unfold bind, modify. simpl. rewrite add_points_run by (simpl; lia).
    change (count (set_newStroke false p)) with (count p).
    by destruct (reserve_ok _ _). }
  unfold bind at 1, point_at. rewrite last_point_lookup by done.
  destruct (last (points p)) as [q|] eqn:Hq.
  2:{ apply last_None in Hq. unfold count in H0. rewrite <- Hp, Hq in H0. done. }
  unfold ret at 1. rewrite POINT_eqb.
  destruct (decide (q = pos p)) as [->|Hne].
  - rewrite bool_decide_eq_true_2 by done.
    rewrite bool_decide_eq_false_2 by (intros Hx; by apply Hx). done.
  - rewrite bool_decide_eq_false_2 by done.
    rewrite bool_decide_eq_true_2 by congruence.
    unfold bind, modify. simpl. rewrite add_points_run by (simpl; lia).
    change (count (set_newStroke false p)) with (count p).
    by destruct (reserve_ok _ _).
Qed.

Lemma parallel_appended q pts fl :
  parallel q -> length pts = length fl -> parallel (appended q pts fl).
Proof. unfold parallel, appended. simpl. rewrite !length_app. lia. Qed.

Lemma parallel_grown p n : parallel p -> parallel (grown p n).
Proof.
  unfold parallel. destruct (grown_fields p n) as (-> & -> & _). done.
Qed.

Lemma update_current_pos_run p q :
  parallel p -> last (points p) = Some q ->
  update_current_pos p = Done (tt, set_pos q p).
Proof.
  intros Hp Hq. unfold update_current_pos, bind, get, assert, point_at, modify.
  assert (count p <> 0)%nat as Hc.
  { unfold count. rewrite <- Hp. intros H0. apply length_zero_iff_nil in H0.
    by rewrite H0 in Hq. }
  apply Nat.eqb_neq in Hc. rewrite Hc. simpl.
  by rewrite last_point_lookup, Hq.
Qed.

Lemma start_new_stroke_cases p :
  parallel p ->
  exists ok p',
    start_new_stroke p = Done (ok, p') /\ parallel p' /\ pos p' = pos p /\
    (ok = true ->
       points p' = points p ++ stroke_start_points p /\
       flags p' = flags p ++ stroke_start_flags p /\
       newStroke p' = false /\ (count p' <> 0)%nat) /\
    (ok = false -> points p' = points p /\ flags p' = flags p) /\
    (heap_grants -> ok = true).
Proof.
  intros Hp. rewrite start_new_stroke_run by done.
  unfold stroke_start_points, stroke_start_flags.
  destruct (needs_new_stroke p) eqn:Hn; simpl.
  - destruct (reserve_ok (set_newStroke false p) (count p + 1)) eqn:Hr.
    + eexists _, _. split; [done|].
      split; [apply parallel_appended; [by apply parallel_grown|done]|].
      destruct (grown_fields (set_newStroke false p) (count p + 1)) as (Hg1 & Hg2 & Hg3 & Hg4).
      split; [simpl; by rewrite Hg4|].
      split; [intros _|split; [done|done]].
      simpl. rewrite Hg1, Hg2, Hg3. repeat split; try done.
      rewrite count_appended. simpl. lia.
    + eexists _, _. split; [done|]. repeat split; try done.
      intros Hheap. exfalso. revert Hr. unfold reserve_ok.
      destruct (decide _); [|done]. by rewrite !Hheap.
  - eexists _, _. split; [done|]. rewrite !app_nil_r.
    unfold needs_new_stroke in Hn.
    apply orb_false_iff in Hn as [Hn _]. apply orb_false_iff in Hn as [Hn _].
    apply orb_false_iff in Hn as [Hn1 Hn2].
    apply bool_decide_eq_false in Hn2. repeat split; done.
Qed.

Lemma heap_grants_reserve p n : heap_grants -> reserve_ok p n = true.
Proof.
  intros Hheap. unfold reserve_ok. destruct (decide _); [|done]. by rewrite !Hheap.
Qed.

Lemma add_log_points_cases pts cnt type p :
  parallel p -> (cnt <= length pts)%nat ->
  exists r p',
    add_log_points pts cnt type p = Done (r, p') /\ parallel p' /\
    pos p' = pos p /\ newStroke p' = newStroke p /\
    (forall i, r = Some i ->
       i = count p /\
       points p' = points p ++ map LPtoDP (take cnt pts) /\
       flags p' = flags p ++ replicate cnt type) /\
    (r = None -> p' = p) /\
    (heap_grants -> is_Some r).
Proof.
  intros Hp Hlen. rewrite add_log_points_run by done.
  destruct (reserve_ok p (count p + cnt)) eqn:Hr.
  - eexists _, _. split; [done|].
    destruct (grown_fields p (count p + cnt)) as (Hg1 & Hg2 & Hg3 & Hg4).
    split.
    { apply parallel_appended; [by apply parallel_grown|].
      rewrite length_map, length_take, length_replicate. lia. }
    simpl. rewrite Hg1, Hg2, Hg3, Hg4. repeat split; try done.
    all: congruence.
  - eexists _, _. split; [done|]. repeat split; try done.
    intros Hheap. by rewrite heap_grants_reserve in Hr.
Qed.

Lemma add_log_points_new_stroke_cases pts cnt type p :
  parallel p -> (cnt <= length pts)%nat ->
  exists ok p',
    add_log_points_new_stroke pts cnt type p = Done (ok, p') /\ parallel p' /\
    (ok = true ->
       points p' = points p ++ stroke_start_points p ++ map LPtoDP (take cnt pts) /\
       flags p' = flags p ++ stroke_start_flags p ++ replicate cnt type /\
       last (points p') = Some (pos p') /\
       newStroke p' = false) /\
    (ok = false ->
       pos p' = pos p /\
       ((points p' = points p /\ flags p' = flags p) \/
        (points p' = points p ++ stroke_start_points p /\
         flags p' = flags p ++ stroke_start_flags p))) /\
    (heap_grants -> ok = true).
Proof.
  intros Hp Hlen. unfold add_log_points_new_stroke, bind at 1.
  destruct (start_new_stroke_cases p Hp) as (ok1 & p1 & -> & Hp1 & Hpos1 & Ht1 & Hf1 & Hh1).
  destruct ok1; simpl.
  2:{ eexists _, _. split; [done|]. split; [done|].
      destruct (Hf1 eq_refl) as [Hpt Hfl].
      split; [done|]. split; [intros _; split; [done|by left]|].
      intros Hheap. by apply Hh1. }
  destruct (Ht1 eq_refl) as (Hpt1 & Hfl1 & Hns1 & Hc1).
  unfold bind at 1.
  destruct (add_log_points_cases pts cnt type p1 Hp1 Hlen)
    as (r & p2 & -> & Hp2 & Hpos2 & Hns2 & Hsome & Hnone & Hh2).
  destruct r as [i|].
  - destruct (Hsome i eq_refl) as (_ & Hpt2 & Hfl2).
    assert (exists q, last (points p2) = Some q) as [q Hq].
    { destruct (last (points p2)) eqn:Hl; [by eexists|].
      apply last_None in Hl. exfalso. apply Hc1. unfold count.
      rewrite <- Hp1. rewrite Hpt2 in Hl. apply app_eq_nil in Hl as [Hl _].
      by rewrite Hl. }
    unfold bind. rewrite (update_current_pos_run p2 q) by done.
    eexists _, _. split; [done|]. split; [done|].
    split; [intros _|split; [done|done]].
    simpl. rewrite Hpt2, Hfl2, Hpt1, Hfl1, <- !app_assoc. repeat split; try done.
    + rewrite <- Hq, Hpt2, Hpt1, <- !app_assoc. done.
    + congruence.
  - rewrite (Hnone eq_refl). eexists _, _. split; [done|]. split; [done|].
    split; [done|]. split; [intros _; split; [done|by right]|].
    intros Hheap. by destruct (Hh2 Hheap).
Qed.

(** *** Arc pieces only append *)

Lemma extends_with_refl P q : extends_with P q q.
Proof. exists [], []. rewrite !app_nil_r. repeat split; done. Qed.

Lemma extends_with_trans P q1 q2 q3 :
  extends_with P q1 q2 -> extends_with P q2 q3 -> extends_with P q1 q3.
Proof.
  intros (pts & fl & Ha & Hb & Hc & Hd & He & Hf) (pts' & fl' & Ha' & Hb' & Hc' & Hd' & He' & Hf').
  exists (pts ++ pts'), (fl ++ fl').
  rewrite Ha', Hb', Ha, Hb, !app_assoc, !length_app.
  repeat split; try congruence; try lia. by apply Forall_app.
Qed.

Lemma extends_with_weaken (P Q : BYTE -> Prop) q q' :
  (forall f, P f -> Q f) -> extends_with P q q' -> extends_with Q q q'.
Proof.
  intros HPQ (pts & fl & Ha & Hb & Hc & Hd & He & Hf).
  exists pts, fl. split; [done|]. split; [done|]. split; [done|].
  split; [|done]. by eapply Forall_impl.
Qed.

Lemma extends_with_parallel P q q' :
  parallel q -> extends_with P q q' -> parallel q'.
Proof.
  intros Hq (pts & fl & Ha & Hb & Hc & _). unfold parallel in *.
  rewrite Ha, Hb, !length_app. lia.
Qed.

Lemma add_points_cases pts cnt type p :
  (cnt <= length pts)%nat ->
  exists r p',
    add_points pts cnt type p = Done (r, p') /\
    pos p' = pos p /\ newStroke p' = newStroke p /\
    (forall i, r = Some i ->
       i = count p /\
       points p' = points p ++ take cnt pts /\
       flags p' = flags p ++ replicate cnt type) /\
    (r = None -> p' = p) /\
    (heap_grants -> is_Some r).
Proof.
  intros Hlen. rewrite add_points_run by done.
  destruct (reserve_ok p (count p + cnt)) eqn:Hr.
  - eexists _, _. split; [done|].
    destruct (grown_fields p (count p + cnt)) as (Hg1 & Hg2 & Hg3 & Hg4).
    simpl. rewrite Hg1, Hg2, Hg3, Hg4. repeat split; try done.
    all: congruence.
  - eexists _, _. split; [done|]. repeat split; try done.
    intros Hheap. by rewrite heap_grants_reserve in Hr.
Qed.

Lemma PATH_DoArcPart_asserts corners angleStart angleEnd t q :
  quarter_at_most (angleStart, angleEnd) = false ->
  PATH_DoArcPart corners angleStart angleEnd t q = AssertFailed.
Proof.
  unfold quarter_at_most, PATH_DoArcPart, bind, assert. cbn [fst snd]. by intros ->.
Qed.

Lemma PATH_DoArcPart_cases corners angleStart angleEnd t q :
  quarter_at_most (angleStart, angleEnd) = true ->
  exists ok q',
    PATH_DoArcPart corners angleStart angleEnd t q = Done (ok, q') /\
    extends_with (fun f => f = PT_BEZIERTO \/ (t <> 0 /\ f = t)) q q' /\
    (heap_grants -> ok = true).
Proof.
  intros Hspan. unfold quarter_at_most in Hspan. cbn [fst snd] in Hspan.
  unfold PATH_DoArcPart. unfold bind at 1, assert at 1. rewrite Hspan.
  destruct (DoArcPart_points corners angleStart angleEnd) as [[[p0 p1] p2] p3].
  destruct (Z.eqb_spec t 0) as [Ht|Ht].
  - unfold bind at 1. rewrite add_points_run by (simpl; lia).
    destruct (reserve_ok q (count q + (4 - 1))) eqn:Hr.
    + destruct (decide (1 = 0)%nat) as [|_]; [done|]. cbn.
      eexists _, _. split; [done|]. split; [|done].
      destruct (grown_fields q (count q + 3)) as (Hg1 & Hg2 & Hg3 & Hg4).
      eexists _, _. simpl. rewrite Hg1, Hg2, Hg3, Hg4.
      repeat split; try done. repeat constructor.
    + eexists _, _. split; [done|]. split; [apply extends_with_refl|].
      intros Hheap. by rewrite heap_grants_reserve in Hr.
  - unfold bind at 1. rewrite add_points_run by (simpl; lia).
    destruct (reserve_ok q (count q + (4 - 0))) eqn:Hr.
    + destruct (decide (0 = 0)%nat) as [_|]; [|done].
      simpl take. simpl replicate. simpl Nat.sub. unfold bind.
      set (q1 := grown q (count q + 4)).
      replace (set_flag (count q)) with (set_flag (count q1 + 0)).
      2:{ unfold q1. by rewrite count_grown, Nat.add_0_r. }
      rewrite set_flag_appended by (simpl; lia). cbn.
      eexists _, _. split; [done|]. split; [|done].
      destruct (grown_fields q (count q + 4)) as (Hg1 & Hg2 & Hg3 & Hg4).
      eexists _, _. subst q1. simpl. rewrite Hg1, Hg2, Hg3, Hg4.
      repeat split; try done.
      repeat (apply Forall_cons; split; [tauto|]). apply Forall_nil_2.
    + eexists _, _. split; [done|]. split; [apply extends_with_refl|].
      intros Hheap. by rewrite heap_grants_reserve in Hr.
Qed.

(** The quadrant loop either stops on the assertion of [PATH_DoArcPart] or
    leaves the path extended by the tag of the first control point and by
    BEZIER tags. *)
Lemma arc_quadrants_cases fuel corners angleStart angleEnd direction lines :
  forall start angleEndQuadrant q,
    arc_quadrants fuel corners angleStart angleEnd direction lines start angleEndQuadrant q
      = AssertFailed \/
    exists ended q',
      arc_quadrants fuel corners angleStart angleEnd direction lines start angleEndQuadrant q
        = Done (ended, q') /\
      extends_with (fun f => f = PT_BEZIERTO \/
                             f = (if lines =? -1 then PT_LINETO else PT_MOVETO)) q q'.
Proof.
  induction fuel as [|fuel IH]; intros start angleEndQuadrant q.
  - right. exists None, q. split; [done|]. apply extends_with_refl.
  - cbn [arc_quadrants].
    set (angleStartQuadrant := if start then angleStart else angleEndQuadrant).
    set (quadrantEnd := if start then _ else _).
    set (end_ := match direction with AD_COUNTERCLOCKWISE => _ | AD_CLOCKWISE => _ end).
    set (span_end := if end_ then angleEnd else quadrantEnd).
    set (t := if start then (if lines =? -1 then PT_LINETO else PT_MOVETO) else 0).
    destruct (quarter_at_most (angleStartQuadrant, span_end)) eqn:Hspan.
    2:{ left. unfold bind.
        by rewrite (PATH_DoArcPart_asserts corners angleStartQuadrant span_end t q Hspan). }
    destruct (PATH_DoArcPart_cases corners angleStartQuadrant span_end t q Hspan)
      as (ok & q1 & Hrun & Hext & _).
    assert (extends_with (fun f => f = PT_BEZIERTO \/
                                   f = (if lines =? -1 then PT_LINETO else PT_MOVETO)) q q1)
      as Hext1.
    { eapply extends_with_weaken; [|exact Hext]. intros f [Hf|[Hne Hf]]; [by left|].
      right. rewrite Hf. unfold t in *. destruct start; [done|]. by destruct Hne. }
    unfold bind. rewrite !Hrun. destruct end_.
    + right. exists (Some tt), q1. split; [reflexivity|exact Hext1].
    + destruct (IH false span_end q1) as [Hfail|(ended & q' & Hrun' & Hext')].
      * by left.
      * right. exists ended, q'. split; [done|]. by eapply extends_with_trans.
Qed.

Lemma not_degenerate x1 y1 x2 y2 :
  x1 <> x2 -> y1 <> y2 -> (x1 =? x2) || (y1 =? y2) = false.
Proof.
  intros Hx Hy. apply orb_false_iff. split; by apply Z.eqb_neq.
Qed.

Lemma pathdrv_ArcTo_stroke fuel left top right bottom xs ys xe ye p p' :
  parallel p -> left <> right -> top <> bottom ->
  pathdrv_ArcTo fuel left top right bottom xs ys xe ye p = Done (Some true, p') ->
  exists pts fl,
    points p' = points p ++ stroke_start_points p ++ pts /\
    flags p' = flags p ++ stroke_start_flags p ++ fl /\
    Forall (fun f => f = PT_LINETO \/ f = PT_BEZIERTO) fl /\
    last (points p') = Some (pos p').
Proof.
  intros Hp Hx Hy. unfold pathdrv_ArcTo, PATH_Arc.
  rewrite not_degenerate by done.
  destruct (arc_end_angle _ _ _) as [angleEnd on_the_right_side].
  unfold bind at 1, assert at 1. destruct on_the_right_side; [|done].
  change (-1 =? -1) with true. cbv iota.
  unfold bind at 1.
  destruct (start_new_stroke_cases p Hp) as (ok1 & p1 & -> & Hp1 & Hpos1 & Ht1 & _).
  destruct ok1; cbn [negb]; [|done].
  destruct (Ht1 eq_refl) as (Hpt1 & Hfl1 & Hns1 & Hc1).
  unfold bind at 1.
  match goal with |- context [arc_quadrants ?f ?c ?a ?b ?d ?l ?st ?e p1] =>
    destruct (arc_quadrants_cases f c a b d l st e p1)
      as [->|(ended & p3 & -> & Hext)]; [done|]
  end.
  change (-1 =? -1) with true in Hext.
  destruct ended as [[]|]; [|done].
  assert (parallel p3) as Hp3 by (by eapply extends_with_parallel).
  destruct Hext as (pts & fl & Ha & Hb & Hc & Hd & He & Hf).
  assert (exists q, last (points p3) = Some q) as [q Hq].
  { destruct (last (points p3)) eqn:Hl; [by eexists|].
    apply last_None in Hl. exfalso. apply Hc1. unfold count.
    rewrite <- Hp1. rewrite Ha in Hl. apply app_eq_nil in Hl as [Hl _].
    by rewrite Hl. }
  unfold bind. rewrite (update_current_pos_run p3 q) by done.
  intros [= <-]. exists pts, fl. simpl.
  rewrite Ha, Hb, Hpt1, Hfl1, <- !app_assoc. repeat split; try done.
  - eapply Forall_impl; [exact Hd|]. intros f [Hf'|Hf']; auto.
  - by rewrite <- Hq, Ha, Hpt1, <- !app_assoc.
Qed.

Lemma appended_grown_fields q n pts fl :
  points (appended (grown q n) pts fl) = points q ++ pts /\
  flags (appended (grown q n) pts fl) = flags q ++ fl /\
  pos (appended (grown q n) pts fl) = pos q /\
  newStroke (appended (grown q n) pts fl) = newStroke q.
Proof.
  destruct (grown_fields q n) as (Hg1 & Hg2 & Hg3 & Hg4).
  unfold appended. simpl. by rewrite Hg1, Hg2, Hg3, Hg4.
Qed.

Lemma PATH_DoArcPart_grants corners angleStart angleEnd t q :
  heap_grants -> quarter_at_most (angleStart, angleEnd) = true ->
  exists q' pts,
    PATH_DoArcPart corners angleStart angleEnd t q = Done (true, q') /\
    points q' = points q ++ pts /\
    length pts = (if t =? 0 then 3%nat else 4%nat) /\
    last pts = Some (DoArcPart_points corners angleStart angleEnd).2 /\
    flags q' = flags q ++ (if t =? 0 then [] else [t])
                       ++ [PT_BEZIERTO; PT_BEZIERTO; PT_BEZIERTO] /\
    pos q' = pos q /\ newStroke q' = newStroke q.
Proof.
  intros Hheap Hspan. unfold quarter_at_most in Hspan. cbn [fst snd] in Hspan.
  unfold PATH_DoArcPart. unfold bind at 1, assert at 1. rewrite Hspan.
  destruct (DoArcPart_points corners angleStart angleEnd) as [[[p0 p1] p2] p3].
  destruct (t =? 0) eqn:Ht; cbn [drop Nat.sub]; unfold bind at 1;
    rewrite add_points_run by (simpl; lia); rewrite heap_grants_reserve by done.
  - cbn [take replicate]. unfold bind, ret.
    destruct (decide (1 = 0)%nat); [lia|].
    eexists _, [p1; p2; p3]. split; [done|].
    destruct (appended_grown_fields q (count q + 3) [p1; p2; p3]
                [PT_BEZIERTO; PT_BEZIERTO; PT_BEZIERTO]) as (-> & -> & -> & ->).
    done.
  - cbn [take replicate]. unfold bind at 1.
    destruct (decide (0 = 0)%nat); [|lia].
    replace (set_flag (count q)) with (set_flag (count (grown q (count q + 4)) + 0))
      by (rewrite count_grown; f_equal; lia).
    rewrite set_flag_appended by (simpl; lia). unfold ret.
    eexists _, [p0; p1; p2; p3]. split; [done|].
    cbn [insert list_insert].
    destruct (appended_grown_fields q (count q + 4) [p0; p1; p2; p3]
                [t; PT_BEZIERTO; PT_BEZIERTO; PT_BEZIERTO]) as (-> & -> & -> & ->).
    done.
Qed.

(** On a heap that grants the blocks, a quadrant loop whose angles pass the
    assertion of [PATH_DoArcPart] ends and adds three BEZIER entries for
    each piece, after the entry of the first control point. *)
Lemma arc_quadrants_grants corners angleStart angleEnd direction lines :
  heap_grants ->
  forall fuel start angleEndQuadrant spans q,
    arc_spans fuel angleStart angleEnd direction start angleEndQuadrant = Some spans ->
    forallb quarter_at_most spans = true ->
    exists q' pts,
      arc_quadrants fuel corners angleStart angleEnd direction lines start angleEndQuadrant q
        = Done (Some tt, q') /\
      points q' = points q ++ pts /\
      length pts = ((if start then 1 else 0) + 3 * length spans)%nat /\
      (exists span, last spans = Some span /\
         last pts = Some (DoArcPart_points corners span.1 span.2).2) /\
      flags q' = flags q
                   ++ (if start then [if lines =? -1 then PT_LINETO else PT_MOVETO] else [])
                   ++ replicate (3 * length spans) PT_BEZIERTO /\
      pos q' = pos q /\ newStroke q' = newStroke q.
Proof.
  intros Hheap. induction fuel as [|fuel IH]; intros start angleEndQuadrant spans q;
    [done|].
  cbn [arc_spans arc_quadrants].
  set (angleStartQuadrant := if start then angleStart else angleEndQuadrant).
  set (quadrantEnd := if start then _ else _).
  set (end_ := match direction with AD_COUNTERCLOCKWISE => _ | AD_CLOCKWISE => _ end).
  set (span_end := if end_ then angleEnd else quadrantEnd).
  set (t := if start then (if lines =? -1 then PT_LINETO else PT_MOVETO) else 0).
  assert ((if t =? 0 then 3%nat else 4%nat) = ((if start then 1 else 0) + 3)%nat /\
          (if t =? 0 then [] else [t]) =
          (if start then [if lines =? -1 then PT_LINETO else PT_MOVETO] else [])) as [Hn Ht].
  { unfold t. destruct start; [|done]. by destruct (lines =? -1). }
  intros Hspans Hok.
  assert (exists rest, spans = (angleStartQuadrant, span_end) :: rest /\
            forallb quarter_at_most rest = true /\
            quarter_at_most (angleStartQuadrant, span_end) = true /\
            if end_ then rest = []
            else arc_spans fuel angleStart angleEnd direction false span_end = Some rest)
    as (rest & -> & Hrest & Hspan & Hnext).
  { destruct end_.
    - injection Hspans as <-. cbn [forallb] in Hok.
      apply andb_true_iff in Hok as [Hspan _]. by exists [].
    - destruct (arc_spans fuel angleStart angleEnd direction false span_end)
        as [rest|] eqn:Hrec; [|done].
      injection Hspans as <-. cbn [forallb] in Hok.
      apply andb_true_iff in Hok as [Hspan Hrest]. by exists rest. }
  destruct (PATH_DoArcPart_grants corners angleStartQuadrant span_end t q Hheap Hspan)
    as (q1 & pts1 & Hrun & Hp1 & Hl1 & Hlast1 & Hf1 & Hpos1 & Hns1).
  rewrite Hn in Hl1. rewrite Ht in Hf1.
  unfold bind at 1. rewrite Hrun. destruct end_.
  - subst rest. exists q1, pts1. split; [done|]. split; [done|].
    split; [cbn [length]; lia|]. split; [by exists (angleStartQuadrant, span_end)|].
    split; [|done]. by rewrite Hf1.
  - destruct (IH false span_end rest q1 Hnext Hrest)
      as (q' & pts & Hrun' & Hp & Hl & (span & Hspan' & Hlast) & Hf & Hpos & Hns).
    exists q', (pts1 ++ pts). split; [done|].
    rewrite Hp, Hp1, Hf, Hf1, Hpos, Hpos1, Hns, Hns1, <- !app_assoc, length_app, Hl1, Hl.
    split; [done|]. split; [cbn [length]; lia|]. split.
    + exists span. split.
      * destruct rest; [done|]. done.
      * apply last_Some in Hlast as [pts' ->]. by rewrite app_assoc, last_snoc.
    + split; [|done]. cbn [app length].
      replace (3 * S (length rest))%nat with (3 + 3 * length rest)%nat by lia.
      by rewrite replicate_add.
Qed.

Lemma PATH_Arc_stroke fuel x1 y1 x2 y2 xs ys xe ye direction spans p :
  heap_grants -> parallel p -> x1 <> x2 -> y1 <> y2 ->
  arc_goes_through fuel x1 y1 x2 y2 xs ys xe ye direction spans ->
  exists p' pts,
    PATH_Arc fuel x1 y1 x2 y2 xs ys xe ye direction (-1) p = Done (Some true, p') /\
    points p' = points p ++ stroke_start_points p ++ pts /\
    length pts = S (3 * length spans) /\
    flags p' = flags p ++ stroke_start_flags p
                 ++ PT_LINETO :: replicate (3 * length spans) PT_BEZIERTO /\
    arc_end x1 y1 x2 y2 spans = Some (pos p') /\ last (points p') = Some (pos p') /\
    newStroke p' = false.
Proof.
  intros Hheap Hp Hx Hy. unfold arc_goes_through, PATH_Arc.
  rewrite not_degenerate by done.
  destruct (arc_end_angle _ _ _) as [angleEnd on_the_right_side].
  intros (-> & Hspans & Hok). unfold bind at 1, assert at 1.
  change (-1 =? -1) with true. cbv iota.
  destruct (start_new_stroke_cases p Hp) as (ok & p0 & Hrun0 & Hp0 & Hpos0 & Ht0 & _ & Hh0).
  rewrite (Hh0 Hheap) in *. unfold bind at 1. rewrite Hrun0. cbn [negb].
  destruct (Ht0 eq_refl) as (Hpts0 & Hfl0 & Hns0 & _).
  change (if decide (GetGraphicsMode = GM_COMPATIBLE) then _ else _)
    with (arc_box x1 y1 x2 y2).
  destruct (arc_quadrants_grants (arc_box x1 y1 x2 y2) _ _ direction (-1) Hheap
              fuel true (dbl 0) spans p0 Hspans Hok)
    as (p1 & pts & Hrun & Hp1 & Hl & (span & Hspan & Hlast) & Hf & Hpos & Hns).
  change (-1 =? -1) with true in Hf.
  unfold bind at 1. rewrite Hrun.
  assert (parallel p1) as Hpar1.
  { unfold parallel in *. rewrite Hp1, Hf, !length_app. cbn [length].
    rewrite length_replicate. lia. }
  assert (last (points p1) = Some (DoArcPart_points (arc_box x1 y1 x2 y2) span.1 span.2).2)
    as Hlast1.
  { rewrite Hp1. apply last_Some in Hlast as [pts' ->].
    by rewrite app_assoc, last_snoc. }
  unfold bind. rewrite (update_current_pos_run p1 _ Hpar1 Hlast1). unfold ret.
  eexists _, pts. split; [done|]. simpl.
  rewrite Hp1, Hpts0, Hf, Hfl0, Hns, Hns0, <- !app_assoc.
  split; [done|]. split; [simpl in Hl; lia|]. split; [done|].
  split; [unfold arc_end; by rewrite Hspan|]. split; [|done].
  rewrite !app_assoc. apply last_Some in Hlast as [pts' ->].
  by rewrite !app_assoc, last_snoc.
Qed.

Lemma bind_ret_bool (m : M bool) p :
  (ok <- m ;; if negb ok then ret false else ret true) p = m p.
Proof. unfold bind, ret. by destruct (m p) as [[[] p']| |]. Qed.

Lemma pathdrv_PolyDraw_line pts p :
  pathdrv_PolyDraw pts [PT_LINETO] p = add_log_points_new_stroke pts 1 PT_LINETO p.
Proof.
  rewrite <- bind_ret_bool. unfold pathdrv_PolyDraw, bind, get. cbn [PolyDraw_loop].
  change (PT_LINETO =? PT_MOVETO) with false. change (PT_LINETO =? PT_LINETO) with true.
  cbn [orb]. unfold bind.
  destruct (add_log_points_new_stroke pts 1 PT_LINETO p) as [[[] p']| |]; done.
Qed.

Lemma pathdrv_PolyDraw_bezier pts p :
  pathdrv_PolyDraw pts [PT_BEZIERTO; PT_BEZIERTO; PT_BEZIERTO] p =
  add_log_points_new_stroke pts 3 PT_BEZIERTO p.
Proof.
  rewrite <- bind_ret_bool. unfold pathdrv_PolyDraw, bind, get. cbn [PolyDraw_loop].
  change (PT_BEZIERTO =? PT_MOVETO) with false.
  change ((PT_BEZIERTO =? PT_LINETO) || (PT_BEZIERTO =? Z.lor PT_LINETO PT_CLOSEFIGURE))
    with false.
  change (PT_BEZIERTO =? PT_BEZIERTO) with true.
  change (base_type PT_BEZIERTO =? PT_BEZIERTO) with true. cbn [andb]. unfold bind.
  destruct (add_log_points_new_stroke pts 3 PT_BEZIERTO p) as [[[] p']| |]; done.
Qed.

(** C2. A stroke extension, and the arcto that shares its first step, first
    appends a synthetic MOVE at the stored current position exactly when
    the new-stroke latch is set, the path is empty, the last entry carries
    CLOSE, or the last point differs from the current position
    ([needs_new_stroke]); it inserts no MOVE otherwise; and after a
    successful extension the current position is the last point of the
    path.  [line_to], [polyline_to], [poly_bezier_to] and the LINE and BEZIER
    steps of [poly_draw] are calls of [add_log_points_new_stroke]: a step
    of [poly_draw] at any place of its stream, for the path [p] the loop
    has reached there (after a MOVE step, the path with the latch set and
    the moved position), is that call, followed, when its tag carries
    CLOSE, by the closing of the figure; so on a heap that grants the
    blocks the loop goes on, after a LINE step or a BEZIER triple, from the
    path with the MOVE under that condition, the mapped points and the
    position on the last of them.  [arcto] on a box that is not
    empty starts the stroke in the same way and goes on with a LINE to
    the start of the arc and three BEZIER entries for each piece, whenever
    it returns; and it does return success on a heap that grants the
    blocks when its floating-point part goes through, that is when no
    assertion on the angles fails and its quadrant loop ends. *)
Theorem C2_stroke_continuation (p : gdi_path) :
  parallel p ->
  (forall p', start_new_stroke p = Done (true, p') ->
     points p' = points p ++ (if needs_new_stroke p then [pos p] else []) /\
     flags p' = flags p ++ (if needs_new_stroke p then [PT_MOVETO] else []) /\
     pos p' = pos p) /\
  (forall pts cnt type p',
     (cnt <= length pts)%nat ->
     add_log_points_new_stroke pts cnt type p = Done (true, p') ->
     points p' = points p ++ (if needs_new_stroke p then [pos p] else [])
                          ++ map LPtoDP (take cnt pts) /\
     flags p' = flags p ++ (if needs_new_stroke p then [PT_MOVETO] else [])
                        ++ replicate cnt type /\
     last (points p') = Some (pos p')) /\
  (forall pts cnt type,
     (cnt <= length pts)%nat -> heap_grants ->
     exists p', add_log_points_new_stroke pts cnt type p = Done (true, p')) /\
  (forall x0 y0,
     pathdrv_LineTo x0 y0 p = add_log_points_new_stroke [mkPOINT x0 y0] 1 PT_LINETO p) /\
  (forall pts cbPoints,
     pathdrv_PolylineTo pts cbPoints p = add_log_points_new_stroke pts cbPoints PT_LINETO p) /\
  (forall pts cbPoints,
     pathdrv_PolyBezierTo pts cbPoints p =
     add_log_points_new_stroke pts cbPoints PT_BEZIERTO p) /\
  (forall pts,
     pathdrv_PolyDraw pts [PT_LINETO] p = add_log_points_new_stroke pts 1 PT_LINETO p /\
     pathdrv_PolyDraw pts [PT_BEZIERTO; PT_BEZIERTO; PT_BEZIERTO] p =
     add_log_points_new_stroke pts 3 PT_BEZIERTO p) /\
  (forall fuel left top right bottom xs ys xe ye p',
     left <> right -> top <> bottom ->
     pathdrv_ArcTo fuel left top right bottom xs ys xe ye p = Done (Some true, p') ->
     exists pts fl,
       points p' = points p ++ (if needs_new_stroke p then [pos p] else []) ++ pts /\
       flags p' = flags p ++ (if needs_new_stroke p then [PT_MOVETO] else []) ++ fl /\
       Forall (fun f => f = PT_LINETO \/ f = PT_BEZIERTO) fl /\
       last (points p') = Some (pos p')) /\
  (forall fuel left top right bottom xs ys xe ye spans,
     left <> right -> top <> bottom -> heap_grants ->
     arc_goes_through fuel left top right bottom xs ys xe ye GetArcDirection spans ->
     exists p' pts,
       pathdrv_ArcTo fuel left top right bottom xs ys xe ye p = Done (Some true, p') /\
       points p' = points p ++ (if needs_new_stroke p then [pos p] else []) ++ pts /\
       length pts = S (3 * length spans) /\
       flags p' = flags p ++ (if needs_new_stroke p then [PT_MOVETO] else [])
                    ++ PT_LINETO :: replicate (3 * length spans) PT_BEZIERTO /\
       last (points p') = Some (pos p')) /\
  (forall pts types,
     pathdrv_PolyDraw pts types p =
     PolyDraw_loop pts types (pos p) (find_lastmove (flags p) 0 0) p) /\
  (forall q pts types1 orig_pos lastmove,
     PolyDraw_loop (q :: pts) (PT_MOVETO :: types1) orig_pos lastmove p =
     PolyDraw_loop pts types1 orig_pos (count p)
       (set_pos (LPtoDP q) (set_newStroke true p))) /\
  (forall pts t types1 orig_pos lastmove,
     t = PT_LINETO \/ t = Z.lor PT_LINETO PT_CLOSEFIGURE ->
     PolyDraw_loop pts (t :: types1) orig_pos lastmove p =
     (ok <- add_log_points_new_stroke pts 1 PT_LINETO ;;
      if negb ok then ret false
      else
        PolyDraw_close t lastmove ;;
        PolyDraw_loop (drop 1 pts) types1 orig_pos lastmove) p) /\
  (forall pts t2 types3 orig_pos lastmove,
     t2 = PT_BEZIERTO \/ t2 = Z.lor PT_BEZIERTO PT_CLOSEFIGURE ->
     PolyDraw_loop pts (PT_BEZIERTO :: PT_BEZIERTO :: t2 :: types3) orig_pos lastmove p =
     (ok <- add_log_points_new_stroke pts 3 PT_BEZIERTO ;;
      if negb ok then ret false
      else
        PolyDraw_close t2 lastmove ;;
        PolyDraw_loop (drop 3 pts) types3 orig_pos lastmove) p) /\
  (forall t lastmove,
     PolyDraw_close t lastmove p =
     if has_close t
     then (close_figure ;; q <- point_at lastmove ;; modify (set_pos q)) p
     else Done (tt, p)) /\
  (forall pts t types1 orig_pos lastmove,
     t = PT_LINETO \/ t = Z.lor PT_LINETO PT_CLOSEFIGURE ->
     (1 <= length pts)%nat -> heap_grants ->
     exists p1,
       points p1 = points p ++ (if needs_new_stroke p then [pos p] else [])
                            ++ map LPtoDP (take 1 pts) /\
       flags p1 = flags p ++ (if needs_new_stroke p then [PT_MOVETO] else [])
                          ++ [PT_LINETO] /\
       last (points p1) = Some (pos p1) /\
       PolyDraw_loop pts (t :: types1) orig_pos lastmove p =
       (PolyDraw_close t lastmove ;;
        PolyDraw_loop (drop 1 pts) types1 orig_pos lastmove) p1) /\
  (forall pts t2 types3 orig_pos lastmove,
     t2 = PT_BEZIERTO \/ t2 = Z.lor PT_BEZIERTO PT_CLOSEFIGURE ->
     (3 <= length pts)%nat -> heap_grants ->
     exists p1,
       points p1 = points p ++ (if needs_new_stroke p then [pos p] else [])
                            ++ map LPtoDP (take 3 pts) /\
       flags p1 = flags p ++ (if needs_new_stroke p then [PT_MOVETO] else [])
                          ++ [PT_BEZIERTO; PT_BEZIERTO; PT_BEZIERTO] /\
       last (points p1) = Some (pos p1) /\
       PolyDraw_loop pts (PT_BEZIERTO :: PT_BEZIERTO :: t2 :: types3) orig_pos lastmove p =
       (PolyDraw_close t2 lastmove ;;
        PolyDraw_loop (drop 3 pts) types3 orig_pos lastmove) p1).
Proof.
  intros Hp.
  assert (forall pts t2 types3 orig_pos lastmove,
            t2 = PT_BEZIERTO \/ t2 = Z.lor PT_BEZIERTO PT_CLOSEFIGURE ->
            PolyDraw_loop pts (PT_BEZIERTO :: PT_BEZIERTO :: t2 :: types3) orig_pos
              lastmove p =
            (ok <- add_log_points_new_stroke pts 3 PT_BEZIERTO ;;
             if negb ok then ret false
             else
               PolyDraw_close t2 lastmove ;;
               PolyDraw_loop (drop 3 pts) types3 orig_pos lastmove) p) as Hbezier.
  { intros pts t2 types3 orig_pos lastmove Ht2. cbn [PolyDraw_loop].
    change (PT_BEZIERTO =? PT_MOVETO) with false.
    change ((PT_BEZIERTO =? PT_LINETO) || (PT_BEZIERTO =? Z.lor PT_LINETO PT_CLOSEFIGURE))
      with false.
    change (PT_BEZIERTO =? PT_BEZIERTO) with true. cbv iota.
    assert ((base_type t2 =? PT_BEZIERTO) = true) as ->; [by destruct Ht2 as [-> | ->]|].
    done. }
  assert (forall pts t types1 orig_pos lastmove,
            t = PT_LINETO \/ t = Z.lor PT_LINETO PT_CLOSEFIGURE ->
            PolyDraw_loop pts (t :: types1) orig_pos lastmove p =
            (ok <- add_log_points_new_stroke pts 1 PT_LINETO ;;
             if negb ok then ret false
             else
               PolyDraw_close t lastmove ;;
               PolyDraw_loop (drop 1 pts) types1 orig_pos lastmove) p) as Hline.
  { intros pts t types1 orig_pos lastmove [-> | ->]; done. }
  assert (forall pts cnt type (k : M bool),
            (cnt <= length pts)%nat -> heap_grants ->
            exists p1,
              points p1 = points p ++ (if needs_new_stroke p then [pos p] else [])
                                   ++ map LPtoDP (take cnt pts) /\
              flags p1 = flags p ++ (if needs_new_stroke p then [PT_MOVETO] else [])
                                 ++ replicate cnt type /\
              last (points p1) = Some (pos p1) /\
              (ok <- add_log_points_new_stroke pts cnt type ;;
               if negb ok then ret false else k) p = k p1) as Hstep.
  { intros pts cnt type k Hlen Hheap.
    destruct (add_log_points_new_stroke_cases pts cnt type p Hp Hlen)
      as (ok & p1 & Hrun & _ & Ht & _ & Hok).
    rewrite (Hok Hheap) in *. destruct (Ht eq_refl) as (Hpts & Hfl & Hlast & _).
    exists p1. split; [done|]. split; [done|]. split; [done|].
    unfold bind at 1. by rewrite Hrun. }
  split.
  { intros p' Hrun.
    destruct (start_new_stroke_cases p Hp) as (ok & p1 & Hrun1 & _ & Hpos & Ht & _).
    rewrite Hrun1 in Hrun. injection Hrun as -> ->.
    destruct (Ht eq_refl) as (Hpts & Hfl & _). done. }
  split.
  { intros pts cnt type p' Hlen Hrun.
    destruct (add_log_points_new_stroke_cases pts cnt type p Hp Hlen)
      as (ok & p1 & Hrun1 & _ & Ht & _).
    rewrite Hrun1 in Hrun. injection Hrun as -> ->.
    destruct (Ht eq_refl) as (Hpts & Hfl & Hlast & _). done. }
  split.
  { intros pts cnt type Hlen Hheap.
    destruct (add_log_points_new_stroke_cases pts cnt type p Hp Hlen)
      as (ok & p1 & Hrun & _ & _ & _ & Hok).
    rewrite (Hok Hheap) in Hrun. by exists p1. }
  split; [done|]. split; [done|]. split; [done|].
  split.
  { intros pts. split; [apply pathdrv_PolyDraw_line|apply pathdrv_PolyDraw_bezier]. }
  split.
  { intros fuel left top right bottom xs ys xe ye p' Hx Hy Hrun.
    by apply (pathdrv_ArcTo_stroke fuel left top right bottom xs ys xe ye). }
  split.
  { intros fuel left top right bottom xs ys xe ye spans Hx Hy Hheap Hfloat.
    destruct (PATH_Arc_stroke fuel left top right bottom xs ys xe ye GetArcDirection
                spans p Hheap Hp Hx Hy Hfloat)
      as (p' & pts & Hrun & Hpts & Hlen & Hfl & _ & Hlast & _).
    by exists p', pts. }
  split; [done|].
  split.
  { intros q pts types1 orig_pos lastmove. cbn [PolyDraw_loop].
    change (PT_MOVETO =? PT_MOVETO) with true. cbv iota.
    unfold bind, modify, get, PolyDraw_close.
    change (has_close PT_MOVETO) with false. cbv iota. unfold ret. done. }
  split; [exact Hline|]. split; [exact Hbezier|].
  split.
  { intros t lastmove. unfold PolyDraw_close. by destruct (has_close t). }
  split.
  - intros pts t types1 orig_pos lastmove Ht Hlen Hheap.
    destruct (Hstep pts 1%nat PT_LINETO
                (PolyDraw_close t lastmove ;;
                 PolyDraw_loop (drop 1 pts) types1 orig_pos lastmove) Hlen Hheap)
      as (p1 & Hpts & Hfl & Hlast & Hrun).
    exists p1. split; [done|]. split; [done|]. split; [done|].
    by rewrite Hline.
  - intros pts t2 types3 orig_pos lastmove Ht2 Hlen Hheap.
    destruct (Hstep pts 3%nat PT_BEZIERTO
                (PolyDraw_close t2 lastmove ;;
                 PolyDraw_loop (drop 3 pts) types3 orig_pos lastmove) Hlen Hheap)
      as (p1 & Hpts & Hfl & Hlast & Hrun).
    exists p1. split; [done|]. split; [done|]. split; [done|].
    by rewrite Hbezier.
Qed.

(** ** Poly-polygons and poly-polylines *)

Lemma counts_ok_true counts :
  counts_ok counts = true <-> counts <> [] /\ Forall (fun c => 2 <= c) counts.
Proof.
  unfold counts_ok. rewrite andb_true_iff, negb_true_iff, bool_decide_eq_false.
  rewrite forallb_forall, Forall_forall. split; intros [Hne Hall]; (split; [done|]).
  - intros c Hc. apply Z.leb_le, Hall. by apply list_elem_of_In.
  - intros c Hc. apply Z.leb_le, Hall. by apply list_elem_of_In.
Qed.

Lemma sum_counts_good counts acc :
  Forall (fun c => 2 <= c) counts -> 0 <= acc -> acc + total counts < 2 ^ 32 ->
  sum_counts counts acc = Some (acc + total counts).
Proof.
  intros Hall. revert acc. induction Hall as [|c counts Hc Hall IH]; intros acc Hacc Hsum; simpl in *.
  - f_equal. lia.
  - assert (0 <= total counts).
    { clear -Hall. induction Hall; simpl; lia. }
    destruct (Z.ltb_spec c 2); [lia|].
    rewrite Z.mod_small by lia. rewrite IH by lia. f_equal. lia.
Qed.


Lemma total_nonneg counts : Forall (fun c => 2 <= c) counts -> 0 <= total counts.
Proof. induction 1; simpl; lia. Qed.

Lemma set_flag_middle p pre f rest v :
  flags p = pre ++ f :: rest ->
  set_flag (length pre) v p = Done (tt, set_flags (pre ++ v :: rest) p).
Proof.
  intros Hfl. unfold set_flag, count. rewrite Hfl, length_app. simpl.
  destruct (decide _); [|lia].
  rewrite <- (Nat.add_0_r (length pre)) at 1. by rewrite insert_app_r.
Qed.

Lemma set_flags_set_flags l l' p : set_flags l (set_flags l' p) = set_flags l p.
Proof. done. Qed.

Lemma PolyPolygon_fixup_run counts :
  Forall (fun c => 2 <= c) counts ->
  forall p pre rest,
    flags p = pre ++ replicate (Z.to_nat (total counts)) PT_LINETO ++ rest ->
    PolyPolygon_fixup (length pre) counts p =
    Done (tt, set_flags (pre ++ polygon_tags counts ++ rest) p).
Proof.
  induction 1 as [|c counts Hc Hall IH]; intros p pre rest Hfl; simpl in *.
  - unfold ret. f_equal. f_equal. destruct p. unfold set_flags. simpl in *. by subst.
  - pose proof (total_nonneg counts Hall) as Htot.
    replace (Z.to_nat (c + total counts))
      with (S (Z.to_nat c - 2) + 1 + Z.to_nat (total counts))%nat in Hfl by lia.
    rewrite !replicate_add in Hfl. simpl in Hfl. rewrite <- !app_assoc in Hfl. simpl in Hfl.
    unfold bind at 1. rewrite (set_flag_middle p pre _ _ PT_MOVETO Hfl).
    unfold bind at 1.
    replace (length pre + (Z.to_nat c - 1))%nat
      with (length (pre ++ PT_MOVETO :: replicate (Z.to_nat c - 2) PT_LINETO)).
    2:{ rewrite length_app. simpl. rewrite length_replicate. lia. }
    rewrite (set_flag_middle _ _ PT_LINETO
               (replicate (Z.to_nat (total counts)) PT_LINETO ++ rest)).
    2:{ simpl. by rewrite <- app_assoc. }
    rewrite set_flags_set_flags.
    replace (length pre + Z.to_nat c)%nat
      with (length ((pre ++ PT_MOVETO :: replicate (Z.to_nat c - 2) PT_LINETO)
                      ++ [Z.lor PT_LINETO PT_CLOSEFIGURE])).
    2:{ rewrite !length_app. simpl. rewrite length_replicate. lia. }
    rewrite (IH _ _ rest).
    2:{ simpl. by rewrite <- !app_assoc. }
    rewrite set_flags_set_flags. f_equal. f_equal. f_equal.
    unfold polygon_tags. simpl. rewrite <- !app_assoc. done.
Qed.

Lemma PolyPolyline_fixup_run counts :
  Forall (fun c => 2 <= c) counts ->
  forall p pre rest,
    flags p = pre ++ replicate (Z.to_nat (total counts)) PT_LINETO ++ rest ->
    PolyPolyline_fixup (length pre) counts p =
    Done (tt, set_flags (pre ++ polyline_tags counts ++ rest) p).
Proof.
  induction 1 as [|c counts Hc Hall IH]; intros p pre rest Hfl; simpl in *.
  - unfold ret. f_equal. f_equal. destruct p. unfold set_flags. simpl in *. by subst.
  - pose proof (total_nonneg counts Hall) as Htot.
    replace (Z.to_nat (c + total counts))
      with (S (Z.to_nat c - 1) + Z.to_nat (total counts))%nat in Hfl by lia.
    rewrite !replicate_add in Hfl. simpl in Hfl. rewrite <- !app_assoc in Hfl.
    unfold bind at 1. rewrite (set_flag_middle p pre _ _ PT_MOVETO Hfl).
    replace (length pre + Z.to_nat c)%nat
      with (length (pre ++ PT_MOVETO :: replicate (Z.to_nat c - 1) PT_LINETO)).
    2:{ rewrite !length_app. simpl. rewrite length_replicate. lia. }
    rewrite (IH _ _ rest).
    2:{ simpl. by rewrite <- !app_assoc. }
    rewrite set_flags_set_flags. f_equal. f_equal. f_equal.
    unfold polyline_tags. simpl. by rewrite <- !app_assoc.
Qed.

Lemma set_flags_appended q pts fl fl' :
  set_flags (flags q ++ fl' ++ []) (appended q pts fl) = appended q pts fl'.
Proof. unfold appended, set_flags, set_points. simpl. by rewrite app_nil_r. Qed.


Lemma poly_counts_accepted pts counts p :
  counts_ok counts = true ->
  total counts < 2 ^ 32 ->
  (Z.to_nat (total counts) <= length pts)%nat ->
  let n := Z.to_nat (total counts) in
  pathdrv_PolyPolygon pts counts p =
    (if reserve_ok p (count p + n)
     then Done (true, appended (grown p (count p + n))
                        (map LPtoDP (take n pts)) (polygon_tags counts))
     else Done (false, p)) /\
  pathdrv_PolyPolyline pts counts p =
    (if reserve_ok p (count p + n)
     then Done (true, appended (grown p (count p + n))
                        (map LPtoDP (take n pts)) (polyline_tags counts))
     else Done (false, p)).
Proof.
  intros Hok Hsum Hlen n. apply counts_ok_true in Hok as [Hne Hall].
  unfold pathdrv_PolyPolygon, pathdrv_PolyPolyline.
  destruct (decide (length counts = 0)%nat) as [H0|_].
  { by destruct counts. }
  rewrite (sum_counts_good counts 0 Hall) by lia.
  rewrite Z.add_0_l. fold n. unfold bind at 1 3.
  rewrite add_log_points_run by done.
  destruct (reserve_ok p (count p + n)); [|done].
  set (q := grown p (count p + n)).
  assert (count p = length (flags q)) as ->.
  { exact (eq_sym (count_grown p (count p + n))). }
  unfold bind. split.
  + rewrite (PolyPolygon_fixup_run counts Hall _ _ []).
    2:{ simpl. by rewrite app_nil_r. }
    by rewrite set_flags_appended.
  + rewrite (PolyPolyline_fixup_run counts Hall _ _ []).
    2:{ simpl. by rewrite app_nil_r. }
    by rewrite set_flags_appended.
Qed.


(** ** PolyDraw *)

Lemma base_type_sub t : base_type t = t - t mod 2.
Proof.
  unfold base_type, PT_CLOSEFIGURE. rewrite <- Z.ldiff_land.
  pose proof (Z.lor_ldiff_and t 1) as Hor.
  assert (Z.land (Z.ldiff t 1) (Z.land t 1) = 0) as Hdis.
  { rewrite (Z.land_comm t 1), Z.land_assoc, Z.land_ldiff. done. }
  rewrite <- Z.lxor_lor, <- Z.add_nocarry_lxor in Hor by done.
  change 1 with (Z.ones 1) in Hor at 2. rewrite Z.land_ones in Hor by lia.
  change (2 ^ 1) with 2 in Hor. lia.
Qed.

Lemma base_type_bezier t :
  base_type t = PT_BEZIERTO <->
  t = PT_BEZIERTO \/ t = Z.lor PT_BEZIERTO PT_CLOSEFIGURE.
Proof.
  rewrite base_type_sub. unfold PT_BEZIERTO, PT_CLOSEFIGURE. simpl.
  pose proof (Z.mod_pos_bound t 2 ltac:(lia)). split.
  - intros Ht. assert (t = 4 \/ t = 5) as [->| ->] by lia; auto.
  - intros [->| ->]; done.
Qed.

Lemma close_figure_run p f :
  last (flags p) = Some f ->
  close_figure p =
  Done (tt, set_flags (<[(count p - 1)%nat := Z.lor f PT_CLOSEFIGURE]> (flags p)) p).
Proof.
  intros Hf. unfold close_figure, bind, get, assert, flag_at.
  assert (count p <> 0)%nat as Hc.
  { unfold count. intros H0. apply length_zero_iff_nil in H0. by rewrite H0 in Hf. }
  pose proof Hc as Hc'. apply Nat.eqb_neq in Hc'. rewrite Hc'. simpl.
  rewrite last_flag_lookup, Hf. unfold set_flag.
  destruct (decide _); [done|lia].
Qed.

Lemma PolyDraw_close_cases t lastmove p :
  parallel p -> (lastmove < count p)%nat ->
  exists p',
    PolyDraw_close t lastmove p = Done (tt, p') /\ parallel p' /\
    points p' = points p /\ count p' = count p /\ newStroke p' = newStroke p /\
    (flags p' = flags p \/
     exists f, last (flags p) = Some f /\
       flags p' = <[(count p - 1)%nat := Z.lor f PT_CLOSEFIGURE]> (flags p)).
Proof.
  intros Hp Hlm. unfold PolyDraw_close. destruct (has_close t).
  2:{ exists p. repeat split; auto. }
  destruct (last (flags p)) as [f|] eqn:Hf.
  2:{ apply last_None in Hf. unfold count in Hlm. rewrite Hf in Hlm. simpl in Hlm. lia. }
  unfold bind at 1. rewrite (close_figure_run p f Hf).
  unfold bind, point_at, modify. simpl.
  destruct (points p !! lastmove) as [q|] eqn:Hq.
  2:{ apply lookup_ge_None in Hq. unfold count in Hlm. rewrite Hp in Hq. lia. }
  eexists. split; [done|]. simpl.
  split. { unfold parallel. simpl. rewrite length_insert. done. }
  split; [done|]. split. { unfold count. simpl. by rewrite length_insert. }
  split; [done|]. right. by exists f.
Qed.

Lemma find_lastmove_bound fl i lastmove :
  (lastmove < i + length fl)%nat -> (find_lastmove fl i lastmove < i + length fl)%nat.
Proof.
  revert i lastmove. induction fl as [|f fl IH]; intros i lastmove Hlm; simpl in *.
  - done.
  - replace (i + S (length fl))%nat with (S i + length fl)%nat by lia.
    apply IH. destruct (f =? PT_MOVETO); lia.
Qed.

Lemma lastmove_ok_initial p : lastmove_ok (find_lastmove (flags p) 0 0) p.
Proof.
  unfold lastmove_ok. destruct (flags p) as [|f fl] eqn:Hfl.
  - right. unfold count, needs_new_stroke. rewrite Hfl. simpl.
    split; [done|]. by rewrite orb_true_r.
  - left. unfold count. rewrite Hfl.
    apply (find_lastmove_bound (f :: fl) 0 0). simpl. lia.
Qed.

Lemma lastmove_ok_extended lastmove p p' cnt type :
  lastmove_ok lastmove p ->
  flags p' = flags p ++ stroke_start_flags p ++ replicate (S cnt) type ->
  (lastmove < count p')%nat.
Proof.
  intros Hlm Hfl. unfold count. rewrite Hfl, !length_app, length_replicate.
  destruct Hlm as [Hlm|[-> Hn]]; unfold count in *; [lia|].
  unfold stroke_start_flags. rewrite Hn. simpl. lia.
Qed.

Lemma PolyDraw_loop_rejects n :
  forall types, (length types <= n)%nat ->
  forall pts orig_pos lastmove p,
    parallel p -> length pts = length types -> lastmove_ok lastmove p ->
    ~ accepted_types types ->
    exists p',
      PolyDraw_loop pts types orig_pos lastmove p = Done (false, p') /\
      (heap_grants -> pos p' = orig_pos).
Proof.
  induction n as [|n IH]; intros types Hn pts orig_pos lastmove p Hp Hlen Hlm Hbad.
  { destruct types; [|simpl in Hn; lia]. destruct Hbad. constructor. }
  destruct types as [|t types1]; [destruct Hbad; constructor|].
  destruct pts as [|q pts1]; [done|].
  simpl in Hn, Hlen.
  cbn [PolyDraw_loop].
  destruct (Z.eqb_spec t PT_MOVETO) as [->|Hmove].
  { (* MOVE *)
    unfold bind, modify, get, PolyDraw_close, ret.
    change (has_close PT_MOVETO) with false. cbv beta iota.
    apply IH; simpl; try lia.
    - done.
    - rewrite drop_0. lia.
    - right. split; [done|]. done.
    - intros Hacc. apply Hbad. by constructor. }
  destruct ((t =? PT_LINETO) || (t =? Z.lor PT_LINETO PT_CLOSEFIGURE)) eqn:Hline.
  { (* LINE, with or without CLOSE *)
    unfold bind at 1.
    destruct (add_log_points_new_stroke_cases (q :: pts1) 1 PT_LINETO p Hp)
      as (ok & p1 & -> & Hp1 & Ht & Hf & Hh); [simpl; lia|].
    destruct ok; simpl.
    2:{ exists p1. split; [done|]. intros Hheap. by specialize (Hh Hheap). }
    destruct (Ht eq_refl) as (Hpt1 & Hfl1 & _).
    pose proof (lastmove_ok_extended lastmove p p1 0 PT_LINETO Hlm Hfl1) as Hlm1.
    unfold bind at 1.
    destruct (PolyDraw_close_cases t lastmove p1 Hp1 Hlm1)
      as (p2 & -> & Hp2 & _ & Hc2 & _).
    apply IH; try lia.
    - done.
    - rewrite drop_0. lia.
    - left. lia.
    - intros Hacc. apply Hbad.
      apply orb_true_iff in Hline as [Heq|Heq]; apply Z.eqb_eq in Heq; subst t;
        by constructor. }
  set (reject := (modify (set_pos orig_pos);; ret false) : M bool).
  assert (exists p', reject p = Done (false, p') /\ (heap_grants -> pos p' = orig_pos))
    as Hreject.
  { eexists. split; [done|]. done. }
  destruct (Z.eqb_spec t PT_BEZIERTO) as [->|Hbez]; [|done].
  destruct types1 as [|t1 [|t2 types3]]; [done|done|].
  destruct ((t1 =? PT_BEZIERTO) && (base_type t2 =? PT_BEZIERTO)) eqn:Htriple; [|done].
  apply andb_true_iff in Htriple as [Ht1 Ht2].
  apply Z.eqb_eq in Ht1, Ht2. subst t1. apply base_type_bezier in Ht2.
  simpl in Hn, Hlen.
  unfold bind at 1.
  destruct (add_log_points_new_stroke_cases (q :: pts1) 3 PT_BEZIERTO p Hp)
    as (ok & p1 & -> & Hp1 & Ht & Hf & Hh); [simpl; lia|].
  destruct ok; simpl.
  2:{ exists p1. split; [done|]. intros Hheap. by specialize (Hh Hheap). }
  destruct (Ht eq_refl) as (Hpt1 & Hfl1 & _).
  pose proof (lastmove_ok_extended lastmove p p1 2 PT_BEZIERTO Hlm Hfl1) as Hlm1.
  unfold bind at 1.
  destruct (PolyDraw_close_cases t2 lastmove p1 Hp1 Hlm1)
    as (p2 & -> & Hp2 & _ & Hc2 & _).
  apply IH; try lia.
  - done.
  - rewrite length_drop. simpl. lia.
  - left. lia.
  - intros Hacc. apply Hbad. by constructor.
Qed.

(** X27. A [poly_draw] stream that is not made of MOVE, LINE (with or without
    CLOSE) and BEZIER triples (CLOSE on the third only) is refused: the call
    returns failure whatever the heap does, and on a heap that grants the
    blocks the stored current position is back at its value on entry.  The
    position is restored by the rejection itself, which a call on another
    heap may not reach. *)
Theorem poly_draw_rejects_bad_streams (pts : list POINT) (types : list BYTE) (p : gdi_path) :
  parallel p -> length pts = length types -> ~ accepted_types types ->
  exists p',
    pathdrv_PolyDraw pts types p = Done (false, p') /\
    (heap_grants -> pos p' = pos p).
Proof.
  intros Hp Hlen Hbad. unfold pathdrv_PolyDraw, bind, get.
  apply (PolyDraw_loop_rejects (length types)); try done.
  apply lastmove_ok_initial.
Qed.

(** ** Region bridge *)

Lemma store_count_next done free v x :
  store_count (done ++ x :: free) (length done) v =
  Done ((done ++ [v]) ++ free, length (done ++ [v])).
Proof.
  unfold store_count. rewrite length_app. simpl.
  destruct (decide _); [|lia].
  rewrite <- (Nat.add_0_r (length done)) at 1. rewrite insert_app_r. simpl.
  rewrite <- app_assoc, length_app. simpl. do 2 f_equal. lia.
Qed.

Lemma region_loop_and_last_cons f fl i pos polygons counts :
  region_loop_and_last (f :: fl) i pos polygons counts =
  if negb (f =? PT_MOVETO) then region_loop_and_last fl (S i) pos polygons counts
  else
    match store_count counts polygons (Z.of_nat i - Z.of_nat pos) with
    | Done (counts, polygons) => region_loop_and_last fl (S i) i polygons counts
    | AssertFailed => AssertFailed
    | Fault => Fault
    end.
Proof.
  unfold region_loop_and_last. cbn [region_loop length].
  replace (i + S (length fl))%nat with (S i + length fl)%nat by lia.
  destruct (negb (f =? PT_MOVETO)); [done|].
  by destruct (store_count _ _ _) as [[? ?]| |].
Qed.

Lemma region_loop_and_last_run fl :
  forall i pos done free,
    (pos < i)%nat ->
    Forall (fun n => 2 <= n)%nat (run_lengths fl (i - pos)) ->
    (length (run_lengths fl (i - pos)) <= length free)%nat ->
    region_loop_and_last fl i pos (length done) (done ++ free) =
    Done (done ++ map Z.of_nat (run_lengths fl (i - pos))
               ++ drop (length (run_lengths fl (i - pos))) free,
          (length done + length (run_lengths fl (i - pos)))%nat).
Proof.
  induction fl as [|f fl IH]; intros i pos done free Hpos Hruns Hroom.
  - unfold region_loop_and_last. simpl in *.
    apply Forall_cons in Hruns as [Hrun _].
    destruct (decide _); [|lia].
    destruct free as [|c free]; [simpl in Hroom; lia|].
    rewrite store_count_next, <- app_assoc, length_app. simpl.
    do 4 f_equal. lia.
  - rewrite region_loop_and_last_cons. cbn [run_lengths] in *.
    destruct (Z.eqb_spec f PT_MOVETO) as [->|Hf]; cbn [negb].
    + apply Forall_cons in Hruns as [Hrun Hruns]. simpl in Hroom.
      destruct free as [|c free]; [simpl in Hroom; lia|]. simpl in Hroom.
      rewrite store_count_next. cbv beta iota.
      specialize (IH (S i) i (done ++ [Z.of_nat i - Z.of_nat pos]) free).
      replace (S i - i)%nat with 1%nat in IH by lia.
      etrans; [apply IH; (done || lia)|].
      rewrite <- !app_assoc, length_app. simpl.
      do 2 f_equal; [|lia]. do 2 f_equal. lia.
    + specialize (IH (S i) pos done free).
      replace (S i - pos)%nat with (S (i - pos)) in IH by lia.
      apply IH; (done || lia).
Qed.

Lemma run_lengths_sum fl cur :
  foldr Nat.add 0%nat (run_lengths fl cur) = (cur + length fl)%nat.
Proof.
  revert cur. induction fl as [|f fl IH]; intros cur; simpl; [lia|].
  destruct (f =? PT_MOVETO); simpl; rewrite IH; lia.
Qed.

Lemma runs_at_least_two (runs : list nat) :
  Forall (fun n => 2 <= n)%nat runs -> (2 * length runs <= foldr Nat.add 0%nat runs)%nat.
Proof. induction 1; simpl; lia. Qed.

(** C10. On a non-empty path whose first tag is MOVE and whose runs from one
    MOVE entry to the next all have at least two entries, the region bridge
    counts at most [count / 2] polygons: its two assertions hold, every
    store into the [count / 2] cells of the counts buffer is in bounds, and
    the region constructor receives the lengths of those runs. *)
Theorem C10_region_counts_in_bounds (path : gdi_path) (mode : INT) :
  flags path !! 0%nat = Some PT_MOVETO ->
  Forall (fun n => 2 <= n)%nat (move_runs (flags path)) ->
  let runs := move_runs (flags path) in
  (length runs <= count path / 2)%nat /\
  region_polygons path = Done (map Z.of_nat runs, length runs) /\
  (HeapAlloc_ok (count path / 2 * sizeof_int) = true ->
   path_to_region path mode =
   Done (CreatePolyPolygonRgn (points path) (map Z.of_nat runs) (length runs) mode)).
Proof.
  intros Hfirst Hruns. cbv zeta.
  destruct (flags path) as [|f0 fl] eqn:Hfl; [done|].
  simpl in Hfirst. injection Hfirst as ->.
  assert (count path = S (length fl)) as Hcount.
  { unfold count. by rewrite Hfl. }
  cbn [move_runs] in *. set (runs := run_lengths fl 1) in *.
  assert (length runs <= count path / 2)%nat as Hbound.
  { apply Nat.div_le_lower_bound; [lia|].
    pose proof (runs_at_least_two runs Hruns) as Hsum.
    unfold runs in Hsum at 2. rewrite run_lengths_sum in Hsum. lia. }
  assert (region_polygons path = Done (map Z.of_nat runs, length runs)) as Hregion.
  { unfold region_polygons. rewrite Hfl.
    change (PT_MOVETO =? PT_MOVETO) with true. cbv beta iota delta [negb].
    set (buf := replicate (count path / 2) 0).
    assert (length buf = (count path / 2)%nat) as Hbuf by apply length_replicate.
    pose proof (region_loop_and_last_run fl 1 0 [] buf) as Hloop.
    change (1 - 0)%nat with 1%nat in Hloop. fold runs in Hloop.
    assert (length runs <= length buf)%nat as Hroom by (by rewrite Hbuf).
    specialize (Hloop ltac:(lia) Hruns Hroom).
    unfold region_loop_and_last in Hloop.
    change ([] ++ buf) with buf in Hloop.
    change (length (@nil INT)) with 0%nat in Hloop.
    replace (1 + length fl)%nat with (count path) in Hloop by lia.
    destruct (region_loop fl 1 0 0 buf) as [[[pos0 counts] polygons]| |];
      [|done|done].
    rewrite Hloop. change (0 + length runs)%nat with (length runs).
    clear Hloop.
    destruct (decide _) as [_|Hno]; [|exfalso; exact (Hno Hbound)].
    simpl app. rewrite take_app_length'; [done|by rewrite length_map]. }
  split; [done|]. split; [done|].
  intros Hheap. unfold path_to_region.
  destruct (decide (count path = 0)%nat) as [H0|_]; [lia|].
  by rewrite Hheap, Hregion.
Qed.

(** ** Flattener *)

Lemma PATH_AddEntry_run q f p :
  PATH_AddEntry q f p =
  if reserve_ok p (count p + 1)
  then Done (true, appended (grown p (count p + 1)) [q] [f])
  else Done (false, p).
Proof.
  unfold PATH_AddEntry, bind, get. rewrite PATH_ReserveEntries_run.
  by destruct (reserve_ok p (count p + 1)).
Qed.

Lemma length_line_tags n closed : (1 <= n)%nat -> length (line_tags n closed) = n.
Proof. intros Hn. unfold line_tags. rewrite length_app, length_replicate. simpl. lia. Qed.

Lemma insert_last {A} (l : list A) (a b : A) : <[length l := b]> (l ++ [a]) = l ++ [b].
Proof. rewrite <- (Nat.add_0_r (length l)). by rewrite insert_app_r. Qed.

Lemma PATH_AddFlatBezier_run pt0 pt1 pt2 pt3 closed q :
  bezier_contract -> heap_grants -> parallel q ->
  exists q',
    PATH_AddFlatBezier pt0 pt1 pt2 pt3 closed q = Done (true, q') /\
    parallel q' /\
    points q' = points q ++ (bezier_lines pt0 pt1 pt2 pt3 closed).*1 /\
    flags q' = flags q ++ (bezier_lines pt0 pt1 pt2 pt3 closed).*2.
Proof.
  intros Hcontract Hheap Hq. unfold PATH_AddFlatBezier, bezier_lines.
  destruct (Hcontract pt0 pt1 pt2 pt3) as (pts & -> & Hlen).
  destruct pts as [|p0 pts1]; [simpl in Hlen; lia|]. simpl in Hlen.
  assert (1 <= length pts1)%nat as Hlen1 by lia.
  rewrite fst_zip, snd_zip by (rewrite length_line_tags; lia).
  unfold bind at 1. rewrite add_points_run by done.
  rewrite heap_grants_reserve by done.
  rewrite take_ge by done.
  set (q1 := grown q (count q + length pts1)).
  assert (parallel q1) as Hq1 by (by apply parallel_grown).
  destruct (grown_fields q (count q + length pts1)) as (Hg1 & Hg2 & _). fold q1 in Hg1, Hg2.
  rewrite bool_decide_eq_true_2 by (by eexists). unfold line_tags.
  destruct closed; simpl andb; cbv iota.
  - destruct (length pts1) as [|m] eqn:Hm; [lia|].
    rewrite replicate_S_end. unfold bind.
    erewrite close_figure_run.
    2:{ unfold appended. simpl. rewrite app_assoc. apply last_snoc. }
    eexists. split; [done|]. simpl.
    split.
    { unfold parallel. simpl. rewrite length_insert, !length_app, length_replicate. simpl.
      unfold parallel in Hq1. lia. }
    rewrite Hg1, Hg2. split; [done|].
    replace (count (appended q1 pts1 (replicate m PT_LINETO ++ [PT_LINETO])) - 1)%nat
      with (length (flags q ++ replicate m PT_LINETO)).
    2:{ rewrite count_appended, !length_app. unfold count. rewrite Hg2. simpl. lia. }
    rewrite app_assoc, insert_last, <- app_assoc.
    by rewrite Nat.sub_0_r.
  - unfold bind, ret. eexists. split; [done|].
    split. { apply parallel_appended; [done|]. by rewrite length_replicate. }
    simpl. rewrite Hg1, Hg2. split; [done|]. f_equal.
    destruct (length pts1) as [|m]; [lia|].
    rewrite replicate_S_end. simpl. by rewrite Nat.sub_0_r.
Qed.

Lemma lookup_after {A} (pre rest : list A) k :
  (pre ++ rest) !! (length pre + k)%nat = rest !! k.
Proof. rewrite lookup_app_r by lia. f_equal. lia. Qed.

Lemma load_run {A} (l : list A) i a q :
  l !! i = Some a -> load l i q = Done (a, q).
Proof. intros Hl. unfold load. by rewrite Hl. Qed.

Lemma base_type_values f :
  (base_type f = PT_MOVETO \/ base_type f = PT_LINETO ->
   (base_type f =? PT_MOVETO) || (base_type f =? PT_LINETO) = true /\
   (base_type f =? PT_BEZIERTO) = false) /\
  (base_type f = PT_BEZIERTO ->
   (base_type f =? PT_MOVETO) || (base_type f =? PT_LINETO) = false /\
   (base_type f =? PT_BEZIERTO) = true).
Proof. split; [intros [->| ->]|intros ->]; done. Qed.

Lemma flatten_loop_run P :
  bezier_contract -> heap_grants ->
  forall n rest_fl,
    bezier_triples rest_fl -> (length rest_fl <= n)%nat ->
    forall rest_pts pre_pts pre_fl prev q,
      length rest_pts = length rest_fl -> length pre_pts = length pre_fl ->
      points P = pre_pts ++ rest_pts -> flags P = pre_fl ++ rest_fl ->
      (forall f1 fl', rest_fl = f1 :: fl' -> base_type f1 = PT_BEZIERTO ->
                      last pre_pts = Some prev) ->
      parallel q ->
      exists q',
        flatten_loop P n (length pre_fl) q = Done (true, q') /\ parallel q' /\
        points q' = points q ++ (flattened prev (zip rest_pts rest_fl)).*1 /\
        flags q' = flags q ++ (flattened prev (zip rest_pts rest_fl)).*2.
Proof.
  intros Hcontract Hheap.
  induction n as [|n IH]; intros rest_fl Htriples Hn rest_pts pre_pts pre_fl prev q
    Hrest Hpre Hpts Hfl Hprev Hq.
  { destruct rest_fl; [|simpl in Hn; lia]. destruct rest_pts; [|done].
    exists q. simpl. rewrite !app_nil_r. done. }
  assert (count P = (length pre_fl + length rest_fl)%nat) as Hcount.
  { unfold count. by rewrite Hfl, length_app. }
  cbn [flatten_loop].
  destruct Htriples as [|f1 fl Hbase Htriples|f1 f2 f3 fl Hb1 Hb2 Hb3 Htriples].
  - destruct rest_pts; [|done]. simpl in Hcount.
    destruct (decide _) as [_|]; [|lia].
    exists q. simpl. rewrite !app_nil_r. done.
  - destruct rest_pts as [|q1 rest_pts]; [done|]. simpl in Hrest, Hn, Hcount.
    destruct (decide _) as [|_]; [lia|].
    unfold bind at 1. rewrite (load_run _ _ f1).
    2:{ rewrite Hfl. by apply list_lookup_middle. }
    destruct (proj1 (base_type_values f1) Hbase) as [-> Hnb].
    unfold bind at 1. rewrite (load_run _ _ q1).
    2:{ rewrite Hpts. by apply list_lookup_middle. }
    unfold bind at 1. rewrite PATH_AddEntry_run, heap_grants_reserve by done.
    cbn [negb].
    replace (length pre_fl + 1)%nat with (length (pre_fl ++ [f1]))
      by (rewrite length_app; simpl; lia).
    destruct (IH fl Htriples ltac:(lia) rest_pts (pre_pts ++ [q1]) (pre_fl ++ [f1]) q1
                (appended (grown q (count q + 1)) [q1] [f1])) as (q' & Hrun & Hq' & Hp' & Hf').
    + lia.
    + rewrite !length_app. simpl. lia.
    + by rewrite <- app_assoc.
    + by rewrite <- app_assoc.
    + intros _ _ _ _. by rewrite last_snoc.
    + apply parallel_appended; [by apply parallel_grown|done].
    + exists q'. split; [done|]. split; [done|].
      destruct (grown_fields q (count q + 1)) as (Hg1 & Hg2 & _).
      simpl in Hp', Hf'. rewrite Hg1 in Hp'. rewrite Hg2 in Hf'.
      cbn [zip zip_with flattened]. rewrite Hnb. cbn [fmap list_fmap fst snd].
      rewrite Hp', Hf', <- !app_assoc. done.
  - destruct rest_pts as [|q1 [|q2 [|q3 rest_pts]]]; [done|done|done|].
    simpl in Hrest, Hn, Hcount.
    destruct (decide _) as [|_]; [lia|].
    unfold bind at 1. rewrite (load_run _ _ f1).
    2:{ rewrite Hfl. by apply list_lookup_middle. }
    destruct (proj2 (base_type_values f1) Hb1) as [-> ->].
    unfold bind at 1. rewrite (load_run _ _ f3).
    2:{ rewrite Hfl. by rewrite lookup_after. }
    pose proof (Hprev f1 _ eq_refl Hb1) as Hlast.
    assert (length pre_fl <> 0)%nat as Hne.
    { rewrite <- Hpre. destruct pre_pts; [done|simpl; lia]. }
    unfold bind at 1. destruct (decide (length pre_fl = 0)%nat) as [|_]; [done|].
    unfold ret at 1.
    unfold bind at 1. rewrite (load_run _ _ prev).
    2:{ rewrite Hpts, lookup_app_l by lia. rewrite last_lookup in Hlast.
        rewrite <- Hlast. f_equal. lia. }
    unfold bind at 1. rewrite (load_run _ _ q1).
    2:{ rewrite Hpts. by apply list_lookup_middle. }
    unfold bind at 1. rewrite (load_run _ _ q2).
    2:{ rewrite Hpts, <- Hpre. by rewrite lookup_after. }
    unfold bind at 1. rewrite (load_run _ _ q3).
    2:{ rewrite Hpts, <- Hpre. by rewrite lookup_after. }
    unfold bind at 1.
    destruct (PATH_AddFlatBezier_run prev q1 q2 q3 (has_close f3) q Hcontract Hheap Hq)
      as (q1' & -> & Hq1' & Hp1' & Hf1').
    cbn [negb].
    replace (length pre_fl + 3)%nat with (length (pre_fl ++ [f1; f2; f3]))
      by (rewrite length_app; simpl; lia).
    destruct (IH fl Htriples ltac:(lia) rest_pts (pre_pts ++ [q1; q2; q3])
                (pre_fl ++ [f1; f2; f3]) q3 q1') as (q' & Hrun & Hq' & Hp' & Hf').
    + lia.
    + rewrite !length_app. simpl. lia.
    + by rewrite <- app_assoc.
    + by rewrite <- app_assoc.
    + intros _ _ _ _. change [q1; q2; q3] with ([q1; q2] ++ [q3]).
      by rewrite app_assoc, last_snoc.
    + done.
    + exists q'. split; [done|]. split; [done|].
      cbn [zip zip_with flattened]. destruct (proj2 (base_type_values f1) Hb1) as [_ ->].
      rewrite !fmap_app, Hp', Hf', Hp1', Hf1', <- !app_assoc. done.
Qed.

(** The bound on the iterations of [flatten_loop] is never what stops it:
    any two bounds of at least [count P - srcpt] give the same run. *)
Lemma flatten_loop_bound P n :
  forall m srcpt q,
    (count P - srcpt <= n)%nat -> (count P - srcpt <= m)%nat ->
    flatten_loop P n srcpt q = flatten_loop P m srcpt q.
Proof.
  induction n as [|n IH]; intros [|m] srcpt q Hn Hm; cbn [flatten_loop]; try done.
  - destruct (decide _); [done|lia].
  - destruct (decide _); [done|lia].
  - destruct (decide _) as [|Hlt]; [done|].
    unfold bind, ret, fault.
    repeat
      (match goal with
       | |- context [load ?l ?i ?q0] => destruct (load l i q0) as [[? ?]| |]
       | |- context [PATH_AddEntry ?pt ?f ?q0] =>
           destruct (PATH_AddEntry pt f q0) as [[[] ?]| |]
       | |- context [PATH_AddFlatBezier ?a ?b ?c ?d ?e ?q0] =>
           destruct (PATH_AddFlatBezier a b c d e q0) as [[[] ?]| |]
       | |- context [if ?c then _ else _] => destruct c
       end; try done; try (apply IH; lia)).
Qed.

Lemma Forall_zip_snd (Q : BYTE -> Prop) (pts : list POINT) (fl : list BYTE) :
  Forall Q fl -> Forall (fun e : entry => Q e.2) (zip pts fl).
Proof.
  intros Hfl. revert pts.
  induction Hfl as [|f fl Hf Hfl IH]; intros [|q pts]; simpl; by constructor.
Qed.

Lemma line_tags_no_bezier n closed :
  Forall (fun f => base_type f <> PT_BEZIERTO) (line_tags n closed).
Proof.
  unfold line_tags. apply Forall_app. split.
  - by apply Forall_replicate.
  - apply Forall_singleton. by destruct closed.
Qed.

Lemma flattened_no_bezier n :
  forall es prev, (length es <= n)%nat ->
    Forall (fun e : entry => base_type e.2 <> PT_BEZIERTO) (flattened prev es).
Proof.
  induction n as [|n IH]; intros es prev Hn.
  { destruct es; [constructor|simpl in Hn; lia]. }
  destruct es as [|[q1 f1] es1]; [constructor|]. simpl in Hn. cbn [flattened].
  destruct (Z.eqb_spec (base_type f1) PT_BEZIERTO) as [Hb|Hb].
  - destruct es1 as [|[q2 f2] [|[q3 f3] es3]]; [constructor|constructor|].
    simpl in Hn. apply Forall_app. split; [|apply IH; lia].
    unfold bezier_lines. destruct (GDI_Bezier prev q1 q2 q3) as [[|p0 pts1]|];
      [constructor| |constructor].
    apply (Forall_zip_snd (fun f => base_type f <> PT_BEZIERTO)), line_tags_no_bezier.
  - constructor; [done|]. apply IH. lia.
Qed.

(** C3. On a path that satisfies the structural invariants, the flattener
    returns a path without BEZIER tags whose entries are those of the
    source in order, MOVE and LINE entries copied as they are and every
    BEZIER triple replaced by the polyline of the external flattener for the
    four points that start at the entry before the triple, first point
    dropped, the others tagged LINE, the last of them LINE|CLOSE when the
    third entry of the triple carries CLOSE ([flatten_entries]).  The
    external flattener honours its contract and the heap grants the
    blocks. *)
Theorem C3_flatten_replaces_beziers (P : gdi_path) :
  structural P -> bezier_contract -> heap_grants ->
  exists P',
    PATH_FlattenPath P = Done (Some P', None) /\
    entries P' = flatten_entries (entries P) /\
    Forall (fun f => base_type f <> PT_BEZIERTO) (flags P').
Proof.
  intros [Hpar Hstruct] Hcontract Hheap.
  unfold PATH_FlattenPath, alloc_gdi_path. rewrite !Hheap. cbn [negb orb].
  set (new_path := mk_gdi_path [] [] _ true _).
  assert (bezier_triples (flags P)) as Htriples.
  { destruct (flags P) as [|f0 fl]; [constructor|].
    destruct Hstruct as [-> Hfl]. constructor; [by left|done]. }
  destruct (flatten_loop_run P Hcontract Hheap (count P) (flags P) Htriples ltac:(done)
              (points P) [] [] (mkPOINT 0 0) new_path) as (P' & Hrun & HP' & Hpts & Hfl);
    try done.
  { intros f1 fl' Hflags Hb. rewrite Hflags in Hstruct. destruct Hstruct as [-> _]. done. }
  simpl length in Hrun. rewrite Hrun. exists P'. split; [done|].
  simpl in Hpts, Hfl. fold (entries P) in Hpts, Hfl.
  assert (entries P' = flattened (mkPOINT 0 0) (entries P)) as Hentries.
  { unfold entries at 1. by rewrite Hpts, Hfl, zip_fst_snd. }
  split.
  - rewrite Hentries. unfold entries. destruct (points P) as [|q0 pts], (flags P) as [|f0 fl];
      try done.
    destruct Hstruct as [-> _]. done.
  - rewrite Hfl. apply Forall_fmap.
    apply (flattened_no_bezier (length (entries P))). done.
Qed.

(** ** GetPath *)

Lemma memcpy_run {A} (dst src : list A) :
  (length src <= length dst)%nat -> memcpy dst src = Done (src ++ drop (length src) dst).
Proof. intros Hlen. unfold memcpy. destruct (decide _); [done|lia]. Qed.

(** C4, amended. With no committed path [GetPath] fails with
    CAN_NOT_COMPLETE.  With a committed path of [n] entries: size 0 returns
    [n] and copies nothing; another size below [n] fails with
    INVALID_PARAMETER and copies nothing; a size of at least [n] copies the
    [n] points and the [n] tags, and then returns [n] with the points
    mapped to logical coordinates when the inverse mapping succeeds, and
    fails with CAN_NOT_COMPLETE, the device points left in the buffer, when
    it does not.  The device context, committed path included, is as it
    was in every case. *)
Theorem C4_get_path_cases (dc : DC) (pPoints : list POINT) (pTypes : list BYTE) (nSize : INT) :
  (dc_path dc = None ->
     GetPath dc pPoints pTypes nSize =
     Done (mk_reply (-1) (Some ERROR_CAN_NOT_COMPLETE) dc, pPoints, pTypes)) /\
  (forall path, dc_path dc = Some path -> parallel path ->
     let n := count path in
     (nSize = 0 ->
        GetPath dc pPoints pTypes nSize =
        Done (mk_reply (Z.of_nat n) None dc, pPoints, pTypes)) /\
     (nSize <> 0 -> nSize < Z.of_nat n ->
        GetPath dc pPoints pTypes nSize =
        Done (mk_reply (-1) (Some ERROR_INVALID_PARAMETER) dc, pPoints, pTypes)) /\
     (nSize <> 0 -> Z.of_nat n <= nSize ->
      (n <= length pPoints)%nat -> (n <= length pTypes)%nat ->
        GetPath dc pPoints pTypes nSize =
        match DPtoLP (points path) with
        | Some logical =>
            Done (mk_reply (Z.of_nat n) None dc,
                  logical ++ drop n pPoints, flags path ++ drop n pTypes)
        | None =>
            Done (mk_reply (-1) (Some ERROR_CAN_NOT_COMPLETE) dc,
                  points path ++ drop n pPoints, flags path ++ drop n pTypes)
        end)).
Proof.
  split.
  - intros Hnone. unfold GetPath. by rewrite Hnone.
  - intros path Hsome Hpar n. unfold GetPath. rewrite Hsome. fold n.
    split; [|split].
    + intros ->. done.
    + intros Hnz Hlt. apply Z.eqb_neq in Hnz. apply Z.ltb_lt in Hlt.
      by rewrite Hnz, Hlt.
    + intros Hnz Hge Hpts Htypes. apply Z.eqb_neq in Hnz. apply Z.ltb_ge in Hge.
      rewrite Hnz, Hge.
      assert (take n (points path) = points path) as ->.
      { apply take_ge. unfold n, count. by rewrite Hpar. }
      assert (length (points path) = n) as Hlen by exact Hpar.
      rewrite !memcpy_run by (done || lia).
      rewrite Hlen. fold (count path). fold n.
      rewrite take_app_length' by done.
      destruct (DPtoLP (points path)); [|done].
      rewrite drop_app_length' by done. done.
Qed.

(** C4 as stated fails: a size of at least [n] does not always return [n].
    Under a world transform that cannot be inverted, [GetPath] on the
    triangle with room for its three entries returns -1 with
    CAN_NOT_COMPLETE. *)
Lemma C4_counterexample :
  let dc := mk_DC (Some triangle) solid_pen in
  let room := [mkPOINT 0 0; mkPOINT 0 0; mkPOINT 0 0] in
  Z.of_nat (count triangle) <= 3 /\
  GetPath (H := singular_host) dc room [0; 0; 0] 3 =
  Done (mk_reply (-1) (Some ERROR_CAN_NOT_COMPLETE) dc, points triangle, flags triangle).
Proof. split; [by vm_compute|reflexivity]. Qed.

(** ** Widener *)

(** C9, amended. When the selected pen is an extended pen (OBJ_EXTPEN) of
    type COSMETIC, [WidenPath] fails with CAN_NOT_COMPLETE and the device
    context, committed path included, is as it was; the block for the
    description of the pen has been granted. *)
Theorem C9_widen_refuses_cosmetic_extpen (dc : DC) :
  GetObjectType (dc_hPen dc) = OBJ_EXTPEN ->
  pen_type (dc_hPen dc) = PS_COSMETIC ->
  HeapAlloc_ok (GetObjectW_size (dc_hPen dc)) = true ->
  nulldrv_WidenPath dc = Done (mk_reply false (Some ERROR_CAN_NOT_COMPLETE) dc).
Proof.
  intros Htype Hcosmetic Hheap. unfold nulldrv_WidenPath, PATH_WidenPath.
  destruct (dc_path dc) as [path|]; [|done].
  destruct (decide (GetObjectW_size (dc_hPen dc) = 0)%nat); [done|].
  rewrite Hheap, Htype. cbn [negb]. change (OBJ_EXTPEN =? OBJ_PEN) with false.
  change (OBJ_EXTPEN =? OBJ_EXTPEN) with true. cbv iota.
  unfold pen_type in Hcosmetic. rewrite Hcosmetic.
  change (PS_COSMETIC =? PS_COSMETIC) with true. done.
Qed.

(** C9 as stated fails: a pen whose style has type COSMETIC is not always
    refused.  With a stock solid pen (OBJ_PEN, no type bits in its style
    word) selected, [WidenPath] on the triangle succeeds and replaces the
    committed path. *)
Lemma C9_counterexample :
  let dc := mk_DC (Some triangle) solid_pen in
  pen_type (dc_hPen dc) = PS_COSMETIC /\
  exists path,
    nulldrv_WidenPath (H := plain_host) dc =
    Done (mk_reply true None (mk_DC (Some path) solid_pen)) /\
    path <> triangle.
Proof.
  split; [reflexivity|]. eexists. split; [vm_compute; reflexivity|]. discriminate.
Qed.

(** ** What the recorder keeps *)

Lemma bezier_runs_congr fl :
  forall k k', (k mod 3 = k' mod 3)%nat -> bezier_runs fl k = bezier_runs fl k'.
Proof.
  induction fl as [|f fl IH]; intros k k' Hk; cbn [bezier_runs].
  - by rewrite Hk.
  - destruct (base_type f =? PT_BEZIERTO).
    + apply IH. replace (S k) with (k + 1)%nat by lia.
      replace (S k') with (k' + 1)%nat by lia.
      rewrite (Nat.Div0.add_mod k), (Nat.Div0.add_mod k'). by rewrite Hk.
    + by rewrite Hk.
Qed.

Lemma bezier_runs_app fl fl' :
  forall k, bezier_runs fl k = true -> bezier_runs fl' 0 = true ->
            bezier_runs (fl ++ fl') k = true.
Proof.
  induction fl as [|f fl IH]; intros k Hfl Hfl'; cbn [bezier_runs app] in *.
  - apply Nat.eqb_eq in Hfl. rewrite <- Hfl'. apply bezier_runs_congr.
    rewrite Hfl. done.
  - destruct (base_type f =? PT_BEZIERTO); [by apply IH|].
    apply andb_true_iff in Hfl as [-> Hfl]. by apply IH.
Qed.

Lemma bezier_runs_plain fl :
  Forall (fun f => base_type f <> PT_BEZIERTO) fl -> bezier_runs fl 0 = true.
Proof.
  induction 1 as [|f fl Hf Hfl IH]; cbn [bezier_runs]; [done|].
  apply Z.eqb_neq in Hf. by rewrite Hf.
Qed.

Lemma bezier_runs_replicate n k :
  bezier_runs (replicate n PT_BEZIERTO) k = ((k + n) mod 3 =? 0)%nat.
Proof.
  revert k. induction n as [|n IH]; intros k; cbn [replicate bezier_runs].
  - by rewrite Nat.add_0_r.
  - change (base_type PT_BEZIERTO =? PT_BEZIERTO) with true. cbv iota.
    rewrite IH. do 2 f_equal. lia.
Qed.

Lemma base_type_close f : base_type (Z.lor f PT_CLOSEFIGURE) = base_type f.
Proof.
  unfold base_type, PT_CLOSEFIGURE. rewrite Z.land_lor_distr_l.
  change (Z.land 1 (Z.lnot 1)) with 0. apply Z.lor_0_r.
Qed.

Lemma bezier_runs_close fl :
  forall i f k, fl !! i = Some f ->
    bezier_runs (<[i := Z.lor f PT_CLOSEFIGURE]> fl) k = bezier_runs fl k.
Proof.
  induction fl as [|f0 fl IH]; intros [|i] f k Hi; try done.
  - injection Hi as ->. cbn [insert list_insert bezier_runs]. by rewrite base_type_close.
  - change (<[S i:=Z.lor f PT_CLOSEFIGURE]> (f0 :: fl))
      with (f0 :: <[i:=Z.lor f PT_CLOSEFIGURE]> fl).
    cbn [bezier_runs]. by rewrite !(IH i f).
Qed.

Lemma good_flags_app fl added :
  good_flags fl -> bezier_runs added 0 = true ->
  (fl = [] -> forall f, added !! 0%nat = Some f -> base_type f = PT_MOVETO) ->
  good_flags (fl ++ added).
Proof.
  intros [Hfirst Hruns] Hadded Hhead. split.
  - intros f Hf. destruct fl as [|f0 fl]; [by apply Hhead|].
    simpl in Hf. apply Hfirst. done.
  - by apply bezier_runs_app.
Qed.

Lemma good_flags_close fl i f :
  good_flags fl -> fl !! i = Some f ->
  good_flags (<[i := Z.lor f PT_CLOSEFIGURE]> fl).
Proof.
  intros [Hfirst Hruns] Hi. split.
  - intros f0 Hf0. destruct i as [|i].
    + rewrite list_lookup_insert_eq in Hf0 by (by eapply lookup_lt_Some).
      injection Hf0 as <-. rewrite base_type_close. by apply Hfirst.
    + rewrite list_lookup_insert_ne in Hf0 by done. by apply Hfirst.
  - by rewrite bezier_runs_close.
Qed.

Lemma stroke_start_flags_good p :
  bezier_runs (stroke_start_flags p) 0 = true /\
  (flags p = [] -> stroke_start_flags p = [PT_MOVETO]).
Proof.
  unfold stroke_start_flags. split; [by destruct (needs_new_stroke p)|].
  intros Hfl. unfold needs_new_stroke, count. rewrite Hfl. simpl.
  by rewrite orb_true_r.
Qed.

Lemma start_new_stroke_recorded p :
  recorded p ->
  exists ok p', start_new_stroke p = Done (ok, p') /\ recorded p'.
Proof.
  intros [Hp Hgood].
  destruct (start_new_stroke_cases p Hp) as (ok & p' & Hrun & Hp' & _ & Ht & Hf & _).
  exists ok, p'. split; [done|]. split; [done|].
  destruct ok.
  - destruct (Ht eq_refl) as (_ & -> & _).
    destruct (stroke_start_flags_good p) as [Hruns Hhead].
    apply good_flags_app; [done|done|].
    intros Hfl f. rewrite (Hhead Hfl). by intros [= <-].
  - destruct (Hf eq_refl) as (_ & ->). done.
Qed.



Lemma appended_recorded p m pts added :
  recorded p -> length pts = length added -> bezier_runs added 0 = true ->
  (flags p = [] -> forall f, added !! 0%nat = Some f -> base_type f = PT_MOVETO) ->
  recorded (appended (grown p m) pts added).
Proof.
  intros [Hp Hgood] Hlen Hruns Hhead.
  destruct (grown_fields p m) as (Hg1 & Hg2 & _). split.
  - apply parallel_appended; [by apply parallel_grown|done].
  - simpl. rewrite Hg2. by apply good_flags_app.
Qed.








Lemma recorded_close p f :
  recorded p -> last (flags p) = Some f ->
  recorded (set_flags (<[(count p - 1)%nat := Z.lor f PT_CLOSEFIGURE]> (flags p)) p).
Proof.
  intros [Hp Hgood] Hf. split.
  - unfold parallel. simpl. by rewrite length_insert.
  - simpl. apply good_flags_close; [done|]. by rewrite last_flag_lookup.
Qed.






Lemma begin_path_recorded x0 y0 p :
  begin_path x0 y0 = Some p -> recorded p.
Proof.
  unfold begin_path, alloc_gdi_path.
  destruct (negb (HeapAlloc_ok sizeof_gdi_path)); [done|].
  destruct (_ || _); [done|]. intros [= <-]. split; [done|]. by split.
Qed.

End Properties.



(** * The properties at sample inputs *)

(** C1 fails on the code.  [Polyline] with a single point (and likewise
    [PolyBezier], whose count 1 is congruent to 1 mod 3) leaves a lone MOVE
    entry, and [CloseFigure] then sets CLOSE on it: the first tag of the
    path is MOVE|CLOSE, not MOVE, and the assertion of [path_to_region] on
    the first tag fails when the path is turned into a region. *)
Theorem C1_close_figure_on_lone_move :
  let calls := [Polyline [mkPOINT 1 1]; CloseFigure] in
  let calls' := [PolyBezier [mkPOINT 1 1]; CloseFigure] in
  Forall legal calls /\ Forall legal calls' /\
  exists p,
    run_calls (H := plain_host) calls fresh_path = Done (tt, p) /\
    run_calls (H := plain_host) calls' fresh_path = Done (tt, p) /\
    entries p = [(mkPOINT 1 1, Z.lor PT_MOVETO PT_CLOSEFIGURE)] /\
    flags p !! 0%nat <> Some PT_MOVETO /\
    PathToRegion (H := plain_host) (mk_DC (Some p) solid_pen) = AssertFailed.
Proof.
  split; [repeat constructor|]. split; [repeat constructor|].
  eexists. split; [vm_compute; reflexivity|]. split; [reflexivity|].
  split; [reflexivity|]. split; [discriminate|reflexivity].
Qed.

(** C6 fails on the code.  The total of the counts is accumulated in a
    [UINT] and nothing checks it: for the counts 2147483647, 2147483647
    and 2, each of them 2 or more, it wraps around to 0.  [poly_polygon]
    and [poly_poly_line] then append no point at all, and the loop that
    retags the first entry of every segment writes outside the entries of
    the path, whatever the caller's array of points is. *)
Theorem C6_poly_counts_wrap_around (pts : list POINT) :
  let counts := [2147483647; 2147483647; 2] in
  counts_ok counts = true /\ total counts = 2 ^ 32 /\
  sum_counts counts 0 = Some 0 /\
  pathdrv_PolyPolygon (H := plain_host) pts counts fresh_path = Fault /\
  pathdrv_PolyPolyline (H := plain_host) pts counts fresh_path = Fault.
Proof.
  intros counts. split; [reflexivity|]. split; [reflexivity|]. split; [reflexivity|].
  split; reflexivity.
Qed.

(** C7 fails on the code.  On a path whose arrays are full, with a heap
    that cannot grow them, the stream MOVE (1,1), LINE (2,2), BEZIER is
    not one [poly_draw] accepts, and the call returns failure; but it
    returns at the LINE, whose synthetic MOVE finds no room, before it
    comes to the lone BEZIER, and that [return FALSE] does not restore
    the position as the rejection of a bad tag does: the stored current
    position stays at (1,1), where the MOVE step put it, and is not back at
    (0,0), its value on entry. *)
Theorem C7_poly_draw_position_not_restored :
  let pts := [mkPOINT 1 1; mkPOINT 2 2; mkPOINT 3 3] in
  let types := [PT_MOVETO; PT_LINETO; PT_BEZIERTO] in
  begin_path (H := scarce_host) 0 0 = Some fresh_path /\
  pathdrv_Polyline (H := scarce_host) sixteen_points 16 fresh_path = Done (true, full_path) /\
  ~ accepted_types types /\
  pos full_path = mkPOINT 0 0 /\
  exists p',
    pathdrv_PolyDraw (H := scarce_host) pts types full_path = Done (false, p') /\
    pos p' = mkPOINT 1 1 /\ pos p' <> pos full_path /\
    points p' = points full_path /\ flags p' = flags full_path.
Proof.
  intros pts types. split; [reflexivity|]. split; [reflexivity|]. split.
  { intros Hacc. inversion Hacc as [|? Hline| | |]; subst.
    inversion Hline as [| |? Hbez| |]; subst. inversion Hbez. }
  split; [reflexivity|].
  eexists. split; [vm_compute; reflexivity|].
  split; [reflexivity|]. split; [discriminate|]. split; reflexivity.
Qed.

Lemma plain_host_heap_grants : heap_grants (H := plain_host).
Proof. intros n. reflexivity. Defined.

Lemma plain_host_bezier_contract : bezier_contract (H := plain_host).
Proof. intros pt0 pt1 pt2 pt3. exists [pt0; pt3]. split; [reflexivity|simpl; lia]. Defined.

Lemma half_ellipse_goes_through :
  arc_goes_through (FP := plain_float) 8 0 0 10 8 10 4 0 4
    AD_COUNTERCLOCKWISE half_ellipse_spans.
Proof. vm_compute. repeat split; reflexivity. Defined.

Lemma C2_stroke_continuation_witness :
  parallel triangle /\
  (exists p',
     add_log_points_new_stroke (H := plain_host) [mkPOINT 7 7] 1 PT_LINETO triangle
       = Done (true, p') /\
     points p' = points triangle ++ [pos triangle] ++ [mkPOINT 7 7] /\
     flags p' = flags triangle ++ [PT_MOVETO] ++ [PT_LINETO] /\
     last (points p') = Some (pos p')) /\
  (exists p' pts,
     pathdrv_ArcTo (H := plain_host) (FP := plain_float) 8 0 0 10 8 10 4 0 4 triangle
       = Done (Some true, p') /\
     points p' = points triangle ++ [pos triangle] ++ pts /\ length pts = 10%nat /\
     flags p' = flags triangle ++ [PT_MOVETO] ++ PT_LINETO :: replicate 9 PT_BEZIERTO /\
     last (points p') = Some (pos p')) /\
  (let pts := [mkPOINT 1 1; mkPOINT 2 2; mkPOINT 3 3] in
   pathdrv_PolyDraw (H := plain_host) pts
     [PT_MOVETO; PT_LINETO; Z.lor PT_LINETO PT_CLOSEFIGURE] triangle =
   (ok <- add_log_points_new_stroke (H := plain_host) [mkPOINT 2 2; mkPOINT 3 3] 1 PT_LINETO ;;
    if negb ok then ret false
    else
      PolyDraw_close PT_LINETO 3 ;;
      PolyDraw_loop (H := plain_host) [mkPOINT 3 3] [Z.lor PT_LINETO PT_CLOSEFIGURE]
        (mkPOINT 5 10) 3)
     (set_pos (mkPOINT 1 1) (set_newStroke true triangle))).
Proof.
  split; [reflexivity|].
  destruct (C2_stroke_continuation (H := plain_host) (FP := plain_float) triangle eq_refl)
    as (_ & Hext & Hprogress & _ & _ & _ & _ & _ & Harcto & Hdraw & Hmove & _).
  destruct (C2_stroke_continuation (H := plain_host) (FP := plain_float)
              (set_pos (mkPOINT 1 1) (set_newStroke true triangle)) eq_refl)
    as (_ & _ & _ & _ & _ & _ & _ & _ & _ & _ & _ & Hline & _).
  split; [|split].
  - destruct (Hprogress [mkPOINT 7 7] 1%nat PT_LINETO) as [p' Hrun];
      [simpl; lia|exact plain_host_heap_grants|].
    exists p'. split; [exact Hrun|].
    apply (Hext [mkPOINT 7 7] 1%nat PT_LINETO p'); [simpl; lia|exact Hrun].
  - exact (Harcto 8%nat 0 0 10 8 10 4 0 4 half_ellipse_spans ltac:(discriminate)
             ltac:(discriminate) plain_host_heap_grants half_ellipse_goes_through).
  - intros pts.
    rewrite (Hdraw pts [PT_MOVETO; PT_LINETO; Z.lor PT_LINETO PT_CLOSEFIGURE]).
    unfold pts.
    rewrite (Hmove (mkPOINT 1 1) [mkPOINT 2 2; mkPOINT 3 3]
               [PT_LINETO; Z.lor PT_LINETO PT_CLOSEFIGURE] (pos triangle)
               (find_lastmove (flags triangle) 0 0)).
    exact (Hline [mkPOINT 2 2; mkPOINT 3 3] PT_LINETO [Z.lor PT_LINETO PT_CLOSEFIGURE]
             (mkPOINT 5 10) 3%nat (or_introl eq_refl)).
Defined.

Lemma C3_flatten_replaces_beziers_witness :
  structural closed_cubic /\
  exists P',
    PATH_FlattenPath (H := plain_host) closed_cubic = Done (Some P', None) /\
    entries P' = [(mkPOINT 0 0, PT_MOVETO); (mkPOINT 3 3, Z.lor PT_LINETO PT_CLOSEFIGURE)] /\
    Forall (fun f => base_type f <> PT_BEZIERTO) (flags P').
Proof.
  assert (structural closed_cubic) as Hstructural.
  { split; [reflexivity|]. split; [reflexivity|].
    apply triples_bezier; try reflexivity. apply triples_nil. }
  split; [exact Hstructural|].
  destruct (C3_flatten_replaces_beziers (H := plain_host) closed_cubic Hstructural
              plain_host_bezier_contract plain_host_heap_grants)
    as (P' & Hrun & Hentries & Hflags).
  exists P'. split; [exact Hrun|]. split; [exact Hentries|exact Hflags].
Defined.

Lemma C4_get_path_cases_witness :
  let dc := mk_DC (Some triangle) solid_pen in
  let room := [mkPOINT 0 0; mkPOINT 0 0; mkPOINT 0 0; mkPOINT 9 9] in
  parallel triangle /\
  GetPath (H := plain_host) dc room [0; 0; 0; 9] 0 =
    Done (mk_reply 3 None dc, room, [0; 0; 0; 9]) /\
  GetPath (H := plain_host) dc room [0; 0; 0; 9] 2 =
    Done (mk_reply (-1) (Some ERROR_INVALID_PARAMETER) dc, room, [0; 0; 0; 9]) /\
  GetPath (H := plain_host) dc room [0; 0; 0; 9] 4 =
    Done (mk_reply 3 None dc, points triangle ++ [mkPOINT 9 9], flags triangle ++ [9]).
Proof.
  intros dc room. split; [reflexivity|].
  destruct (C4_get_path_cases (H := plain_host) dc room [0; 0; 0; 9] 0) as [_ Hzero].
  destruct (C4_get_path_cases (H := plain_host) dc room [0; 0; 0; 9] 2) as [_ Hsmall].
  destruct (C4_get_path_cases (H := plain_host) dc room [0; 0; 0; 9] 4) as [_ Hcopy].
  split; [|split].
  - apply (Hzero triangle eq_refl eq_refl). reflexivity.
  - apply (Hsmall triangle eq_refl eq_refl); [discriminate|reflexivity].
  - apply (Hcopy triangle eq_refl eq_refl);
      [discriminate|discriminate|unfold count; simpl; lia|unfold count; simpl; lia].
Defined.


Lemma poly_draw_rejects_bad_streams_witness :
  let pts := [mkPOINT 1 1; mkPOINT 2 2; mkPOINT 3 3] in
  let types := [PT_LINETO; PT_BEZIERTO; PT_LINETO] in
  parallel triangle /\ length pts = length types /\ ~ accepted_types types /\
  exists p',
    pathdrv_PolyDraw (H := plain_host) pts types triangle = Done (false, p') /\
    pos p' = pos triangle.
Proof.
  intros pts types.
  assert (~ accepted_types types) as Hbad.
  { intros Hacc. inversion Hacc as [| |? Hrest| |]; subst. inversion Hrest. }
  split; [reflexivity|]. split; [reflexivity|]. split; [exact Hbad|].
  destruct (poly_draw_rejects_bad_streams (H := plain_host) pts types triangle eq_refl eq_refl Hbad)
    as (p' & Hrun & Hpos).
  exists p'. split; [exact Hrun|exact (Hpos plain_host_heap_grants)].
Defined.

Lemma C8_degenerate_arc_is_noop_witness :
  (5 = 5 \/ 0 = 10) /\
  pathdrv_Arc (H := plain_host) (FP := plain_float) 8 5 0 5 10 5 5 5 5 triangle
    = Done (Some true, triangle) /\
  pathdrv_ArcTo (H := plain_host) (FP := plain_float) 8 5 0 5 10 5 5 5 5 triangle
    = Done (Some true, triangle) /\
  pathdrv_Chord (H := plain_host) (FP := plain_float) 8 5 0 5 10 5 5 5 5 triangle
    = Done (Some true, triangle) /\
  pathdrv_Pie (H := plain_host) (FP := plain_float) 8 5 0 5 10 5 5 5 5 triangle
    = Done (Some true, triangle).
Proof.
  split; [left; reflexivity|].
  apply (C8_degenerate_arc_is_noop (H := plain_host) (FP := plain_float)
           8 5 0 5 10 5 5 5 5 triangle).
  left; reflexivity.
Defined.

Lemma C9_widen_refuses_cosmetic_extpen_witness :
  let dc := mk_DC (Some triangle) cosmetic_extpen in
  GetObjectType (dc_hPen dc) = OBJ_EXTPEN /\ pen_type (dc_hPen dc) = PS_COSMETIC /\
  nulldrv_WidenPath (H := plain_host) dc =
    Done (mk_reply false (Some ERROR_CAN_NOT_COMPLETE) dc).
Proof.
  intros dc. split; [reflexivity|]. split; [reflexivity|].
  apply (C9_widen_refuses_cosmetic_extpen (H := plain_host) dc); reflexivity.
Defined.

Lemma C10_region_counts_in_bounds_witness :
  flags triangle !! 0%nat = Some PT_MOVETO /\
  Forall (fun n => 2 <= n)%nat (move_runs (flags triangle)) /\
  (1 <= count triangle / 2)%nat /\
  region_polygons triangle = Done ([3], 1%nat) /\
  path_to_region (H := plain_host) triangle 1 = Done 2.
Proof.
  assert (Forall (fun n => 2 <= n)%nat (move_runs (flags triangle))) as Hruns.
  { apply Forall_cons. split; [simpl; lia|apply Forall_nil_2]. }
  split; [reflexivity|]. split; [exact Hruns|].
  destruct (C10_region_counts_in_bounds (H := plain_host) triangle 1 eq_refl Hruns)
    as (Hbound & Hregion & Hcall).
  split; [exact Hbound|]. split; [exact Hregion|exact (Hcall eq_refl)].
Defined.

(** * Further properties of the recorder *)

Section Recorder_properties.
Context `{Host}.

(** ** Stroke extensions one after the other *)

Lemma needs_new_stroke_false p :
  needs_new_stroke p = false ->
  newStroke p = false /\ (count p <> 0)%nat /\
  (exists f, last (flags p) = Some f /\ has_close f = false) /\
  last (points p) = Some (pos p).
Proof.
  unfold needs_new_stroke. intros Hn.
  apply orb_false_iff in Hn as [Hn Hpos].
  apply orb_false_iff in Hn as [Hn Hlast].
  apply orb_false_iff in Hn as [Hns Hcount].
  apply bool_decide_eq_false in Hcount, Hpos.
  split; [done|]. split; [done|]. split.
  - destruct (last (flags p)) as [f|]; [by exists f|done].
  - destruct (decide (last (points p) = Some (pos p))); [done|by destruct Hpos].
Qed.

Lemma needs_new_stroke_false_intro p f :
  newStroke p = false -> last (flags p) = Some f -> has_close f = false ->
  last (points p) = Some (pos p) -> needs_new_stroke p = false.
Proof.
  intros Hns Hf Hc Hpos. unfold needs_new_stroke. rewrite Hns, Hf, Hc. simpl.
  rewrite orb_false_r.
  apply orb_false_iff. split; apply bool_decide_eq_false.
  - unfold count. intros H0. apply length_zero_iff_nil in H0. by rewrite H0 in Hf.
  - intros Hne. by apply Hne.
Qed.

Lemma extension_continues pts cnt type p p' :
  parallel p -> (cnt <= length pts)%nat -> has_close type = false ->
  add_log_points_new_stroke pts cnt type p = Done (true, p') ->
  needs_new_stroke p' = false.
Proof.
  intros Hp Hcnt Htype Hrun.
  destruct (add_log_points_new_stroke_cases pts cnt type p Hp Hcnt)
    as (ok & q & Hrun' & Hq & Ht & _).
  rewrite Hrun in Hrun'. injection Hrun' as <- <-.
  destruct (Ht eq_refl) as (Hpts & Hfl & Hlast & Hns).
  assert (exists f, last (flags p') = Some f /\ has_close f = false) as (f & Hf & Hc).
  { rewrite Hfl. destruct cnt as [|k].
    - simpl. rewrite app_nil_r. unfold stroke_start_flags.
      destruct (needs_new_stroke p) eqn:Hn.
      + exists PT_MOVETO. by rewrite last_snoc.
      + rewrite app_nil_r. by apply needs_new_stroke_false in Hn as (_ & _ & Hf & _).
    - exists type. rewrite replicate_S_end, !app_assoc. by rewrite last_snoc. }
  by apply (needs_new_stroke_false_intro p' f).
Qed.

(** X1. Stroke extensions chain: after a successful extension whose tag has
    no CLOSE bit ([line_to], [polyline_to], [poly_bezier_to]) the path needs
    no new stroke, so the next extension appends its own points only; after
    [MoveTo] a new stroke is pending at the mapped position, with no entry
    added; and after [CloseFigure] on a non-empty path a new stroke is
    pending at the unchanged current position. *)
Theorem extensions_chain (p : gdi_path) :
  parallel p ->
  (forall pts cnt type p',
     (cnt <= length pts)%nat -> has_close type = false ->
     add_log_points_new_stroke pts cnt type p = Done (true, p') ->
     needs_new_stroke p' = false /\
     forall pts2 cnt2 type2 p'',
       (cnt2 <= length pts2)%nat ->
       add_log_points_new_stroke pts2 cnt2 type2 p' = Done (true, p'') ->
       points p'' = points p' ++ map LPtoDP (take cnt2 pts2) /\
       flags p'' = flags p' ++ replicate cnt2 type2) /\
  (forall x0 y0,
     exists p', pathdrv_MoveTo x0 y0 p = Done (true, p') /\
       entries p' = entries p /\ pos p' = LPtoDP (mkPOINT x0 y0) /\
       needs_new_stroke p' = true) /\
  ((count p <> 0)%nat ->
     exists p', pathdrv_CloseFigure p = Done (true, p') /\
       points p' = points p /\ pos p' = pos p /\ needs_new_stroke p' = true).
Proof.
  intros Hp. split; [|split].
  - intros pts cnt type p' Hcnt Htype Hrun.
    pose proof (extension_continues pts cnt type p p' Hp Hcnt Htype Hrun) as Hn.
    split; [done|]. intros pts2 cnt2 type2 p'' Hcnt2 Hrun2.
    destruct (add_log_points_new_stroke_cases pts cnt type p Hp Hcnt)
      as (ok & q & Hrun' & Hq & _).
    rewrite Hrun in Hrun'. injection Hrun' as <- <-.
    destruct (add_log_points_new_stroke_cases pts2 cnt2 type2 p' Hq Hcnt2)
      as (ok & q & Hrun' & _ & Ht & _).
    rewrite Hrun2 in Hrun'. injection Hrun' as <- <-.
    destruct (Ht eq_refl) as (Hpts & Hfl & _).
    unfold stroke_start_points in Hpts. unfold stroke_start_flags in Hfl.
    rewrite Hn in Hpts, Hfl. done.
  - intros x0 y0. eexists. split; [reflexivity|]. done.
  - intros Hc. unfold pathdrv_CloseFigure, bind, get.
    destruct (decide (count p = 0)%nat) as [H0|_]; [done|].
    destruct (last (flags p)) as [f|] eqn:Hf.
    2:{ apply last_None in Hf. unfold count in Hc. by rewrite Hf in Hc. }
    rewrite (close_figure_run p f Hf). eexists. split; [reflexivity|].
    split; [done|]. split; [done|].
    unfold needs_new_stroke. cbn [flags set_flags newStroke points pos].
    assert (last (<[(count p - 1)%nat := Z.lor f PT_CLOSEFIGURE]> (flags p))
            = Some (Z.lor f PT_CLOSEFIGURE)) as ->.
    { rewrite last_lookup, length_insert. unfold count.
      replace (Init.Nat.pred (length (flags p))) with (length (flags p) - 1)%nat by lia.
      apply list_lookup_insert_eq. unfold count in Hc. lia. }
    assert (has_close (Z.lor f PT_CLOSEFIGURE) = true) as ->.
    { unfold has_close. rewrite Z.land_lor_distr_l.
      change (Z.land PT_CLOSEFIGURE PT_CLOSEFIGURE) with 1.
      apply negb_true_iff, Z.eqb_neq. intros H0.
      apply Z.lor_eq_0_iff in H0 as [_ H1]. done. }
    by rewrite orb_true_r.
Qed.


(** ** PolyDraw on the streams it accepts *)

Lemma PolyDraw_step_accepts pts cnt type t0 lastmove p (k : M bool) :
  heap_grants -> parallel p -> (S cnt <= length pts)%nat -> lastmove_ok lastmove p ->
  (forall p2, parallel p2 -> (lastmove < count p2)%nat ->
     exists p', k p2 = Done (true, p') /\ parallel p') ->
  exists p',
    (ok <- add_log_points_new_stroke pts (S cnt) type ;;
     if negb ok then ret false else PolyDraw_close t0 lastmove ;; k) p
    = Done (true, p') /\ parallel p'.
Proof.
  intros Hheap Hp Hcnt Hlm Hk.
  destruct (add_log_points_new_stroke_cases pts (S cnt) type p Hp Hcnt)
    as (ok & p1 & Hrun & Hp1 & Ht & _ & Hh).
  rewrite (Hh Hheap) in *. unfold bind at 1. rewrite Hrun. cbn [negb].
  destruct (Ht eq_refl) as (_ & Hfl1 & _).
  pose proof (lastmove_ok_extended lastmove p p1 cnt type Hlm Hfl1) as Hlm1.
  unfold bind at 1.
  destruct (PolyDraw_close_cases t0 lastmove p1 Hp1 Hlm1)
    as (p2 & -> & Hp2 & _ & Hc2 & _).
  apply Hk; [done|lia].
Qed.

Lemma PolyDraw_loop_accepts types :
  accepted_types types -> heap_grants ->
  forall pts orig_pos lastmove p,
    parallel p -> length pts = length types -> lastmove_ok lastmove p ->
    exists p', PolyDraw_loop pts types orig_pos lastmove p = Done (true, p') /\ parallel p'.
Proof.
  intros Hacc Hheap.
  induction Hacc as [|types Hacc IH|types Hacc IH|types Hacc IH|t3 types Ht3 Hacc IH];
    intros pts orig_pos lastmove p Hp Hlen Hlm.
  - by exists p.
  - destruct pts as [|q pts1]; [done|]. simpl in Hlen.
    cbn [PolyDraw_loop]. change (PT_MOVETO =? PT_MOVETO) with true. cbv iota.
    unfold bind, modify, get, PolyDraw_close, ret.
    change (has_close PT_MOVETO) with false. cbv beta iota.
    apply IH; simpl.
    + done.
    + rewrite drop_0. lia.
    + right. split; done.
  - destruct pts as [|q pts1]; [done|]. simpl in Hlen.
    cbn [PolyDraw_loop]. change (PT_LINETO =? PT_MOVETO) with false.
    change ((PT_LINETO =? PT_LINETO) || (PT_LINETO =? Z.lor PT_LINETO PT_CLOSEFIGURE))
      with true. cbv iota.
    apply PolyDraw_step_accepts; try done; [simpl; lia|].
    intros p2 Hp2 Hlm2. apply IH; [done| |by left].
    rewrite length_drop. simpl. lia.
  - destruct pts as [|q pts1]; [done|]. simpl in Hlen.
    cbn [PolyDraw_loop].
    change (Z.lor PT_LINETO PT_CLOSEFIGURE =? PT_MOVETO) with false.
    change ((Z.lor PT_LINETO PT_CLOSEFIGURE =? PT_LINETO)
            || (Z.lor PT_LINETO PT_CLOSEFIGURE =? Z.lor PT_LINETO PT_CLOSEFIGURE))
      with true. cbv iota.
    apply PolyDraw_step_accepts; try done; [simpl; lia|].
    intros p2 Hp2 Hlm2. apply IH; [done| |by left].
    rewrite length_drop. simpl. lia.
  - destruct pts as [|q pts1]; [done|]. simpl in Hlen.
    cbn [PolyDraw_loop]. change (PT_BEZIERTO =? PT_MOVETO) with false.
    change ((PT_BEZIERTO =? PT_LINETO) || (PT_BEZIERTO =? Z.lor PT_LINETO PT_CLOSEFIGURE))
      with false.
    change (PT_BEZIERTO =? PT_BEZIERTO) with true. cbv iota.
    assert ((true && (base_type t3 =? PT_BEZIERTO)) = true) as ->.
    { by destruct Ht3 as [->| ->]. }
    apply PolyDraw_step_accepts; try done; [simpl; lia|].
    intros p2 Hp2 Hlm2. apply IH; [done| |by left].
    rewrite length_drop. simpl. lia.
Qed.

(** X2. [poly_draw] goes through every stream made of MOVE, LINE (with or
    without CLOSE) and BEZIER triples (CLOSE on the third only): with one
    point per tag and a heap that grants the blocks, no assertion fails, no
    cell outside the arrays is touched, and the call returns success. *)
Theorem poly_draw_accepts (pts : list POINT) (types : list BYTE) (p : gdi_path) :
  parallel p -> length pts = length types -> accepted_types types -> heap_grants ->
  exists p', pathdrv_PolyDraw pts types p = Done (true, p') /\ parallel p'.
Proof.
  intros Hp Hlen Hacc Hheap. unfold pathdrv_PolyDraw, bind, get.
  apply PolyDraw_loop_accepts; try done. apply lastmove_ok_initial.
Qed.

(** ** Polylines, polygons and Bezier chains that start their own figure *)

Lemma fixup_polygon_tags k :
  <[S k := Z.lor PT_LINETO PT_CLOSEFIGURE]>
    (<[0%nat := PT_MOVETO]> (replicate (S (S k)) PT_LINETO))
  = PT_MOVETO :: replicate k PT_LINETO ++ [Z.lor PT_LINETO PT_CLOSEFIGURE].
Proof.
  cbn [replicate insert list_insert]. f_equal.
  change (PT_LINETO :: replicate k PT_LINETO) with (replicate (S k) PT_LINETO).
  rewrite replicate_S_end.
  rewrite <- (length_replicate k PT_LINETO) at 1. apply insert_last.
Qed.

Lemma pathdrv_Polyline_run pts n p :
  (n <= length pts)%nat ->
  pathdrv_Polyline pts n p =
  if reserve_ok p (count p + n)
  then Done (true, appended (grown p (count p + n)) (map LPtoDP (take n pts))
                     (match n with
                      | O => []
                      | S k => PT_MOVETO :: replicate k PT_LINETO
                      end))
  else Done (false, p).
Proof.
  intros Hn. unfold pathdrv_Polyline, bind at 1.
  rewrite add_log_points_run by done.
  destruct (reserve_ok p (count p + n)); [|done].
  set (q := grown p (count p + n)).
  destruct n as [|k]; [done|].
  destruct (decide (S k = 0)%nat); [lia|].
  unfold bind. replace (set_flag (count p)) with (set_flag (count q + 0))
    by (unfold q; rewrite count_grown; f_equal; lia).
  rewrite set_flag_appended by (rewrite length_replicate; lia). done.
Qed.

Lemma pathdrv_Polygon_run pts n p :
  (n <= length pts)%nat ->
  pathdrv_Polygon pts n p =
  if reserve_ok p (count p + n)
  then Done (true, appended (grown p (count p + n)) (map LPtoDP (take n pts))
                     (match n with
                      | O => []
                      | 1%nat => [PT_MOVETO]
                      | S (S k) =>
                          PT_MOVETO :: replicate k PT_LINETO
                            ++ [Z.lor PT_LINETO PT_CLOSEFIGURE]
                      end))
  else Done (false, p).
Proof.
  intros Hn. unfold pathdrv_Polygon, bind at 1.
  rewrite add_log_points_run by done.
  destruct (reserve_ok p (count p + n)); [|done].
  set (q := grown p (count p + n)).
  assert (count p = count q) as Hq by (unfold q; by rewrite count_grown).
  destruct n as [|[|k]].
  - done.
  - unfold bind. cbn [decide]. 
    destruct (decide (1 = 0)%nat); [lia|]. destruct (decide (1 < 1)%nat); [lia|].
    replace (set_flag (count p)) with (set_flag (count q + 0))
      by (rewrite Hq; f_equal; lia).
    rewrite set_flag_appended by (simpl; lia). done.
  - unfold bind.
    destruct (decide (S (S k) = 0)%nat); [lia|].
    destruct (decide (1 < S (S k))%nat); [|lia].
    replace (set_flag (count p)) with (set_flag (count q + 0))
      by (rewrite Hq; f_equal; lia).
    rewrite set_flag_appended by (rewrite length_replicate; lia).
    rewrite Hq. replace (S (S k) - 1)%nat with (S k) by lia.
    rewrite set_flag_appended by (rewrite length_insert, length_replicate; lia).
    by rewrite fixup_polygon_tags.
Qed.

Lemma pathdrv_PolyBezier_run pts k p :
  (S k <= length pts)%nat ->
  pathdrv_PolyBezier pts (S k) p =
  if reserve_ok p (count p + S k)
  then Done (true, appended (grown p (count p + S k)) (map LPtoDP (take (S k) pts))
                     (PT_MOVETO :: replicate k PT_BEZIERTO))
  else Done (false, p).
Proof.
  intros Hn. unfold pathdrv_PolyBezier, bind at 1.
  rewrite add_log_points_run by done.
  destruct (reserve_ok p (count p + S k)); [|done].
  set (q := grown p (count p + S k)).
  unfold bind. replace (set_flag (count p)) with (set_flag (count q + 0))
    by (unfold q; rewrite count_grown; f_equal; lia).
  rewrite set_flag_appended by (rewrite length_replicate; lia). done.
Qed.

(** X3. [Polyline], [Polygon] and [PolyBezier] start a figure of their own:
    they append the mapped points with the first one tagged MOVE, whatever
    the current position and the new-stroke latch are, and leave both as
    they were.  A polygon of at least two points ends on LINE|CLOSE; a
    polygon of one point is a lone MOVE without CLOSE; no point, no entry.
    The only failure is the heap refusing to grow the arrays, which leaves
    the path as it was. *)
Theorem figures_of_their_own (pts : list POINT) (n : nat) (p : gdi_path) :
  (n <= length pts)%nat ->
  let added tags :=
    if reserve_ok p (count p + n)
    then Done (true, appended (grown p (count p + n)) (map LPtoDP (take n pts)) tags)
    else Done (false, p) in
  pathdrv_Polyline pts n p =
    added (match n with O => [] | S k => PT_MOVETO :: replicate k PT_LINETO end) /\
  pathdrv_Polygon pts n p =
    added (match n with
           | O => []
           | 1%nat => [PT_MOVETO]
           | S (S k) =>
               PT_MOVETO :: replicate k PT_LINETO ++ [Z.lor PT_LINETO PT_CLOSEFIGURE]
           end) /\
  ((1 <= n)%nat ->
   pathdrv_PolyBezier pts n p = added (PT_MOVETO :: replicate (n - 1) PT_BEZIERTO)).
Proof.
  intros Hn added. split; [|split].
  - by apply pathdrv_Polyline_run.
  - by apply pathdrv_Polygon_run.
  - intros H1. destruct n as [|k]; [lia|].
    replace (S k - 1)%nat with k by lia. by apply pathdrv_PolyBezier_run.
Qed.

(** X4. A poly-polygon of one polygon is that polygon, and a poly-polyline
    of one polyline is that polyline: for a count of at least 2 the calls
    give the same result and the same path. *)
Theorem single_segment_polys (pts : list POINT) (n : nat) (p : gdi_path) :
  (2 <= n <= length pts)%nat -> Z.of_nat n < 2 ^ 32 ->
  pathdrv_PolyPolygon pts [Z.of_nat n] p = pathdrv_Polygon pts n p /\
  pathdrv_PolyPolyline pts [Z.of_nat n] p = pathdrv_Polyline pts n p.
Proof.
  intros Hn Hsmall.
  assert (total [Z.of_nat n] = Z.of_nat n) as Htotal by (unfold total; simpl; lia).
  assert (counts_ok [Z.of_nat n] = true) as Hok.
  { apply counts_ok_true. split; [done|]. constructor; [lia|constructor]. }
  destruct (poly_counts_accepted pts [Z.of_nat n] p Hok) as [Hgon Hline].
  { by rewrite Htotal. }
  { rewrite Htotal, Nat2Z.id. lia. }
  rewrite Htotal, Nat2Z.id in Hgon, Hline.
  rewrite Hgon, Hline, pathdrv_Polygon_run, pathdrv_Polyline_run by lia.
  destruct n as [|[|k]]; [lia|lia|].
  unfold polygon_tags, polyline_tags. cbn [map concat].
  rewrite Nat2Z.id, !app_nil_r.
  replace (S (S k) - 2)%nat with k by lia.
  replace (S (S k) - 1)%nat with (S k) by lia.
  done.
Qed.

(** ** Closing a figure *)

Lemma lor_close_twice f :
  Z.lor (Z.lor f PT_CLOSEFIGURE) PT_CLOSEFIGURE = Z.lor f PT_CLOSEFIGURE.
Proof. by rewrite <- Z.lor_assoc, Z.lor_diag. Qed.

(** X5. [CloseFigure] always succeeds, changes nothing on an empty path and
    otherwise only sets the CLOSE bit of the last tag: points, current
    position, latch and the other tags stay; closing twice is closing
    once. *)
Theorem close_figure_idempotent (p : gdi_path) :
  exists p',
    pathdrv_CloseFigure p = Done (true, p') /\
    pathdrv_CloseFigure p' = Done (true, p') /\
    points p' = points p /\ pos p' = pos p /\ newStroke p' = newStroke p /\
    allocated p' = allocated p /\ count p' = count p /\
    (forall i, (i + 1 < count p)%nat -> flags p' !! i = flags p !! i) /\
    last (flags p') = (fun f => Z.lor f PT_CLOSEFIGURE) <$> last (flags p).
Proof.
  unfold pathdrv_CloseFigure, bind, get.
  destruct (decide (count p = 0)%nat) as [H0|Hn].
  { exists p. rewrite decide_True by done. repeat split; try done.
    unfold count in H0. apply length_zero_iff_nil in H0. by rewrite H0. }
  destruct (last (flags p)) as [f|] eqn:Hf.
  2:{ apply last_None in Hf. unfold count in Hn. by rewrite Hf in Hn. }
  rewrite (close_figure_run p f Hf).
  set (p' := set_flags _ p).
  assert (count p' = count p) as Hc.
  { unfold p', count. simpl. by rewrite length_insert. }
  assert (last (flags p') = Some (Z.lor f PT_CLOSEFIGURE)) as Hf'.
  { rewrite last_lookup. fold (count p'). rewrite Hc. unfold p'. simpl.
    replace (Init.Nat.pred (count p)) with (count p - 1)%nat by lia.
    apply list_lookup_insert_eq. unfold count in *. lia. }
  exists p'. split; [done|]. split.
  { rewrite Hc. rewrite decide_False by done.
    rewrite (close_figure_run p' _ Hf'). rewrite Hc, lor_close_twice.
    unfold p' at 2. simpl. rewrite list_insert_insert_eq. done. }
  repeat split; try done.
  intros i Hi. unfold p'. simpl. apply list_lookup_insert_ne. lia.
Qed.


(** ** The arrays are never written past their end *)

Lemma keeps_ret {A} I (a : A) : keeps I (ret a).
Proof. intros p Hp. exact Hp. Qed.

Lemma keeps_bind {A B} I (m : M A) (k : A -> M B) :
  keeps I m -> (forall a, keeps I (k a)) -> keeps I (bind m k).
Proof.
  intros Hm Hk p Hp. unfold bind. specialize (Hm p Hp).
  destruct (m p) as [[a p']| |]; [|done|done]. by apply Hk.
Qed.

Lemma keeps_get I : keeps I get.
Proof. intros p Hp. exact Hp. Qed.

Lemma keeps_assert I b : keeps I (assert b).
Proof. intros p Hp. unfold assert. by destruct b. Qed.

Lemma keeps_fault {A} I : keeps I (@fault A).
Proof. by intros p Hp. Qed.

Lemma keeps_load {A} I (l : list A) i : keeps I (load l i).
Proof. intros p Hp. unfold load. by destruct (l !! i). Qed.

Lemma keeps_flag_at I i : keeps I (flag_at i).
Proof. intros p Hp. unfold flag_at. by destruct (flags p !! i). Qed.

Lemma keeps_point_at I i : keeps I (point_at i).
Proof. intros p Hp. unfold point_at. by destruct (points p !! i). Qed.

Lemma keeps_read_points I pts cnt : keeps I (read_points pts cnt).
Proof. intros p Hp. unfold read_points. by destruct (decide _). Qed.

Lemma capacity_set_flag a i v : keeps (capacity_from a) (set_flag i v).
Proof.
  intros p [Hc Ha]. unfold set_flag. destruct (decide _); [|done].
  split; [|done]. unfold within_capacity, count in *. simpl. by rewrite length_insert.
Qed.

Lemma capacity_set_pos a q : keeps (capacity_from a) (modify (set_pos q)).
Proof. by intros p Hp. Qed.

Lemma capacity_set_newStroke a b : keeps (capacity_from a) (modify (set_newStroke b)).
Proof. by intros p Hp. Qed.

Lemma grown_allocated p n :
  (n <= allocated (grown p n))%nat /\ (allocated p <= allocated (grown p n))%nat.
Proof. unfold grown. destruct (decide _); simpl; lia. Qed.

Lemma capacity_appended a p n pts fl :
  capacity_from a p -> length fl = n ->
  capacity_from a (appended (grown p (count p + n)) pts fl).
Proof.
  intros [Hc Ha] Hn. destruct (grown_allocated p (count p + n)) as [H1 H2].
  split.
  - unfold within_capacity. rewrite count_appended, count_grown, Hn.
    unfold appended. simpl. lia.
  - unfold appended. simpl. lia.
Qed.

Lemma capacity_add_points a pts cnt type : keeps (capacity_from a) (add_points pts cnt type).
Proof.
  intros p Hp. destruct (decide (cnt <= length pts)%nat) as [Hcnt|Hcnt].
  - rewrite add_points_run by done. destruct (reserve_ok _ _); [|done].
    apply capacity_appended; [done|]. by rewrite length_replicate.
  - unfold add_points, bind, get. rewrite PATH_ReserveEntries_run.
    destruct (reserve_ok _ _); [|done]. cbn [negb]. unfold read_points.
    by rewrite decide_False.
Qed.

Lemma capacity_add_log_points a pts cnt type :
  keeps (capacity_from a) (add_log_points pts cnt type).
Proof.
  intros p Hp. destruct (decide (cnt <= length pts)%nat) as [Hcnt|Hcnt].
  - rewrite add_log_points_run by done. destruct (reserve_ok _ _); [|done].
    apply capacity_appended; [done|]. by rewrite length_replicate.
  - unfold add_log_points, bind, get. rewrite PATH_ReserveEntries_run.
    destruct (reserve_ok _ _); [|done]. cbn [negb]. unfold read_points.
    by rewrite decide_False.
Qed.

Lemma capacity_PATH_AddEntry a q f : keeps (capacity_from a) (PATH_AddEntry q f).
Proof.
  intros p Hp. rewrite PATH_AddEntry_run. destruct (reserve_ok _ _); [|done].
  by apply capacity_appended.
Qed.

Ltac keeps_step :=
  match goal with
  | |- keeps _ (bind _ _) => apply keeps_bind; [|intros ?]
  | |- keeps _ (ret _) => apply keeps_ret
  | |- keeps _ get => apply keeps_get
  | |- keeps _ (assert _) => apply keeps_assert
  | |- keeps _ fault => apply keeps_fault
  | |- keeps _ (load _ _) => apply keeps_load
  | |- keeps _ (flag_at _) => apply keeps_flag_at
  | |- keeps _ (point_at _) => apply keeps_point_at
  | |- keeps _ (set_flag _ _) => apply capacity_set_flag
  | |- keeps _ (modify (set_pos _)) => apply capacity_set_pos
  | |- keeps _ (modify (set_newStroke _)) => apply capacity_set_newStroke
  | |- keeps _ (add_points _ _ _) => apply capacity_add_points
  | |- keeps _ (add_log_points _ _ _) => apply capacity_add_log_points
  | |- keeps _ (PATH_AddEntry _ _) => apply capacity_PATH_AddEntry
  | |- keeps _ (if ?b then _ else _) => destruct b
  | |- keeps _ (match ?x with _ => _ end) => destruct x
  end.

Ltac keeps_auto := repeat keeps_step.

Lemma capacity_start_new_stroke a : keeps (capacity_from a) start_new_stroke.
Proof. unfold start_new_stroke. keeps_auto. Qed.

Lemma capacity_update_current_pos a : keeps (capacity_from a) update_current_pos.
Proof. unfold update_current_pos. keeps_auto. Qed.

Lemma capacity_close_figure a : keeps (capacity_from a) close_figure.
Proof. unfold close_figure. keeps_auto. Qed.









(** ** The flattener on recorded paths *)

Lemma alloc_gdi_path_Some cnt q :
  alloc_gdi_path cnt = Some q ->
  q = mk_gdi_path [] [] (Nat.max NUM_ENTRIES_INITIAL cnt) true (mkPOINT 0 0).
Proof.
  unfold alloc_gdi_path. destruct (negb _); [done|]. destruct (_ || _); [done|].
  by intros [= <-].
Qed.

Lemma bezier_runs_head f fl :
  bezier_runs (f :: fl) 0 = true -> base_type f = PT_BEZIERTO ->
  exists f2 f3 fl',
    fl = f2 :: f3 :: fl' /\ base_type f2 = PT_BEZIERTO /\ base_type f3 = PT_BEZIERTO /\
    bezier_runs fl' 0 = true.
Proof.
  intros Hruns Hb. cbn [bezier_runs] in Hruns. rewrite Hb in Hruns.
  change (PT_BEZIERTO =? PT_BEZIERTO) with true in Hruns. cbv iota in Hruns.
  destruct fl as [|f2 fl]; [done|]. cbn [bezier_runs] in Hruns.
  destruct (Z.eqb_spec (base_type f2) PT_BEZIERTO) as [Hb2|]; [|done].
  destruct fl as [|f3 fl]; [done|]. cbn [bezier_runs] in Hruns.
  destruct (Z.eqb_spec (base_type f3) PT_BEZIERTO) as [Hb3|]; [|done].
  exists f2, f3, fl. repeat split; try done.
  by rewrite (bezier_runs_congr fl 0 3).
Qed.

Lemma bezier_runs_tail f fl :
  bezier_runs (f :: fl) 0 = true -> base_type f <> PT_BEZIERTO -> bezier_runs fl 0 = true.
Proof.
  intros Hruns Hb. cbn [bezier_runs] in Hruns.
  destruct (Z.eqb_spec (base_type f) PT_BEZIERTO); [done|]. done.
Qed.

Lemma polyline_path_recorded q : polyline_path q -> recorded q.
Proof.
  intros (Hp & Hplain & Hfirst). split; [done|]. split; [done|].
  by apply bezier_runs_plain.
Qed.

Lemma PATH_AddEntry_polyline pt f q :
  polyline_path q -> base_type f <> PT_BEZIERTO ->
  (flags q = [] -> base_type f = PT_MOVETO) ->
  exists ok q',
    PATH_AddEntry pt f q = Done (ok, q') /\ polyline_path q' /\
    (ok = true -> flags q' <> []).
Proof.
  intros (Hp & Hplain & Hfirst) Hf Hempty. rewrite PATH_AddEntry_run.
  destruct (reserve_ok _ _); [|by exists false, q].
  eexists _, _. split; [done|].
  destruct (grown_fields q (count q + 1)) as (Hg1 & Hg2 & _).
  split; [|intros _; unfold appended; simpl; by destruct (flags (grown q _))].
  split; [|split].
  - apply parallel_appended; [by apply parallel_grown|done].
  - unfold appended. simpl. rewrite Hg2. apply Forall_app. split; [done|].
    by apply Forall_singleton.
  - unfold appended. simpl. rewrite Hg2. intros f0 Hf0.
    destruct (flags q) as [|f1 fl] eqn:Hfl.
    + injection Hf0 as <-. by apply Hempty.
    + apply Hfirst. done.
Qed.

Lemma PATH_AddFlatBezier_polyline pt0 pt1 pt2 pt3 closed q :
  bezier_contract -> polyline_path q -> flags q <> [] ->
  exists ok q',
    PATH_AddFlatBezier pt0 pt1 pt2 pt3 closed q = Done (ok, q') /\
    polyline_path q' /\ flags q' <> [].
Proof.
  intros Hcontract (Hp & Hplain & Hfirst) Hne. unfold PATH_AddFlatBezier.
  destruct (Hcontract pt0 pt1 pt2 pt3) as (pts & -> & Hlen).
  destruct pts as [|p0 pts1]; [simpl in Hlen; lia|]. simpl in Hlen.
  unfold bind at 1. rewrite add_points_run by done.
  destruct (reserve_ok _ _).
  2:{ exists false, q. split; [done|]. done. }
  rewrite take_ge by done.
  set (q1 := grown q (count q + length pts1)).
  destruct (grown_fields q (count q + length pts1)) as (Hg1 & Hg2 & _).
  fold q1 in Hg1, Hg2.
  assert (polyline_path (appended q1 pts1 (replicate (length pts1) PT_LINETO))
          /\ flags (appended q1 pts1 (replicate (length pts1) PT_LINETO)) <> []) as [Hq2 Hne2].
  { split; [split; [|split]|].
    - apply parallel_appended; [by apply parallel_grown|]. by rewrite length_replicate.
    - unfold appended. simpl. rewrite Hg2. apply Forall_app. split; [done|].
      by apply Forall_replicate.
    - unfold appended. simpl. rewrite Hg2. intros f0.
      destruct (flags q) as [|f1 fl]; [done|]. apply Hfirst.
    - unfold appended. simpl. rewrite Hg2. by destruct (flags q). }
  rewrite bool_decide_eq_true_2 by (by eexists).
  destruct closed; cbn [andb]; unfold bind, ret.
  2:{ by eexists _, _. }
  set (q2 := appended q1 pts1 (replicate (length pts1) PT_LINETO)) in *.
  destruct (last (flags q2)) as [f|] eqn:Hlast.
  2:{ apply last_None in Hlast. done. }
  rewrite (close_figure_run q2 f Hlast).
  eexists _, _. split; [done|].
  destruct Hq2 as (Hp2 & Hplain2 & Hfirst2).
  assert (flags q2 !! (count q2 - 1)%nat = Some f) as Hlook
    by (by rewrite last_flag_lookup).
  assert (base_type f <> PT_BEZIERTO) as Hfb.
  { by apply (Forall_lookup_1 _ _ _ _ Hplain2 Hlook). }
  split; [split; [|split]|].
  - unfold parallel. simpl. by rewrite length_insert.
  - simpl. apply Forall_insert; [done|]. by rewrite base_type_close.
  - simpl. intros f0. destruct (decide (count q2 - 1 = 0)%nat) as [H0|H0].
    + rewrite H0 in *. rewrite list_lookup_insert_eq.
      2:{ by apply lookup_lt_Some in Hlook. }
      intros [= <-]. rewrite base_type_close. by apply Hfirst2.
    + rewrite list_lookup_insert_ne by lia. apply Hfirst2.
  - simpl. intros Hnil. apply (f_equal length) in Hnil.
    rewrite length_insert in Hnil. apply Hne2. by apply length_zero_iff_nil.
Qed.

Lemma flatten_loop_safe P :
  parallel P -> bezier_contract ->
  (forall f, flags P !! 0%nat = Some f -> base_type f = PT_MOVETO) ->
  forall n srcpt q,
    bezier_runs (drop srcpt (flags P)) 0 = true ->
    (srcpt <> 0%nat -> flags q <> []) ->
    polyline_path q ->
    exists ok q', flatten_loop P n srcpt q = Done (ok, q') /\ polyline_path q'.
Proof.
  intros HP Hcontract Hfirst.
  induction n as [|n IH]; intros srcpt q Hruns Hne Hq; [by exists true, q|].
  cbn [flatten_loop].
  destruct (decide (count P <= srcpt)%nat) as [|Hlt]; [by exists true, q|].
  assert (srcpt < length (flags P))%nat as Hin by (unfold count in Hlt; lia).
  destruct (lookup_lt_is_Some_2 _ _ Hin) as [f Hf].
  rewrite (drop_S _ _ _ Hf) in Hruns.
  assert (forall i, (i < length (flags P))%nat -> exists pt, points P !! i = Some pt)
    as Hpoint.
  { intros i Hi. apply lookup_lt_is_Some_2. unfold parallel in HP. lia. }
  unfold bind at 1. rewrite (load_run _ _ f _ Hf).
  destruct ((base_type f =? PT_MOVETO) || (base_type f =? PT_LINETO)) eqn:Hplain.
  { destruct (Hpoint srcpt Hin) as [pt Hpt].
    unfold bind at 1. rewrite (load_run _ _ pt _ Hpt).
    assert (base_type f <> PT_BEZIERTO) as Hfb.
    { apply orb_true_iff in Hplain as [Hb|Hb]; apply Z.eqb_eq in Hb; by rewrite Hb. }
    destruct (PATH_AddEntry_polyline pt f q Hq Hfb) as (ok & q1 & Hrun & Hq1 & Hne1).
    { intros Hnil. destruct (decide (srcpt = 0)%nat) as [->|Hs].
      - by apply Hfirst.
      - by destruct (Hne Hs). }
    unfold bind at 1. rewrite Hrun. destruct ok; cbn [negb]; [|by exists false, q1].
    replace (srcpt + 1)%nat with (S srcpt) by lia.
    apply IH; [by apply (bezier_runs_tail f)|by intros _; apply Hne1|done]. }
  destruct (Z.eqb_spec (base_type f) PT_BEZIERTO) as [Hb|Hb].
  2:{ replace (srcpt + 1)%nat with (S srcpt) by lia.
      apply IH; [by apply (bezier_runs_tail f)| |done].
      intros _. apply Hne. intros ->.
      rewrite (Hfirst f Hf) in Hplain. done. }
  assert (srcpt <> 0)%nat as Hs.
  { intros ->. rewrite (Hfirst f Hf) in Hb. done. }
  destruct (bezier_runs_head f _ Hruns Hb) as (f2 & f3 & fl' & Hdrop & _ & _ & Hruns').
  assert (flags P !! (srcpt + 2)%nat = Some f3) as Hf3.
  { replace (srcpt + 2)%nat with (S srcpt + 1)%nat by lia.
    rewrite <- lookup_drop, Hdrop. done. }
  assert (srcpt + 2 < length (flags P))%nat as Hin3 by (by apply lookup_lt_Some in Hf3).
  unfold bind at 1. rewrite (load_run _ _ f3 _ Hf3).
  unfold bind at 1. rewrite decide_False by done. unfold ret at 1.
  destruct (Hpoint (srcpt - 1)%nat ltac:(lia)) as [pt0 Hpt0].
  destruct (Hpoint srcpt ltac:(lia)) as [pt1 Hpt1].
  destruct (Hpoint (srcpt + 1)%nat ltac:(lia)) as [pt2 Hpt2].
  destruct (Hpoint (srcpt + 2)%nat ltac:(lia)) as [pt3 Hpt3].
  unfold bind at 1. rewrite (load_run _ _ pt0 _ Hpt0).
  unfold bind at 1. rewrite (load_run _ _ pt1 _ Hpt1).
  unfold bind at 1. rewrite (load_run _ _ pt2 _ Hpt2).
  unfold bind at 1. rewrite (load_run _ _ pt3 _ Hpt3).
  destruct (PATH_AddFlatBezier_polyline pt0 pt1 pt2 pt3 (has_close f3) q Hcontract Hq
              (Hne Hs)) as (ok & q1 & Hrun & Hq1 & Hne1).
  unfold bind at 1. rewrite Hrun. destruct ok; cbn [negb]; [|by exists false, q1].
  apply IH; [|done|done].
  replace (srcpt + 3)%nat with (S srcpt + 2)%nat by lia.
  rewrite <- drop_drop, Hdrop. done.
Qed.

Lemma capacity_PATH_AddFlatBezier a pt0 pt1 pt2 pt3 closed :
  keeps (capacity_from a) (PATH_AddFlatBezier pt0 pt1 pt2 pt3 closed).
Proof.
  unfold PATH_AddFlatBezier. destruct (GDI_Bezier _ _ _ _) as [[|p0 pts1]|];
    [apply keeps_fault| |apply keeps_ret].
  apply keeps_bind; [apply capacity_add_points|intros r].
  apply keeps_bind; [|intros _; apply keeps_ret].
  destruct (_ && _); [apply capacity_close_figure|apply keeps_ret].
Qed.

Lemma capacity_flatten_loop a P n :
  forall srcpt, keeps (capacity_from a) (flatten_loop P n srcpt).
Proof.
  induction n as [|n IH]; intros srcpt; cbn [flatten_loop]; [apply keeps_ret|].
  destruct (decide _); [apply keeps_ret|].
  apply keeps_bind; [apply keeps_load|intros f].
  destruct (_ || _).
  { apply keeps_bind; [apply keeps_load|intros pt].
    apply keeps_bind; [apply capacity_PATH_AddEntry|intros ok].
    destruct (negb ok); [apply keeps_ret|apply IH]. }
  destruct (_ =? _); [|apply IH].
  apply keeps_bind; [apply keeps_load|intros f2].
  apply keeps_bind; [destruct (decide _); [apply keeps_fault|apply keeps_ret]|intros _].
  do 4 (apply keeps_bind; [apply keeps_load|intros ?]).
  apply keeps_bind; [apply capacity_PATH_AddFlatBezier|intros ok].
  destruct (negb ok); [apply keeps_ret|apply IH].
Qed.

Lemma PATH_FlattenPath_recorded P :
  recorded P -> bezier_contract ->
  exists r err,
    PATH_FlattenPath P = Done (r, err) /\
    forall P', r = Some P' ->
      polyline_path P' /\ recorded P' /\ within_capacity P'.
Proof.
  intros [HP [Hfirst Hruns]] Hcontract. unfold PATH_FlattenPath.
  destruct (alloc_gdi_path (count P)) as [new_path|] eqn:Halloc.
  2:{ eexists _, _. split; [done|]. done. }
  apply alloc_gdi_path_Some in Halloc.
  assert (polyline_path new_path) as Hnew.
  { rewrite Halloc. split; [done|]. split; [constructor|done]. }
  destruct (flatten_loop_safe P HP Hcontract Hfirst (count P) 0 new_path)
    as (ok & q' & Hrun & Hq'); [done|done|done|].
  pose proof (capacity_flatten_loop 0 P (count P) 0 new_path) as Hcap.
  rewrite Hrun in *.
  destruct ok; eexists _, _; (split; [done|]); [|done].
  intros P' [= <-]. split; [done|]. split; [by apply polyline_path_recorded|].
  apply Hcap. rewrite Halloc. split; [|simpl; lia].
  unfold within_capacity, count. simpl. lia.
Qed.

(** X7. The flattener is safe on every recorded path: when the first tag
    is MOVE up to the CLOSE bit and the BEZIER runs have a length divisible
    by 3, it reads no cell outside the source arrays and fails no
    assertion, whatever the heap grants; it returns NULL or a path without
    BEZIER tags that keeps the recorded structure and fits its arrays. *)
Theorem flatten_is_safe (P : gdi_path) :
  recorded P -> bezier_contract ->
  exists r err,
    PATH_FlattenPath P = Done (r, err) /\
    forall P', r = Some P' ->
      polyline_path P' /\ recorded P' /\ within_capacity P'.
Proof. apply PATH_FlattenPath_recorded. Qed.

(** ** Paths without Bezier entries *)

Lemma flatten_loop_copies P :
  heap_grants ->
  forall n rest_fl,
    Forall move_or_line rest_fl -> (length rest_fl <= n)%nat ->
    forall rest_pts pre_pts pre_fl q,
      length rest_pts = length rest_fl -> length pre_pts = length pre_fl ->
      points P = pre_pts ++ rest_pts -> flags P = pre_fl ++ rest_fl ->
      exists q',
        flatten_loop P n (length pre_fl) q = Done (true, q') /\
        points q' = points q ++ rest_pts /\ flags q' = flags q ++ rest_fl /\
        pos q' = pos q /\ newStroke q' = newStroke q.
Proof.
  intros Hheap.
  induction n as [|n IH]; intros rest_fl Hplain Hn rest_pts pre_pts pre_fl q
    Hrest Hpre Hpts Hfl.
  { destruct rest_fl; [|simpl in Hn; lia]. destruct rest_pts; [|done].
    exists q. simpl. rewrite !app_nil_r. done. }
  assert (count P = (length pre_fl + length rest_fl)%nat) as Hcount.
  { unfold count. by rewrite Hfl, length_app. }
  cbn [flatten_loop].
  destruct Hplain as [|f1 fl Hbase Hplain].
  - destruct rest_pts; [|done]. simpl in Hcount.
    destruct (decide _) as [_|]; [|lia].
    exists q. simpl. rewrite !app_nil_r. done.
  - destruct rest_pts as [|q1 rest_pts]; [done|]. simpl in Hrest, Hn, Hcount.
    destruct (decide _) as [|_]; [lia|].
    unfold bind at 1. rewrite (load_run _ _ f1).
    2:{ rewrite Hfl. by apply list_lookup_middle. }
    destruct (proj1 (base_type_values f1) Hbase) as [-> Hnb].
    unfold bind at 1. rewrite (load_run _ _ q1).
    2:{ rewrite Hpts. by apply list_lookup_middle. }
    unfold bind at 1. rewrite PATH_AddEntry_run, heap_grants_reserve by done.
    cbn [negb].
    replace (length pre_fl + 1)%nat with (length (pre_fl ++ [f1]))
      by (rewrite length_app; simpl; lia).
    destruct (IH fl Hplain ltac:(lia) rest_pts (pre_pts ++ [q1]) (pre_fl ++ [f1])
                (appended (grown q (count q + 1)) [q1] [f1]))
      as (q' & Hrun & Hp' & Hf' & Hpos & Hns).
    + lia.
    + rewrite !length_app. simpl. lia.
    + by rewrite <- app_assoc.
    + by rewrite <- app_assoc.
    + exists q'. split; [done|].
      destruct (grown_fields q (count q + 1)) as (Hg1 & Hg2 & Hg3 & Hg4).
      simpl in Hp', Hf', Hpos, Hns.
      rewrite Hg1 in Hp'. rewrite Hg2 in Hf'. rewrite Hg3 in Hns. rewrite Hg4 in Hpos.
      rewrite Hp', Hf', <- !app_assoc. done.
Qed.

Lemma PATH_FlattenPath_copies P :
  parallel P -> Forall move_or_line (flags P) -> heap_grants ->
  exists P',
    PATH_FlattenPath P = Done (Some P', None) /\
    points P' = points P /\ flags P' = flags P /\
    pos P' = mkPOINT 0 0 /\ newStroke P' = true.
Proof.
  intros HP Hplain Hheap. unfold PATH_FlattenPath, alloc_gdi_path.
  rewrite !Hheap. cbn [negb orb].
  set (new_path := mk_gdi_path [] [] _ true _).
  destruct (flatten_loop_copies P Hheap (count P) (flags P) Hplain ltac:(done)
              (points P) [] [] new_path) as (P' & Hrun & Hpts & Hfl & Hpos & Hns);
    try done.
  simpl length in Hrun. rewrite Hrun. by exists P'.
Qed.

(** X8. Flattening a path that has no BEZIER entry copies its entries one
    for one.  The copy does not keep the current position and the latch of
    the source: it has the position (0,0) and the latch set, as a fresh
    path. *)
Theorem flatten_copies_polylines (P : gdi_path) :
  parallel P -> Forall move_or_line (flags P) -> heap_grants ->
  exists P',
    PATH_FlattenPath P = Done (Some P', None) /\
    entries P' = entries P /\ pos P' = mkPOINT 0 0 /\ newStroke P' = true.
Proof.
  intros HP Hplain Hheap.
  destruct (PATH_FlattenPath_copies P HP Hplain Hheap) as (P' & Hrun & Hpts & Hfl & Hrest).
  exists P'. split; [done|]. unfold entries. by rewrite Hpts, Hfl.
Qed.

Lemma line_tags_move_or_line n closed : Forall move_or_line (line_tags n closed).
Proof.
  unfold line_tags. apply Forall_app. split.
  - apply Forall_replicate. by right.
  - apply Forall_singleton. right. by destruct closed.
Qed.

Lemma flattened_move_or_line fl :
  bezier_triples fl ->
  forall pts prev, length pts = length fl ->
    Forall (fun e : entry => move_or_line e.2) (flattened prev (zip pts fl)).
Proof.
  induction 1 as [|f fl Hbase Htriples IH|f1 f2 f3 fl Hb1 Hb2 Hb3 Htriples IH];
    intros pts prev Hlen.
  - destruct pts; constructor.
  - destruct pts as [|q pts]; [done|]. simpl in Hlen.
    cbn [zip zip_with flattened].
    destruct (proj1 (base_type_values f) Hbase) as [_ ->].
    constructor; [done|]. apply IH. lia.
  - destruct pts as [|q1 [|q2 [|q3 pts]]]; [done|done|done|]. simpl in Hlen.
    cbn [zip zip_with flattened].
    destruct (proj2 (base_type_values f1) Hb1) as [_ ->].
    apply Forall_app. split; [|apply IH; lia].
    unfold bezier_lines. destruct (GDI_Bezier prev q1 q2 q3) as [[|p0 pts1]|];
      [constructor| |constructor].
    apply (Forall_zip_snd move_or_line), line_tags_move_or_line.
Qed.

Lemma PATH_FlattenPath_structural P :
  structural P -> bezier_contract -> heap_grants ->
  exists P',
    PATH_FlattenPath P = Done (Some P', None) /\ parallel P' /\
    entries P' = flatten_entries (entries P) /\
    Forall move_or_line (flags P').
Proof.
  intros [Hpar Hstruct] Hcontract Hheap.
  unfold PATH_FlattenPath, alloc_gdi_path. rewrite !Hheap. cbn [negb orb].
  set (new_path := mk_gdi_path [] [] _ true _).
  assert (bezier_triples (flags P)) as Htriples.
  { destruct (flags P) as [|f0 fl]; [constructor|].
    destruct Hstruct as [-> Hfl]. constructor; [by left|done]. }
  destruct (flatten_loop_run P Hcontract Hheap (count P) (flags P) Htriples ltac:(done)
              (points P) [] [] (mkPOINT 0 0) new_path) as (P' & Hrun & HP' & Hpts & Hfl);
    try done.
  { intros f1 fl' Hflags Hb. rewrite Hflags in Hstruct. destruct Hstruct as [-> _]. done. }
  simpl length in Hrun. rewrite Hrun. exists P'. split; [done|]. split; [done|].
  simpl in Hpts, Hfl. fold (entries P) in Hpts, Hfl.
  assert (entries P' = flattened (mkPOINT 0 0) (entries P)) as Hentries.
  { unfold entries at 1. by rewrite Hpts, Hfl, zip_fst_snd. }
  split.
  - rewrite Hentries. unfold entries. destruct (points P) as [|q0 pts], (flags P) as [|f0 fl];
      try done.
    destruct Hstruct as [-> _]. done.
  - rewrite Hfl. apply Forall_fmap. by apply flattened_move_or_line.
Qed.

(** X9. Flattening is idempotent: on a path that satisfies the structural
    invariants, flattening the flattened path gives a path with the same
    entries. *)
Theorem flatten_idempotent (P : gdi_path) :
  structural P -> bezier_contract -> heap_grants ->
  exists P' P'',
    PATH_FlattenPath P = Done (Some P', None) /\
    PATH_FlattenPath P' = Done (Some P'', None) /\
    entries P'' = entries P'.
Proof.
  intros HP Hcontract Hheap.
  destruct (PATH_FlattenPath_structural P HP Hcontract Hheap)
    as (P' & Hrun & HP' & _ & Hplain).
  destruct (PATH_FlattenPath_copies P' HP' Hplain Hheap) as (P'' & Hrun' & Hpts & Hfl & _).
  exists P', P''. split; [done|]. split; [done|]. unfold entries. by rewrite Hpts, Hfl.
Qed.


(** ** From a path to a region *)

Lemma path_to_region_runs path mode :
  flags path !! 0%nat = Some PT_MOVETO ->
  Forall (fun n => 2 <= n)%nat (move_runs (flags path)) ->
  HeapAlloc_ok (count path / 2 * sizeof_int) = true ->
  path_to_region path mode =
  Done (CreatePolyPolygonRgn (points path) (map Z.of_nat (move_runs (flags path)))
          (length (move_runs (flags path))) mode).
Proof.
  intros Hfirst Hruns Hheap.
  destruct (flags path) as [|f0 fl] eqn:Hfl; [done|].
  simpl in Hfirst. injection Hfirst as ->.
  assert (count path = S (length fl)) as Hcount.
  { unfold count. by rewrite Hfl. }
  cbn [move_runs] in *. set (runs := run_lengths fl 1) in *.
  assert (length runs <= count path / 2)%nat as Hbound.
  { apply Nat.div_le_lower_bound; [lia|].
    pose proof (runs_at_least_two runs Hruns) as Hsum.
    unfold runs in Hsum at 2. rewrite run_lengths_sum in Hsum. lia. }
  assert (region_polygons path = Done (map Z.of_nat runs, length runs)) as Hregion.
  { unfold region_polygons. rewrite Hfl.
    change (PT_MOVETO =? PT_MOVETO) with true. cbv beta iota delta [negb].
    set (buf := replicate (count path / 2) 0).
    assert (length buf = (count path / 2)%nat) as Hbuf by apply length_replicate.
    pose proof (region_loop_and_last_run fl 1 0 [] buf) as Hloop.
    change (1 - 0)%nat with 1%nat in Hloop. fold runs in Hloop.
    assert (length runs <= length buf)%nat as Hroom by (by rewrite Hbuf).
    specialize (Hloop ltac:(lia) Hruns Hroom).
    unfold region_loop_and_last in Hloop.
    change ([] ++ buf) with buf in Hloop.
    change (length (@nil INT)) with 0%nat in Hloop.
    replace (1 + length fl)%nat with (count path) in Hloop by lia.
    destruct (region_loop fl 1 0 0 buf) as [[[pos0 counts] polygons]| |];
      [|done|done].
    rewrite Hloop. change (0 + length runs)%nat with (length runs).
    clear Hloop.
    destruct (decide _) as [_|Hno]; [|exfalso; exact (Hno Hbound)].
    simpl app. rewrite take_app_length'; [done|by rewrite length_map]. }
  unfold path_to_region.
  destruct (decide (count path = 0)%nat) as [H0|_]; [lia|].
  by rewrite Hheap, Hregion.
Qed.

(** X10. [PathToRegion] and [get_gdi_flat_path] on a committed path made of
    MOVE and LINE entries, every figure of at least two entries: the path
    is handed to the region constructor as it is, one polygon per figure,
    with the fill mode of the device context; no error is reported and the
    device context is left without a path. *)
Theorem region_of_polylines (dc : DC) (path : gdi_path) :
  dc_path dc = Some path -> parallel path ->
  flags path !! 0%nat = Some PT_MOVETO -> Forall move_or_line (flags path) ->
  Forall (fun n => 2 <= n)%nat (move_runs (flags path)) -> heap_grants ->
  let runs := move_runs (flags path) in
  let hrgn :=
    CreatePolyPolygonRgn (points path) (map Z.of_nat runs) (length runs) GetPolyFillMode in
  PathToRegion dc = Done (mk_reply hrgn None (mk_DC None (dc_hPen dc))) /\
  get_gdi_flat_path dc true =
    Done (mk_reply (Z.of_nat (count path)) None (mk_DC None (dc_hPen dc)),
          Some (points path, flags path, Some hrgn)) /\
  get_gdi_flat_path dc false =
    Done (mk_reply (Z.of_nat (count path)) None (mk_DC None (dc_hPen dc)),
          Some (points path, flags path, None)).
Proof.
  intros Hdc Hpar Hfirst Hplain Hruns Hheap runs hrgn.
  destruct (PATH_FlattenPath_copies path Hpar Hplain Hheap)
    as (P' & Hrun & Hpts & Hfl & _).
  assert (count P' = count path) as Hcount by (unfold count; by rewrite Hfl).
  assert (path_to_region P' GetPolyFillMode = Done hrgn) as Hregion.
  { rewrite path_to_region_runs; rewrite ?Hfl, ?Hpts; try done. }
  unfold PathToRegion, get_gdi_flat_path. rewrite Hdc, Hrun, Hregion.
  by rewrite Hcount, Hpts, Hfl.
Qed.

(** X11. Turning the committed path into a region consumes it: whenever
    [PathToRegion], [get_gdi_flat_path] or the null driver's
    [SelectClipPath] returns, the device context has no committed path
    left, also when the call failed; without a committed path they fail
    with CAN_NOT_COMPLETE; and [get_gdi_flat_path] hands out arrays exactly
    when its result is not -1, the result being their length. *)
Theorem region_calls_consume_the_path (dc : DC) :
  (forall r, PathToRegion dc = Done r ->
     dc_after r = mk_DC None (dc_hPen dc) /\
     (dc_path dc = None -> value r = 0 /\ last_error r = Some ERROR_CAN_NOT_COMPLETE)) /\
  (forall rgn r out, get_gdi_flat_path dc rgn = Done (r, out) ->
     dc_after r = mk_DC None (dc_hPen dc) /\
     (dc_path dc = None -> value r = -1 /\ last_error r = Some ERROR_CAN_NOT_COMPLETE) /\
     (out = None -> value r = -1) /\
     (forall pts fl h, out = Some (pts, fl, h) ->
        value r = Z.of_nat (length fl) /\ (is_Some h <-> rgn = true))) /\
  (forall ExtSelectClipRgn c mode a,
     ctx_dc c = dc ->
     nulldrv_SelectClipPath ExtSelectClipRgn c mode = Done a ->
     ctx_path (context_after a) = None /\
     physDev (context_after a) = physDev c /\
     (dc_path dc = None ->
      returned a = false /\ reported a = Some ERROR_CAN_NOT_COMPLETE)).
Proof.
  assert (forall r, PathToRegion dc = Done r ->
     dc_after r = mk_DC None (dc_hPen dc) /\
     (dc_path dc = None -> value r = 0 /\ last_error r = Some ERROR_CAN_NOT_COMPLETE))
    as Hregion.
  { intros r. unfold PathToRegion. destruct dc as [[path|] pen]; simpl.
    - destruct (PATH_FlattenPath path) as [[[P'|] err]| |]; try done.
      + destruct (path_to_region P' GetPolyFillMode); try done. by intros [= <-].
      + by intros [= <-].
    - by intros [= <-]. }
  split; [done|]. split.
  - intros rgn r out. unfold get_gdi_flat_path. destruct dc as [[path|] pen]; simpl.
    + destruct (PATH_FlattenPath path) as [[[P'|] err]| |]; try done.
      * destruct rgn.
        -- destruct (path_to_region P' GetPolyFillMode); try done.
           intros [= <- <-]. simpl. split; [done|]. split; [done|]. split; [done|].
           intros pts fl h [= <- <- <-]. split; [done|]. split; [done|]. by eexists.
        -- intros [= <- <-]. simpl. split; [done|]. split; [done|]. split; [done|].
           intros pts fl h [= <- <- <-]. split; [done|]. split; [|done].
           intros [h' Hh]. done.
      * intros [= <- <-]. done.
    + intros [= <- <-]. done.
  - intros E c mode a Hc. unfold nulldrv_SelectClipPath. rewrite Hc.
    destruct (PathToRegion dc) as [r| |] eqn:Hr; [|done|done].
    destruct (Hregion r eq_refl) as [Hafter Hnone].
    intros [= <-]. simpl. rewrite Hafter. split; [done|]. split; [done|].
    intros Hno. destruct (Hnone Hno) as [-> ->]. done.
Qed.

End Recorder_properties.

(** * The life of a path on a device context *)

Section Lifecycle_properties.
Context `{Host}.



Lemma GetPath_count_run c :
  GetPath_count c =
  Done (match ctx_path c with
        | Some path => mk_answer (Z.of_nat (count path)) None c
        | None => mk_answer (-1) (Some ERROR_CAN_NOT_COMPLETE) c
        end).
Proof.
  unfold GetPath_count, GetPath, ctx_path, lift_reply.
  destruct c as [[[path|] pen] po pd cx cy]; done.
Qed.

Lemma consume_run (c : device_context) :
  context_ok c ->
  match GetPath_count c with
  | Done r =>
      if returned r =? -1 then Done (mk_answer false (reported r) (context_after r))
      else
        match AbortPath (context_after r) with
        | Done r' => Done (mk_answer true (reported r') (context_after r'))
        | AssertFailed => AssertFailed
        | Fault => Fault
        end
  | AssertFailed => AssertFailed
  | Fault => Fault
  end =
  Done (match ctx_path c with
        | Some _ => mk_answer true None (set_ctx_path None c)
        | None => mk_answer false (Some ERROR_CAN_NOT_COMPLETE) c
        end).
Proof.
  intros Hok. rewrite GetPath_count_run.
  destruct c as [[[path|] pen] po pd cx cy]; unfold ctx_path; simpl; [|done].
  assert ((Z.of_nat (count path) =? -1) = false) as -> by (apply Z.eqb_neq; lia).
  unfold context_ok, ctx_path in Hok. simpl in Hok.
  destruct pd as [|d [|d2 pd]]; [done| |done].
  by destruct Hok as [Hno _].
Qed.






(** X14. [GetPath] gives back what [Polyline] recorded: after [BeginPath],
    a polyline of [n >= 1] points and [EndPath], a call with room for [n]
    entries returns [n], the tags MOVE, LINE, ..., LINE and the points the
    inverse mapping makes of the mapped points; they are the points that
    were drawn when the inverse mapping undoes the mapping. *)
Theorem get_path_round_trip (c : device_context) (pts : list POINT)
    (pPoints : list POINT) (pTypes : list BYTE) :
  physDev c = [] -> heap_grants ->
  (1 <= length pts)%nat ->
  (length pts <= length pPoints)%nat -> (length pts <= length pTypes)%nat ->
  DPtoLP (map LPtoDP pts) = Some pts ->
  exists c',
    serve_all [Req_BeginPath; Req_Draw (Polyline pts); Req_EndPath] c = Done c' /\
    GetPath (ctx_dc c') pPoints pTypes (Z.of_nat (length pts)) =
    Done (mk_reply (Z.of_nat (length pts)) None (ctx_dc c'),
          pts ++ drop (length pts) pPoints,
          (PT_MOVETO :: replicate (length pts - 1) PT_LINETO)
            ++ drop (length pts) pTypes).
Proof.
  intros Hpd Hheap Hn HroomP HroomT Hinv.
  destruct c as [[cpath pen] po pd cx cy]. simpl in Hpd. subst pd.
  cbn [serve_all serve]. unfold BeginPath, find_dc_driver. simpl.
  unfold nulldrv_BeginPath, alloc_gdi_path, pathdrv_CreateDC. rewrite !Hheap. simpl.
  unfold draw, find_dc_driver, in_physdev. simpl.
  rewrite pathdrv_Polyline_run by done. rewrite heap_grants_reserve by done.
  rewrite take_ge by done. simpl.
  unfold EndPath, find_dc_driver. simpl.
  eexists. split; [done|]. simpl.
  set (tags := match length pts with
               | O => []
               | S k => PT_MOVETO :: replicate k PT_LINETO
               end).
  assert (tags = PT_MOVETO :: replicate (length pts - 1) PT_LINETO) as Htags.
  { unfold tags. destruct (length pts) as [|k]; [lia|]. by rewrite Nat.sub_succ, Nat.sub_0_r. }
  assert (length tags = length pts) as Hlen.
  { rewrite Htags. simpl. rewrite length_replicate. lia. }
  set (p1 := appended _ _ tags).
  assert (points p1 = map LPtoDP pts /\ flags p1 = tags) as [Hpts1 Hfl1].
  { unfold p1, appended. simpl.
    destruct (grown_fields (set_pos (LPtoDP (mkPOINT cx cy)) fresh_path) (length pts))
      as (Hg1 & Hg2 & _).
    unfold fresh_path in Hg1, Hg2. by rewrite Hg1, Hg2. }
  assert (count p1 = length pts) as Hcount by (unfold count; by rewrite Hfl1).
  unfold GetPath. cbn [dc_path].
  assert ((Z.of_nat (length pts) =? 0) = false) as -> by (apply Z.eqb_neq; lia).
  rewrite Hcount, Z.ltb_irrefl, Hpts1, Hfl1.
  rewrite take_ge by (by rewrite length_map).
  rewrite !memcpy_run by (rewrite ?length_map; lia).
  rewrite length_map, Hlen.
  rewrite take_app_length' by (by rewrite length_map).
  rewrite Hinv, drop_app_length' by (by rewrite length_map).
  by rewrite Htags.
Qed.

(** X15. Filling or stroking consumes the committed path: on the null
    driver [FillPath], [StrokePath] and [StrokeAndFillPath] succeed and leave
    the device context without a path when a path is committed; otherwise
    they fail with CAN_NOT_COMPLETE and change nothing, in particular not a
    recording in progress.  [AbortPath] always succeeds and leaves neither a
    recording nor a committed path. *)
Theorem paths_are_consumed (c : device_context) :
  context_ok c ->
  let consumed :=
    Done (match ctx_path c with
          | Some _ => mk_answer true None (set_ctx_path None c)
          | None => mk_answer false (Some ERROR_CAN_NOT_COMPLETE) c
          end) in
  FillPath c = consumed /\ StrokePath c = consumed /\ StrokeAndFillPath c = consumed /\
  exists c', AbortPath c = Done (mk_answer true None c') /\
    physDev c' = [] /\ ctx_path c' = None.
Proof.
  intros Hok consumed. split; [by apply consume_run|]. split; [by apply consume_run|].
  split; [by apply consume_run|].
  unfold AbortPath, find_dc_driver.
  destruct c as [[cpath pen] po pd cx cy]. unfold context_ok, ctx_path in Hok. simpl in Hok.
  destruct pd as [|d [|d2 pd]]; [by eexists| |done]. simpl.
  destruct Hok as (-> & _). by eexists.
Qed.

(** X16. Requests out of turn: without a recording [EndPath] and
    [CloseFigure] fail with CAN_NOT_COMPLETE and change nothing; during a
    recording [BeginPath] succeeds and changes nothing, the entries recorded
    so far included; and when the heap refuses the new path or the
    recording driver, [BeginPath] fails and the committed path is still
    there. *)
Theorem requests_out_of_turn (c : device_context) :
  (physDev c = [] ->
     EndPath c = Done (mk_answer false (Some ERROR_CAN_NOT_COMPLETE) c) /\
     CloseFigure_ c = Done (mk_answer false (Some ERROR_CAN_NOT_COMPLETE) c) /\
     (alloc_gdi_path 0 = None ->
        BeginPath c = Done (mk_answer false (Some ERROR_NOT_ENOUGH_MEMORY) c)) /\
     (alloc_gdi_path 0 <> None -> HeapAlloc_ok sizeof_path_physdev = false ->
        BeginPath c = Done (mk_answer false None c))) /\
  (physDev c <> [] -> BeginPath c = Done (mk_answer true None c)).
Proof.
  split.
  - intros Hpd. unfold EndPath, CloseFigure_, BeginPath, find_dc_driver. rewrite Hpd. simpl.
    split; [done|]. split; [done|]. unfold nulldrv_BeginPath. split.
    + by intros ->.
    + intros Halloc Hdev. destruct (alloc_gdi_path 0); [|done].
      unfold pathdrv_CreateDC. by rewrite Hdev.
  - intros Hpd. unfold BeginPath, find_dc_driver. by destruct (physDev c).
Qed.

Lemma copy_gdi_path_run p :
  parallel p -> heap_grants ->
  exists q, copy_gdi_path p = Done (Some q) /\ same_contents q p /\
    allocated q = count p.
Proof.
  intros Hp Hheap. unfold copy_gdi_path. rewrite !Hheap. simpl.
  rewrite decide_True by (unfold count; rewrite Hp; done).
  eexists. split; [done|]. split; [|done].
  split; [|done]. simpl. apply take_ge. unfold count. by rewrite Hp.
Qed.

(** X17. Saving and restoring gives the paths back: [PATH_SavePath] into a
    fresh saved context, whose [path_open] is unset, followed by
    [PATH_RestorePath] into a device context with at most one recording
    driver, leaves the committed path and the recording with the entries,
    latch and current position they had when saved, as deep copies; what the
    destination held before is gone and the saved context is emptied. *)
Theorem save_restore_round_trip (c saved0 dst : device_context) :
  context_ok c -> path_open saved0 = false -> (length (physDev dst) <= 1)%nat ->
  heap_grants ->
  exists saved dst' saved',
    PATH_SavePath saved0 c = Done (mk_answer true None saved) /\
    PATH_RestorePath dst saved = Done (true, dst', saved') /\
    same_paths (ctx_path dst') (ctx_path c) /\
    same_paths (recording dst') (recording c) /\
    length (physDev dst') = length (physDev c) /\
    ctx_path saved' = None.
Proof.
  intros Hok Hopen Hdst Hheap.
  destruct c as [[cpath pen] po pd cx cy]. unfold context_ok, ctx_path in Hok. simpl in Hok.
  destruct saved0 as [[spath spen] spo spd scx scy]. simpl in Hopen. subst spo.
  destruct dst as [[dpath dpen] dpo dpd dcx dcy]. simpl in Hdst.
  assert (snd (pop_dc_driver (mk_context (mk_DC dpath dpen) dpo dpd dcx dcy))
          = mk_context (mk_DC dpath dpen) dpo [] dcx dcy) as Hpop.
  { unfold pop_dc_driver. simpl.
    destruct dpd as [|d [|d2 dpd]]; [done|done|simpl in Hdst; lia]. }
  unfold PATH_SavePath, PATH_RestorePath, ctx_path, find_dc_driver, recording. simpl.
  destruct pd as [|[dp] [|d2 pd]]; [| |done].
  - destruct cpath as [path|].
    + destruct (copy_gdi_path_run path (proj1 Hok) Hheap) as (q & -> & Hsame & _).
      eexists _, _, _. split; [done|]. simpl. rewrite Hpop. simpl.
      split; [done|]. done.
    + simpl. eexists _, _, _. split; [done|]. simpl. rewrite Hpop. simpl.
      split; [done|]. done.
  - destruct Hok as (-> & path & [= ->] & Hrec). simpl.
    destruct (copy_gdi_path_run path (proj1 Hrec) Hheap) as (q & -> & Hsame & _).
    eexists _, _, _. split; [done|]. simpl. rewrite Hpop.
    unfold pathdrv_CreateDC. rewrite Hheap. simpl.
    split; [done|]. done.
Qed.

End Lifecycle_properties.

(** * Arcs, round rectangles and angle arcs *)

Section Shape_properties.
Context `{Host} `{FP : FloatingPoint}.

Lemma PATH_AddEntry_grants pt f q :
  heap_grants ->
  exists q',
    PATH_AddEntry pt f q = Done (true, q') /\
    points q' = points q ++ [pt] /\ flags q' = flags q ++ [f] /\
    pos q' = pos q /\ newStroke q' = newStroke q.
Proof.
  intros Hheap. rewrite PATH_AddEntry_run, heap_grants_reserve by done.
  eexists. split; [done|]. apply appended_grown_fields.
Qed.

Lemma PATH_Arc_figure fuel x1 y1 x2 y2 xs ys xe ye dir lines spans p :
  heap_grants -> x1 <> x2 -> y1 <> y2 -> lines <> -1 ->
  arc_goes_through fuel x1 y1 x2 y2 xs ys xe ye dir spans ->
  let n := (3 * length spans)%nat in
  exists p1 pts,
    points p1 = points p ++ pts /\ length pts = S n /\
    flags p1 = flags p ++ PT_MOVETO :: replicate n PT_BEZIERTO /\
    pos p1 = pos p /\ newStroke p1 = newStroke p /\ (1 <= length spans)%nat /\
    PATH_Arc fuel x1 y1 x2 y2 xs ys xe ye dir lines p =
    Done (Some true,
          if lines =? 1
          then set_flags (<[(count p1 - 1)%nat := Z.lor PT_BEZIERTO PT_CLOSEFIGURE]>
                            (flags p1)) p1
          else if lines =? 2
          then appended (grown p1 (count p1 + 1)) [arc_centre x1 y1 x2 y2]
                 [Z.lor PT_LINETO PT_CLOSEFIGURE]
          else p1).
Proof.
  intros Hheap Hx Hy Hlines. unfold arc_goes_through, PATH_Arc.
  rewrite not_degenerate by done.
  destruct (arc_end_angle _ _ _) as [angleEnd on_the_right_side].
  intros (-> & Hspans & Hok). unfold bind at 1, assert at 1.
  apply Z.eqb_neq in Hlines. rewrite Hlines. unfold bind at 1, ret at 1. cbn [negb].
  change (if decide (GetGraphicsMode = GM_COMPATIBLE) then _ else _)
    with (arc_box x1 y1 x2 y2).
  destruct (arc_quadrants_grants (arc_box x1 y1 x2 y2) _ _ dir lines Hheap
              fuel true (dbl 0) spans p Hspans Hok)
    as (p1 & pts & Hrun & Hp1 & Hl & (span & Hspan & _) & Hf & Hpos & Hns).
  rewrite Hlines in Hf.
  assert (1 <= length spans)%nat as Hone.
  { destruct spans; [done|]. simpl. lia. }
  exists p1, pts. split; [done|]. split; [simpl in Hl; lia|]. split; [done|].
  split; [done|]. split; [done|]. split; [done|].
  unfold bind at 1. rewrite Hrun.
  destruct (lines =? 1).
  { unfold bind. rewrite (close_figure_run p1 PT_BEZIERTO); [done|].
    rewrite Hf. cbn [app].
    replace (3 * length spans)%nat with (S (3 * length spans - 1))%nat by lia.
    rewrite replicate_S_end.
    change (PT_MOVETO :: ?l ++ [PT_BEZIERTO]) with ((PT_MOVETO :: l) ++ [PT_BEZIERTO]).
    by rewrite app_assoc, last_snoc. }
  destruct (lines =? 2); [|done].
  unfold bind. rewrite PATH_AddEntry_run, heap_grants_reserve by done. done.
Qed.

(** X18. The arcs whose box is not empty, on a heap that grants the blocks,
    when the floating-point part of the call goes through (no assertion on
    the angles fails and the quadrant loop ends, after the pieces
    [spans]): [Arc] appends a MOVE and three BEZIER entries for each
    piece, whatever the current position, and leaves position and latch as
    they were; [Chord] does the same and sets CLOSE on the last entry; [Pie]
    adds a LINE|CLOSE entry at the centre; [ArcTo] continues the stroke, with
    the synthetic MOVE when one is needed, by a LINE to the start of the arc
    and the BEZIER entries, and moves the current position to the end of
    the arc. *)
Theorem arcs_entries (fuel : nat) (left top right bottom xs ys xe ye : INT)
    (spans : list (double * double)) (p : gdi_path) :
  heap_grants -> parallel p -> left <> right -> top <> bottom ->
  arc_goes_through fuel left top right bottom xs ys xe ye GetArcDirection spans ->
  let n := (3 * length spans)%nat in
  (1 <= length spans)%nat /\
  (exists p' pts,
     pathdrv_Arc fuel left top right bottom xs ys xe ye p = Done (Some true, p') /\
     points p' = points p ++ pts /\ length pts = S n /\
     flags p' = flags p ++ PT_MOVETO :: replicate n PT_BEZIERTO /\
     pos p' = pos p /\ newStroke p' = newStroke p) /\
  (exists p' pts,
     pathdrv_Chord fuel left top right bottom xs ys xe ye p = Done (Some true, p') /\
     points p' = points p ++ pts /\ length pts = S n /\
     flags p' = flags p ++ PT_MOVETO :: replicate (n - 1) PT_BEZIERTO
                  ++ [Z.lor PT_BEZIERTO PT_CLOSEFIGURE] /\
     pos p' = pos p /\ newStroke p' = newStroke p) /\
  (exists p' pts,
     pathdrv_Pie fuel left top right bottom xs ys xe ye p = Done (Some true, p') /\
     points p' = points p ++ pts ++ [arc_centre left top right bottom] /\
     length pts = S n /\
     flags p' = flags p ++ PT_MOVETO :: replicate n PT_BEZIERTO
                  ++ [Z.lor PT_LINETO PT_CLOSEFIGURE] /\
     pos p' = pos p /\ newStroke p' = newStroke p) /\
  (exists p' pts,
     pathdrv_ArcTo fuel left top right bottom xs ys xe ye p = Done (Some true, p') /\
     points p' = points p ++ stroke_start_points p ++ pts /\ length pts = S n /\
     flags p' = flags p ++ stroke_start_flags p ++ PT_LINETO :: replicate n PT_BEZIERTO /\
     arc_end left top right bottom spans = Some (pos p') /\
     last (points p') = Some (pos p') /\ newStroke p' = false).
Proof.
  intros Hheap Hp Hx Hy Hfloat n. split; [|split; [|split; [|split]]].
  - by destruct (PATH_Arc_figure fuel left top right bottom xs ys xe ye GetArcDirection 0
                   spans p Hheap Hx Hy ltac:(done) Hfloat) as (_ & _ & _ & _ & _ & _ & _ & ? & _).
  - destruct (PATH_Arc_figure fuel left top right bottom xs ys xe ye GetArcDirection 0
                spans p Hheap Hx Hy ltac:(done) Hfloat)
      as (p1 & pts & Hp1 & Hl & Hf & Hpos & Hns & _ & Hrun).
    exists p1, pts. split; [exact Hrun|]. done.
  - destruct (PATH_Arc_figure fuel left top right bottom xs ys xe ye GetArcDirection 1
                spans p Hheap Hx Hy ltac:(done) Hfloat)
      as (p1 & pts & Hp1 & Hl & Hf & Hpos & Hns & Hone & Hrun).
    eexists _, pts. split; [exact Hrun|]. simpl. split; [done|]. split; [done|].
    split; [|done]. rewrite Hf. fold n.
    assert (n = S (n - 1)) as Hn by (unfold n; lia).
    rewrite Hn at 1. rewrite replicate_S_end.
    replace (count p1 - 1)%nat
      with (length (flags p ++ PT_MOVETO :: replicate (n - 1) PT_BEZIERTO)).
    2:{ unfold count. rewrite Hf, !length_app. simpl. rewrite !length_replicate.
        fold n. lia. }
    change (PT_MOVETO :: ?l ++ [PT_BEZIERTO]) with ((PT_MOVETO :: l) ++ [PT_BEZIERTO]).
    rewrite app_assoc, insert_last, <- app_assoc. done.
  - destruct (PATH_Arc_figure fuel left top right bottom xs ys xe ye GetArcDirection 2
                spans p Hheap Hx Hy ltac:(done) Hfloat)
      as (p1 & pts & Hp1 & Hl & Hf & Hpos & Hns & _ & Hrun).
    eexists _, pts. split; [exact Hrun|]. cbv iota beta.
    change (2 =? 1) with false. change (2 =? 2) with true. cbv iota.
    destruct (appended_grown_fields p1 (count p1 + 1) [arc_centre left top right bottom]
                [Z.lor PT_LINETO PT_CLOSEFIGURE]) as (-> & -> & -> & ->).
    rewrite Hp1, Hf, Hpos, Hns, <- !app_assoc. done.
  - by apply PATH_Arc_stroke.
Qed.


(** ** Round rectangles *)

Lemma pathdrv_RoundRect_grants x1 y1 x2 y2 w h p :
  heap_grants ->
  let l := rect_left x1 y1 x2 y2 in
  let t := rect_top x1 y1 x2 y2 in
  let r := rect_right x1 y1 x2 y2 in
  let b := rect_bottom x1 y1 x2 y2 in
  exists p' arc1 arc2 arc3 arc4,
    pathdrv_RoundRect x1 y1 x2 y2 w h p = Done (true, p') /\
    points p' = points p ++ arc1 ++ [mkPOINT (l + w ÷ 2) t]
                  ++ arc2 ++ [mkPOINT l (b - h ÷ 2)]
                  ++ arc3 ++ [mkPOINT (r - w ÷ 2) b] ++ arc4 /\
    length arc1 = 4%nat /\ length arc2 = 3%nat /\ length arc3 = 3%nat /\
    length arc4 = 3%nat /\
    flags p' = flags p ++ RoundRect_tags /\
    pos p' = pos p /\ newStroke p' = newStroke p.
Proof.
  intros Hheap l t r b. unfold pathdrv_RoundRect.
  destruct quarter_turns as (Hturn1 & Hturn2 & Hturn3 & Hturn4).
  rewrite PATH_CheckCorners_spec. fold l t r b. cbn [x y].
  unfold bind at 1.
  match goal with
  | |- context [PATH_DoArcPart ?c ?a1 ?a2 ?ty ?q] =>
      destruct (PATH_DoArcPart_grants c a1 a2 ty q Hheap Hturn1)
        as (q1 & a1' & -> & Hp1 & Hl1 & _ & Hf1 & Hpos1 & Hns1)
  end.
  cbn [negb]. unfold bind at 1.
  match goal with
  | |- context [PATH_AddEntry ?pt ?f ?q] =>
      destruct (PATH_AddEntry_grants pt f q Hheap) as (q2 & -> & Hp2 & Hf2 & Hpos2 & Hns2)
  end.
  cbn [negb]. unfold bind at 1.
  match goal with
  | |- context [PATH_DoArcPart ?c ?a1 ?a2 ?ty ?q] =>
      destruct (PATH_DoArcPart_grants c a1 a2 ty q Hheap Hturn2)
        as (q3 & a2' & -> & Hp3 & Hl3 & _ & Hf3 & Hpos3 & Hns3)
  end.
  cbn [negb]. unfold bind at 1.
  match goal with
  | |- context [PATH_AddEntry ?pt ?f ?q] =>
      destruct (PATH_AddEntry_grants pt f q Hheap) as (q4 & -> & Hp4 & Hf4 & Hpos4 & Hns4)
  end.
  cbn [negb]. unfold bind at 1.
  match goal with
  | |- context [PATH_DoArcPart ?c ?a1 ?a2 ?ty ?q] =>
      destruct (PATH_DoArcPart_grants c a1 a2 ty q Hheap Hturn3)
        as (q5 & a3' & -> & Hp5 & Hl5 & _ & Hf5 & Hpos5 & Hns5)
  end.
  cbn [negb]. unfold bind at 1.
  match goal with
  | |- context [PATH_AddEntry ?pt ?f ?q] =>
      destruct (PATH_AddEntry_grants pt f q Hheap) as (q6 & -> & Hp6 & Hf6 & Hpos6 & Hns6)
  end.
  cbn [negb]. unfold bind at 1.
  match goal with
  | |- context [PATH_DoArcPart ?c ?a1 ?a2 ?ty ?q] =>
      destruct (PATH_DoArcPart_grants c a1 a2 ty q Hheap Hturn4)
        as (q7 & a4' & -> & Hp7 & Hl7 & _ & Hf7 & Hpos7 & Hns7)
  end.
  cbn [negb].
  change (PT_MOVETO =? 0) with false in Hl1, Hf1.
  change (0 =? 0) with true in Hl3, Hf3, Hl5, Hf5, Hl7, Hf7.
  cbv iota in Hl1, Hf1, Hl3, Hf3, Hl5, Hf5, Hl7, Hf7.
  assert (flags q7 = (flags p ++ removelast RoundRect_tags) ++ [PT_BEZIERTO]) as Hflags.
  { rewrite Hf7, Hf6, Hf5, Hf4, Hf3, Hf2, Hf1, <- !app_assoc. done. }
  unfold bind. rewrite (close_figure_run q7 PT_BEZIERTO) by (by rewrite Hflags, last_snoc).
  unfold ret. exists (set_flags (<[(count q7 - 1)%nat :=
                                   Z.lor PT_BEZIERTO PT_CLOSEFIGURE]> (flags q7)) q7),
    a1', a2', a3', a4'.
  split; [done|]. simpl.
  split. { rewrite Hp7, Hp6, Hp5, Hp4, Hp3, Hp2, Hp1, <- !app_assoc. done. }
  do 4 (split; [done|]). split.
  - replace (count q7 - 1)%nat with (length (flags p ++ removelast RoundRect_tags)).
    2:{ unfold count. rewrite Hflags, !length_app. cbn [length]. lia. }
    rewrite Hflags, insert_last, <- app_assoc. done.
  - rewrite Hpos7, Hpos6, Hpos5, Hpos4, Hpos3, Hpos2, Hpos1.
    rewrite Hns7, Hns6, Hns5, Hns4, Hns3, Hns2, Hns1. done.
Qed.

(** X19. A round rectangle, on a heap that grants the blocks, is sixteen
    entries that start a figure of their own and close it: a MOVE and three
    BEZIER entries for the first corner, then for each of the other three
    corners a LINE and three BEZIER entries, CLOSE on the last one.  The
    three LINE entries lie on the top, left and bottom sides of the ordered,
    device-mapped box, half an ellipse axis (rounded toward zero) from the
    corner; current position and latch stay as they were. *)
Theorem round_rect_entries (x1 y1 x2 y2 ell_width ell_height : INT) (p : gdi_path) :
  heap_grants ->
  let l := rect_left x1 y1 x2 y2 in
  let t := rect_top x1 y1 x2 y2 in
  let r := rect_right x1 y1 x2 y2 in
  let b := rect_bottom x1 y1 x2 y2 in
  exists p' arc1 arc2 arc3 arc4,
    pathdrv_RoundRect x1 y1 x2 y2 ell_width ell_height p = Done (true, p') /\
    points p' = points p ++ arc1 ++ [mkPOINT (l + ell_width ÷ 2) t]
                  ++ arc2 ++ [mkPOINT l (b - ell_height ÷ 2)]
                  ++ arc3 ++ [mkPOINT (r - ell_width ÷ 2) b] ++ arc4 /\
    length arc1 = 4%nat /\ length arc2 = 3%nat /\ length arc3 = 3%nat /\
    length arc4 = 3%nat /\
    flags p' = flags p ++ RoundRect_tags /\
    pos p' = pos p /\ newStroke p' = newStroke p.
Proof. apply pathdrv_RoundRect_grants. Qed.

(** ** Shapes that record nothing *)

(** X20. An ellipse whose box has no width or no height, and an angle arc
    of radius 0, succeed and record nothing: entries, current position and
    latch stay as they were; the angle arc does not even draw the line to
    the centre.  The calls return before any floating-point computation
    of [PATH_Arc], whatever the bound [fuel] on its quadrant loop. *)
Theorem empty_ellipse_and_angle_arc (fuel : nat) (p : gdi_path) :
  (forall x1 y1 x2 y2, x1 = x2 \/ y1 = y2 ->
     pathdrv_Ellipse fuel x1 y1 x2 y2 p = Done (Some true, p)) /\
  (forall x0 y0 eStartAngle eSweepAngle,
     pathdrv_AngleArc fuel x0 y0 0 eStartAngle eSweepAngle p = Done (Some true, p)).
Proof.
  split.
  - intros x1 y1 x2 y2 Hbox. unfold pathdrv_Ellipse. by apply PATH_Arc_degenerate.
  - intros x0 y0 s w. unfold pathdrv_AngleArc.
    destruct (AngleArc_ends x0 y0 0 s w) as [[[xa ya] xb] yb].
    apply PATH_Arc_degenerate. left. by rewrite Z.sub_0_r, Z.add_0_r.
Qed.

(** ** The structure of recorded paths under the shapes *)

Lemma capacity_PATH_DoArcPart a corners angleStart angleEnd t :
  keeps (capacity_from a) (PATH_DoArcPart corners angleStart angleEnd t).
Proof.
  unfold PATH_DoArcPart. apply keeps_bind; [apply keeps_assert|intros _].
  destruct (DoArcPart_points corners angleStart angleEnd) as [[[p0 p1] p2] p3].
  apply keeps_bind; [apply capacity_add_points|intros [i|]]; [|apply keeps_ret].
  apply keeps_bind; [|intros _; apply keeps_ret].
  destruct (decide _); [apply capacity_set_flag|apply keeps_ret].
Qed.

Lemma capacity_arc_quadrants a fuel corners angleStart angleEnd direction lines :
  forall start angleEndQuadrant,
    keeps (capacity_from a)
      (arc_quadrants fuel corners angleStart angleEnd direction lines start
         angleEndQuadrant).
Proof.
  induction fuel as [|fuel IH]; intros start angleEndQuadrant; cbn [arc_quadrants];
    [apply keeps_ret|].
  apply keeps_bind; [apply capacity_PATH_DoArcPart|intros _].
  match goal with |- keeps _ (if ?c then _ else _) => destruct c end;
    [apply keeps_ret|apply IH].
Qed.

Lemma capacity_PATH_Arc a fuel x1 y1 x2 y2 xs ys xe ye dir lines :
  keeps (capacity_from a) (PATH_Arc fuel x1 y1 x2 y2 xs ys xe ye dir lines).
Proof.
  unfold PATH_Arc. destruct (_ || _); [apply keeps_ret|].
  destruct (arc_end_angle _ _ _) as [angleEnd on_the_right_side].
  apply keeps_bind; [apply keeps_assert|intros _].
  apply keeps_bind.
  { destruct (lines =? -1); [apply capacity_start_new_stroke|apply keeps_ret]. }
  intros ok. destruct (negb ok); [apply keeps_ret|].
  apply keeps_bind; [apply capacity_arc_quadrants|intros [[]|]]; [|apply keeps_ret].
  destruct (lines =? -1).
  { apply keeps_bind; [apply capacity_update_current_pos|intros _; apply keeps_ret]. }
  destruct (lines =? 1).
  { apply keeps_bind; [apply capacity_close_figure|intros _; apply keeps_ret]. }
  destruct (lines =? 2); [|apply keeps_ret].
  apply keeps_bind; [apply capacity_PATH_AddEntry|intros ok2].
  destruct (negb ok2); apply keeps_ret.
Qed.

Lemma capacity_pathdrv_RoundRect a x1 y1 x2 y2 w h :
  keeps (capacity_from a) (pathdrv_RoundRect x1 y1 x2 y2 w h).
Proof.
  unfold pathdrv_RoundRect. destruct (PATH_CheckCorners _ _ _ _) as [c0 c1].
  repeat (first
    [ apply keeps_ret
    | apply capacity_PATH_DoArcPart
    | apply capacity_PATH_AddEntry
    | apply capacity_close_figure
    | apply keeps_bind; [|intros ?]
    | match goal with |- keeps _ (if ?c then _ else _) => destruct c end ]).
Qed.

Lemma recorded_extended p p1 pts added :
  recorded p -> points p1 = points p ++ pts -> flags p1 = flags p ++ added ->
  length pts = length added -> bezier_runs added 0 = true ->
  (flags p = [] -> forall f, added !! 0%nat = Some f -> base_type f = PT_MOVETO) ->
  recorded p1.
Proof.
  intros [Hp Hgood] Hpts Hfl Hlen Hruns Hfirst. split.
  - unfold parallel in *. rewrite Hpts, Hfl, !length_app. lia.
  - rewrite Hfl. by apply good_flags_app.
Qed.

(** On a heap that grants the blocks the quadrant loop stops on the
    assertion of [PATH_DoArcPart], or has added, when it ends or when the
    fuel is spent, the entry of the first control point and three BEZIER
    entries for each of the [k] pieces it went through. *)
Lemma arc_quadrants_shape corners angleStart angleEnd direction lines :
  heap_grants ->
  forall fuel start angleEndQuadrant q,
    arc_quadrants fuel corners angleStart angleEnd direction lines start angleEndQuadrant q
      = AssertFailed \/
    exists ended q' pts k,
      arc_quadrants fuel corners angleStart angleEnd direction lines start angleEndQuadrant q
        = Done (ended, q') /\
      points q' = points q ++ pts /\
      flags q' = flags q
                   ++ (if start && negb (k =? 0)%nat
                       then [if lines =? -1 then PT_LINETO else PT_MOVETO] else [])
                   ++ replicate (3 * k) PT_BEZIERTO /\
      length pts = ((if start && negb (k =? 0)%nat then 1 else 0) + 3 * k)%nat /\
      pos q' = pos q /\ newStroke q' = newStroke q /\
      (ended <> None -> k <> 0%nat).
Proof.
  intros Hheap. induction fuel as [|fuel IH]; intros start angleEndQuadrant q.
  { right. exists None, q, [], 0%nat. rewrite andb_false_r, !app_nil_r. done. }
  cbn [arc_quadrants].
  set (angleStartQuadrant := if start then angleStart else angleEndQuadrant).
  set (quadrantEnd := if start then _ else _).
  set (end_ := match direction with AD_COUNTERCLOCKWISE => _ | AD_CLOCKWISE => _ end).
  set (span_end := if end_ then angleEnd else quadrantEnd).
  set (t := if start then (if lines =? -1 then PT_LINETO else PT_MOVETO) else 0).
  assert ((if t =? 0 then 3%nat else 4%nat) = ((if start then 1 else 0) + 3)%nat /\
          (if t =? 0 then [] else [t]) =
          (if start then [if lines =? -1 then PT_LINETO else PT_MOVETO] else [])) as [Hn Ht].
  { unfold t. destruct start; [|done]. by destruct (lines =? -1). }
  destruct (quarter_at_most (angleStartQuadrant, span_end)) eqn:Hspan.
  2:{ left. unfold bind.
      by rewrite (PATH_DoArcPart_asserts corners angleStartQuadrant span_end t q Hspan). }
  destruct (PATH_DoArcPart_grants corners angleStartQuadrant span_end t q Hheap Hspan)
    as (q1 & pts1 & Hrun & Hp1 & Hl1 & _ & Hf1 & Hpos1 & Hns1).
  rewrite Hn in Hl1. rewrite Ht in Hf1.
  unfold bind. rewrite !Hrun. destruct end_.
  - right. exists (Some tt), q1, pts1, 1%nat. rewrite andb_true_r.
    split; [reflexivity|]. split; [done|]. split; [done|]. done.
  - destruct (IH false span_end q1)
      as [Hfail|(ended & q' & pts & k & Hrun' & Hp & Hf & Hl & Hpos & Hns & Hk)].
    + left. exact Hfail.
    + right. exists ended, q', (pts1 ++ pts), (S k). rewrite andb_true_r.
      split; [exact Hrun'|].
      cbn [andb app] in Hf, Hl.
      rewrite Hp, Hp1, Hf, Hf1, Hpos, Hpos1, Hns, Hns1, <- !app_assoc, length_app, Hl1, Hl.
      split; [done|]. split.
      { replace (3 * S k)%nat with (3 + 3 * k)%nat by lia. by rewrite replicate_add. }
      split; [lia|]. done.
Qed.

Lemma first_and_beziers_runs (t : BYTE) k :
  t = PT_LINETO \/ t = PT_MOVETO ->
  forall b : bool,
    bezier_runs ((if b then [t] else []) ++ replicate (3 * k) PT_BEZIERTO) 0 = true.
Proof.
  intros Ht b.
  assert (bezier_runs (replicate (3 * k) PT_BEZIERTO) 0 = true) as Hruns.
  { rewrite bezier_runs_replicate. apply Nat.eqb_eq.
    rewrite Nat.add_0_l, Nat.mul_comm. apply Nat.Div0.mod_mul. }
  destruct b; [|done]. cbn [app bezier_runs].
  by destruct Ht as [-> | ->].
Qed.

Lemma PATH_Arc_recorded fuel x1 y1 x2 y2 xs ys xe ye dir lines p :
  heap_grants -> recorded p ->
  PATH_Arc fuel x1 y1 x2 y2 xs ys xe ye dir lines p = AssertFailed \/
  exists r p', PATH_Arc fuel x1 y1 x2 y2 xs ys xe ye dir lines p = Done (r, p') /\
    recorded p'.
Proof.
  intros Hheap Hrec.
  destruct (decide (x1 = x2 \/ y1 = y2)) as [Hbox|Hbox].
  { right. rewrite PATH_Arc_degenerate by done. by exists (Some true), p. }
  assert (x1 <> x2 /\ y1 <> y2) as [Hx Hy] by (split; intros ->; apply Hbox; auto).
  match goal with
  | |- ?a = _ \/ _ =>
      assert (exists res, a = res /\
                (res = AssertFailed \/
                 exists r p', res = Done (r, p') /\ recorded p')) as (res & -> & Hres);
        [|exact Hres]
  end.
  unfold PATH_Arc. rewrite not_degenerate by done.
  destruct (arc_end_angle _ _ _) as [angleEnd on_the_right_side].
  unfold bind at 1, assert at 1.
  destruct on_the_right_side; [|eexists; split; [reflexivity|by left]].
  change (if decide (GetGraphicsMode = GM_COMPATIBLE) then _ else _)
    with (arc_box x1 y1 x2 y2).
  assert (exists p0, (if lines =? -1 then start_new_stroke else ret true) p = Done (true, p0) /\
            recorded p0 /\ (lines = -1 -> count p0 <> 0%nat)) as (p0 & Hrun0 & Hrec0 & Hc0).
  { destruct (Z.eqb_spec lines (-1)) as [->|Hl].
    - destruct (start_new_stroke_cases p (proj1 Hrec))
        as (ok & p0 & Hrun0 & Hp0 & _ & Ht0 & _ & Hh0).
      rewrite (Hh0 Hheap) in *. exists p0. split; [done|].
      destruct (Ht0 eq_refl) as (Hpts0 & Hfl0 & _ & Hcount).
      split; [|done].
      destruct (stroke_start_flags_good p) as [Hruns Hempty].
      apply (recorded_extended p p0 (stroke_start_points p) (stroke_start_flags p));
        try done.
      + unfold stroke_start_points, stroke_start_flags. by destruct (needs_new_stroke p).
      + intros Hnil f. rewrite (Hempty Hnil). by intros [= <-].
    - exists p. split; [done|]. split; [done|]. intros ->. done. }
  unfold bind at 1. rewrite Hrun0. cbn [negb].
  destruct (arc_quadrants_shape (arc_box x1 y1 x2 y2)
              (arc_angle (arc_corners x1 y1 x2 y2) xs ys) angleEnd dir lines Hheap
              fuel true (dbl 0) p0)
    as [Hfail|(ended & p1 & pts & k & Hrun & Hp1 & Hf & Hl & _ & _ & Hk)].
  { unfold bind. rewrite Hfail. eexists; split; [reflexivity|by left]. }
  unfold bind at 1. rewrite Hrun.
  cbn [andb] in Hf, Hl.
  assert (recorded p1) as Hrec1.
  { apply (recorded_extended p0 p1 pts _ Hrec0 Hp1 Hf).
    - rewrite length_app, length_replicate. rewrite Hl.
      by destruct (negb (k =? 0)%nat).
    - apply first_and_beziers_runs. destruct (lines =? -1); auto.
    - intros Hnil f. destruct (negb (k =? 0)%nat) eqn:Hkz.
      + cbn [app lookup list_lookup]. intros [= <-].
        destruct (Z.eqb_spec lines (-1)) as [Hm|_]; [|done].
        exfalso. apply (Hc0 Hm). unfold count. by rewrite Hnil.
      + apply negb_false_iff, Nat.eqb_eq in Hkz. subst k. done. }
  destruct ended as [[]|];
    [|eexists; split; [reflexivity|right; by exists None, p1]].
  assert (k <> 0%nat) as Hk0 by (by apply Hk).
  assert (last (flags p1) = Some PT_BEZIERTO) as Hlast.
  { rewrite Hf. destruct k as [|k]; [done|].
    replace (3 * S k)%nat with (S (3 * k + 2)) by lia.
    rewrite replicate_S_end, !app_assoc. by rewrite last_snoc. }
  destruct (lines =? -1).
  { assert (exists q, last (points p1) = Some q) as [q Hq].
    { destruct (last (points p1)) eqn:Hlp; [by eexists|].
      apply last_None in Hlp. destruct Hrec1 as [Hpar _]. unfold parallel in Hpar.
      rewrite Hlp in Hpar. symmetry in Hpar. apply length_zero_iff_nil in Hpar.
      by rewrite Hpar in Hlast. }
    unfold bind. rewrite (update_current_pos_run p1 q (proj1 Hrec1) Hq).
    eexists; split; [reflexivity|right]. eexists _, _. split; [done|]. exact Hrec1. }
  destruct (lines =? 1).
  { unfold bind. rewrite (close_figure_run p1 PT_BEZIERTO Hlast).
    eexists; split; [reflexivity|right]. eexists _, _. split; [done|].
    by apply recorded_close. }
  destruct (lines =? 2);
    [|eexists; split; [reflexivity|right; by exists (Some true), p1]].
  unfold bind. rewrite PATH_AddEntry_run, heap_grants_reserve by done.
  eexists; split; [reflexivity|right]. eexists _, _. split; [done|].
  apply appended_recorded; try done.
  intros Hnil. by rewrite Hnil in Hlast.
Qed.

(** X21. The shapes keep what the recorder keeps.  On a heap that grants
    the blocks and on a recorded path whose entries fit its arrays, [Arc],
    [ArcTo], [Chord], [Pie], [Ellipse] and [AngleArc] touch no cell outside
    the arrays: the call stops on one of the assertions on its angles, or
    it comes to a path whose first tag is MOVE up to the CLOSE bit, whose
    BEZIER runs have a length divisible by 3 and whose entries fit its
    arrays, be it when it returns or when the bound on its quadrant loop
    is reached.  [RoundRect] always returns success with such a path. *)
Theorem shapes_keep_structure (p : gdi_path) :
  heap_grants -> recorded p -> within_capacity p ->
  let kept (m : M (option bool)) :=
    m p = AssertFailed \/
    exists r p', m p = Done (r, p') /\ recorded p' /\ within_capacity p' in
  (forall fuel left top right bottom xs ys xe ye,
     kept (pathdrv_Arc fuel left top right bottom xs ys xe ye) /\
     kept (pathdrv_ArcTo fuel left top right bottom xs ys xe ye) /\
     kept (pathdrv_Chord fuel left top right bottom xs ys xe ye) /\
     kept (pathdrv_Pie fuel left top right bottom xs ys xe ye)) /\
  (forall fuel x1 y1 x2 y2, kept (pathdrv_Ellipse fuel x1 y1 x2 y2)) /\
  (forall fuel x0 y0 radius eStartAngle eSweepAngle,
     kept (pathdrv_AngleArc fuel x0 y0 radius eStartAngle eSweepAngle)) /\
  (forall x1 y1 x2 y2 ell_width ell_height,
     exists p',
       pathdrv_RoundRect x1 y1 x2 y2 ell_width ell_height p = Done (true, p') /\
       recorded p' /\ within_capacity p').
Proof.
  intros Hheap Hrec Hcap kept.
  assert (forall fuel x1 y1 x2 y2 xs ys xe ye dir lines,
            kept (PATH_Arc fuel x1 y1 x2 y2 xs ys xe ye dir lines)) as Harc.
  { intros. unfold kept.
    destruct (PATH_Arc_recorded fuel x1 y1 x2 y2 xs ys xe ye dir lines p Hheap Hrec)
      as [Hfail|(r & p' & Hrun & Hrec')]; [by left|right].
    pose proof (capacity_PATH_Arc 0 fuel x1 y1 x2 y2 xs ys xe ye dir lines p
                  (conj Hcap (Nat.le_0_l _))) as Hkeep.
    rewrite Hrun in Hkeep. exists r, p'. split; [done|]. split; [done|apply Hkeep]. }
  split; [|split; [|split]].
  - intros. repeat split; apply Harc.
  - intros. apply Harc.
  - intros. unfold pathdrv_AngleArc.
    destruct (AngleArc_ends _ _ _ _ _) as [[[xa ya] xb] yb]. apply Harc.
  - intros.
    destruct (pathdrv_RoundRect_grants x1 y1 x2 y2 ell_width ell_height p Hheap)
      as (p' & a1 & a2 & a3 & a4 & Hrun & Hp & Hl1 & Hl2 & Hl3 & Hl4 & Hf & _).
    pose proof (capacity_pathdrv_RoundRect 0 x1 y1 x2 y2 ell_width ell_height p
                  (conj Hcap (Nat.le_0_l _))) as Hkeep.
    rewrite Hrun in Hkeep. exists p'. split; [done|]. split; [|apply Hkeep].
    eapply (recorded_extended p p' _ RoundRect_tags); try done.
    + rewrite !length_app, Hl1, Hl2, Hl3, Hl4. done.
    + intros _ f. by intros [= <-].
Qed.

End Shape_properties.

(** * Glyph outlines *)

Section Outline_properties.
Context `{Host}.

(** X22. The integer of a fixed-point number is the number rounded to the
    nearest integer, halves upwards: for a fraction of 16 bits,
    [int_from_fixed] is the floor of (value + fract / 65536 + 1/2). *)
Theorem int_from_fixed_rounds (f : FIXED) :
  0 <= fract f < 65536 ->
  int_from_fixed f = (65536 * fixed_value f + fract f + 32768) / 65536.
Proof.
  intros Hfract. unfold int_from_fixed.
  destruct (Z.leb_spec 0x8000 (fract f)) as [Hhalf|Hhalf].
  - apply (Z.div_unique _ _ _ (fract f - 32768)); lia.
  - apply (Z.div_unique _ _ _ (fract f + 32768)); lia.
Qed.

Lemma add_points_grants pts cnt type q :
  heap_grants -> (cnt <= length pts)%nat ->
  exists q',
    add_points pts cnt type q = Done (Some (count q), q') /\
    points q' = points q ++ take cnt pts /\ flags q' = flags q ++ replicate cnt type /\
    pos q' = pos q /\ newStroke q' = newStroke q.
Proof.
  intros Hheap Hcnt. rewrite add_points_run, heap_grants_reserve by done.
  eexists. split; [done|]. apply appended_grown_fields.
Qed.

Lemma BezierTo_loop_run lppt :
  heap_grants ->
  forall m i pt2 q rest,
    drop (i + 1) lppt = rest -> length rest = m -> (2 <= m)%nat ->
    exists q' i' pt2' c e,
      BezierTo_loop lppt m i pt2 q = Done ((i', pt2'), q') /\
      drop (i' + 1) lppt = [c; e] /\
      points q ++ spline_points pt2 rest = points q' ++ [pt2'; c; e] /\
      flags q' = flags q ++ replicate (3 * (m - 2)) PT_BEZIERTO /\
      pos q' = pos q /\ newStroke q' = newStroke q.
Proof.
  intros Hheap. induction m as [|m IH]; intros i pt2 q rest Hdrop Hlen Hm; [lia|].
  cbn [BezierTo_loop]. destruct (decide (2 < S m)%nat) as [Hbig|Hsmall].
  - destruct rest as [|c [|d [|e more]]]; try (simpl in Hlen; lia).
    assert (lppt !! (i + 1)%nat = Some c) as Hc.
    { rewrite <- (Nat.add_0_r (i + 1)), <- lookup_drop, Hdrop. done. }
    assert (lppt !! (i + 2)%nat = Some d) as Hd.
    { replace (i + 2)%nat with (i + 1 + 1)%nat by lia.
      rewrite <- lookup_drop, Hdrop. done. }
    unfold bind at 1. rewrite (load_run _ _ c _ Hc).
    unfold bind at 1. rewrite (load_run _ _ d _ Hd).
    fold (midpoint c d). set (mid := midpoint c d).
    unfold bind at 1.
    destruct (add_points_grants [pt2; c; mid] 3 PT_BEZIERTO q Hheap ltac:(simpl; lia))
      as (q1 & -> & Hp1 & Hf1 & Hpos1 & Hns1).
    destruct (IH (i + 1)%nat mid q1 (d :: e :: more)) as
      (q' & i' & pt2' & c' & e' & -> & Hdrop' & Hp & Hf & Hpos & Hns).
    + rewrite <- drop_drop, Hdrop. done.
    + simpl in *. lia.
    + simpl in *. lia.
    + exists q', i', pt2', c', e'. split; [done|]. split; [done|].
      rewrite Hf, Hf1, Hpos, Hpos1, Hns, Hns1, <- Hp, Hp1, <- !app_assoc.
      split; [done|]. split; [|done].
      replace (3 * (S m - 2))%nat with (3 + 3 * (m - 2))%nat by (simpl in Hlen; lia).
      by rewrite replicate_add.
  - assert (m = 1%nat) as -> by lia.
    destruct rest as [|c [|e [|? ?]]]; try (simpl in Hlen; lia).
    exists q, i, pt2, c, e. split; [done|]. simpl. rewrite app_nil_r. done.
Qed.

Lemma PATH_BezierTo_grants q0 rest p :
  heap_grants -> (2 <= length rest)%nat ->
  exists p',
    PATH_BezierTo (q0 :: rest) (S (length rest)) p = Done (tt, p') /\
    points p' = points p ++ spline_points q0 rest /\
    flags p' = flags p ++ replicate (3 * (length rest - 1)) PT_BEZIERTO /\
    pos p' = pos p /\ newStroke p' = newStroke p.
Proof.
  intros Hheap Hlen. unfold PATH_BezierTo.
  destruct (decide (S (length rest) < 2)%nat); [lia|].
  destruct (decide (S (length rest) = 2)%nat); [lia|].
  destruct (decide (S (length rest) = 3)%nat) as [H3|H3].
  - destruct rest as [|c [|e [|? ?]]]; try (simpl in *; lia).
    unfold bind.
    destruct (add_points_grants [q0; c; e] 3 PT_BEZIERTO p Hheap ltac:(simpl; lia))
      as (p' & -> & Hp & Hf & Hpos & Hns).
    by exists p'.
  - assert ((q0 :: rest) !! 0%nat = Some q0) as Hq0 by done.
    unfold bind at 1. rewrite (load_run _ _ q0 _ Hq0).
    replace (S (length rest) - 1)%nat with (length rest) by lia.
    destruct (BezierTo_loop_run (q0 :: rest) Hheap (length rest) 0 q0 p rest)
      as (q' & i' & pt2' & c & e & Hrun & Hdrop & Hp & Hf & Hpos & Hns); [done|done|lia|].
    unfold bind at 1. rewrite Hrun. cbn [fst snd].
    assert ((q0 :: rest) !! (i' + 1)%nat = Some c) as Hc.
    { rewrite <- (Nat.add_0_r (i' + 1)), <- lookup_drop, Hdrop. done. }
    assert ((q0 :: rest) !! (i' + 2)%nat = Some e) as He.
    { replace (i' + 2)%nat with (i' + 1 + 1)%nat by lia.
      rewrite <- lookup_drop, Hdrop. done. }
    unfold bind at 1. rewrite (load_run _ _ c _ Hc).
    unfold bind at 1. rewrite (load_run _ _ e _ He).
    unfold bind.
    destruct (add_points_grants [pt2'; c; e] 3 PT_BEZIERTO q' Hheap ltac:(simpl; lia))
      as (p' & -> & Hp' & Hf' & Hpos' & Hns').
    exists p'. split; [done|].
    rewrite Hp', Hf', Hpos', Hns', Hf, Hpos, Hns, Hp, <- !app_assoc.
    split; [done|]. split; [|done].
    replace (3 * (length rest - 1))%nat with (3 * (length rest - 2) + 3)%nat by lia.
    by rewrite replicate_add.
Qed.

Lemma spline_points_cons q0 c d e more :
  spline_points q0 (c :: d :: e :: more) =
  q0 :: c :: midpoint c d :: spline_points (midpoint c d) (d :: e :: more).
Proof. done. Qed.

Lemma to_INT_fits z : - 2 ^ 31 <= z < 2 ^ 31 -> to_INT z = z.
Proof. intros Hz. unfold to_INT. rewrite Z.mod_small; lia. Qed.

Lemma midpoint_fits a b :
  sums_fit a b -> midpoint a b = mkPOINT ((x a + x b) ÷ 2) ((y a + y b) ÷ 2).
Proof.
  intros [Hx Hy]. unfold midpoint.
  rewrite (Z.add_comm (x b)), (Z.add_comm (y b)), !to_INT_fits by done. done.
Qed.

Lemma spline_points_ends q0 rest :
  (2 <= length rest)%nat ->
  length (spline_points q0 rest) = (3 * (length rest - 1))%nat /\
  head (spline_points q0 rest) = Some q0 /\
  last (spline_points q0 rest) = last rest.
Proof.
  revert q0. induction rest as [|c rest IH]; intros q0 Hlen; [simpl in Hlen; lia|].
  destruct rest as [|d [|e more]]; [simpl in Hlen; lia|done|].
  rewrite spline_points_cons.
  destruct (IH (midpoint c d) ltac:(simpl; lia)) as (Hl & Hh & Hlast).
  split; [|split; [done|]].
  - cbn [length]. rewrite Hl. simpl. lia.
  - set (tl := spline_points _ (d :: e :: more)) in *.
    change (c :: d :: e :: more) with ([c] ++ d :: e :: more).
    rewrite last_app, <- Hlast.
    destruct tl as [|a tl] using rev_ind; [simpl in Hl; lia|].
    rewrite last_snoc.
    change (q0 :: c :: ?m :: tl ++ [a]) with ((q0 :: c :: m :: tl) ++ [a]).
    by rewrite last_snoc.
Qed.

(** X23. The quadratic-to-cubic helper of the glyph outlines, on a heap
    that grants the blocks: fewer than two points record nothing; two points
    record a LINE to the second; [n >= 3] points record [3 * (n - 2)] BEZIER
    entries, a chain that starts at the first point, ends at the last
    point, and takes as joints the middles of consecutive control points
    as 32-bit arithmetic gives them: the half, rounded toward zero, of a
    sum that wraps around at 32 bits, which is the half of the sum itself
    for control points whose sums of coordinates are [INT] values.  Current
    position and latch stay as they were. *)
Theorem bezier_to_entries (lppt : list POINT) (p : gdi_path) :
  heap_grants ->
  ((length lppt < 2)%nat -> PATH_BezierTo lppt (length lppt) p = Done (tt, p)) /\
  (forall a b, lppt = [a; b] ->
     exists p', PATH_BezierTo lppt 2 p = Done (tt, p') /\
       points p' = points p ++ [b] /\ flags p' = flags p ++ [PT_LINETO] /\
       pos p' = pos p /\ newStroke p' = newStroke p) /\
  (forall q0 rest, lppt = q0 :: rest -> (2 <= length rest)%nat ->
     exists p', PATH_BezierTo lppt (length lppt) p = Done (tt, p') /\
       points p' = points p ++ spline_points q0 rest /\
       flags p' = flags p ++ replicate (3 * (length lppt - 2)) PT_BEZIERTO /\
       pos p' = pos p /\ newStroke p' = newStroke p /\
       length (spline_points q0 rest) = (3 * (length lppt - 2))%nat /\
       head (spline_points q0 rest) = Some q0 /\
       last (spline_points q0 rest) = last lppt) /\
  (forall q0 c d e more,
     spline_points q0 (c :: d :: e :: more) =
     q0 :: c :: midpoint c d :: spline_points (midpoint c d) (d :: e :: more)) /\
  (forall a b, sums_fit a b ->
     midpoint a b = mkPOINT ((x a + x b) ÷ 2) ((y a + y b) ÷ 2)).
Proof.
  intros Hheap. split; [|split; [|split; [|split]]];
    [| | |intros; apply spline_points_cons|intros; by apply midpoint_fits].
  - intros Hn. unfold PATH_BezierTo. by rewrite decide_True.
  - intros a b ->. unfold PATH_BezierTo. simpl. unfold bind at 1, load. simpl.
    unfold bind.
    destruct (PATH_AddEntry_grants b PT_LINETO p Hheap) as (p' & -> & Hrest).
    by exists p'.
  - intros q0 rest -> Hlen.
    destruct (PATH_BezierTo_grants q0 rest p Hheap Hlen) as (p' & Hrun & Hp & Hf & Hrest).
    destruct (spline_points_ends q0 rest Hlen) as (Hl & Hh & Hlast).
    exists p'. cbn [length].
    replace (S (length rest) - 2)%nat with (length rest - 1)%nat by lia.
    split; [done|]. split; [done|]. split; [done|].
    destruct Hrest as [-> ->]. split; [done|]. split; [done|].
    split; [done|]. split; [done|].
    rewrite Hlast. destruct rest; [simpl in Hlen; lia|done].
Qed.

Lemma outline_lines_grants x0 y0 :
  heap_grants ->
  forall ps q,
    exists q',
      outline_lines x0 y0 ps q = Done (tt, q') /\
      points q' = points q ++ map (outline_point x0 y0) ps /\
      flags q' = flags q ++ replicate (length ps) PT_LINETO /\
      pos q' = pos q /\ newStroke q' = newStroke q.
Proof.
  intros Hheap. induction ps as [|pfx ps IH]; intros q.
  - exists q. simpl. by rewrite !app_nil_r.
  - cbn [outline_lines]. unfold bind at 1.
    destruct (PATH_AddEntry_grants (outline_point x0 y0 pfx) PT_LINETO q Hheap)
      as (q1 & -> & Hp1 & Hf1 & Hpos1 & Hns1).
    destruct (IH q1) as (q' & -> & Hp & Hf & Hpos & Hns).
    exists q'. split; [done|].
    rewrite Hp, Hf, Hpos, Hns, Hp1, Hf1, Hpos1, Hns1, <- !app_assoc. done.
Qed.

Lemma outline_curves_grants x0 y0 :
  heap_grants ->
  forall cs before q,
    Forall curve_ok cs ->
    exists q',
      outline_curves x0 y0 before cs q = Done (true, q') /\
      points q' = points q ++ curves_points x0 y0 before cs /\
      flags q' = flags q ++ concat (map curve_tags cs) /\
      pos q' = pos q /\ newStroke q' = newStroke q.
Proof.
  intros Hheap. induction cs as [|curve cs IH]; intros before q Hok.
  - exists q. simpl. by rewrite !app_nil_r.
  - apply Forall_cons in Hok as [Hcurve Hok].
    cbn [outline_curves curves_points map concat]. unfold curve_points, curve_tags.
    destruct Hcurve as [Hline|[Hspline Hlen]].
    + rewrite Hline. change (TT_PRIM_LINE =? TT_PRIM_LINE) with true. cbv iota.
      unfold bind at 1.
      destruct (outline_lines_grants x0 y0 Hheap (apfx curve) q)
        as (q1 & -> & Hp1 & Hf1 & Hpos1 & Hns1).
      destruct (IH (POINTFX_before_next before curve) q1 Hok)
        as (q' & -> & Hp & Hf & Hpos & Hns).
      exists q'. split; [done|].
      rewrite Hp, Hf, Hpos, Hns, Hp1, Hf1, Hpos1, Hns1, <- !app_assoc. done.
    + assert ((wType curve =? TT_PRIM_LINE) = false) as ->.
      { by destruct Hspline as [-> | ->]. }
      assert ((wType curve =? TT_PRIM_QSPLINE) || (wType curve =? TT_PRIM_CSPLINE) = true)
        as ->.
      { by destruct Hspline as [-> | ->]. }
      rewrite Hheap. cbn [negb]. cbv iota.
      unfold bind at 1. rewrite Nat.add_1_r.
      replace (S (length (apfx curve)))
        with (S (length (map (outline_point x0 y0) (apfx curve))))
        by (by rewrite length_map).
      destruct (PATH_BezierTo_grants (outline_point x0 y0 before)
                  (map (outline_point x0 y0) (apfx curve)) q Hheap)
        as (q1 & -> & Hp1 & Hf1 & Hpos1 & Hns1); [by rewrite length_map|].
      destruct (IH (POINTFX_before_next before curve) q1 Hok)
        as (q' & -> & Hp & Hf & Hpos & Hns).
      exists q'. split; [done|].
      rewrite Hp, Hf, Hpos, Hns, Hp1, Hf1, Hpos1, Hns1, <- !app_assoc, length_map. done.
Qed.

Lemma outline_polygons_grants x0 y0 :
  heap_grants ->
  forall headers q,
    Forall header_ok headers ->
    exists q',
      outline_polygons x0 y0 headers q = Done (true, q') /\
      points q' = points q ++ outline_points x0 y0 headers /\
      flags q' = flags q ++ outline_tags headers /\
      pos q' = pos q /\ newStroke q' = newStroke q.
Proof.
  intros Hheap. induction headers as [|header headers IH]; intros q Hok.
  - exists q. unfold outline_points, outline_tags. simpl. by rewrite !app_nil_r.
  - apply Forall_cons in Hok as [[Htype Hcurves] Hok].
    cbn [outline_polygons]. rewrite Htype.
    change (negb (TT_POLYGON_TYPE =? TT_POLYGON_TYPE)) with false. cbv iota.
    unfold bind at 1.
    destruct (PATH_AddEntry_grants (outline_point x0 y0 (pfxStart header)) PT_MOVETO q Hheap)
      as (q1 & -> & Hp1 & Hf1 & Hpos1 & Hns1).
    unfold bind at 1.
    destruct (outline_curves_grants x0 y0 Hheap (curves header) (pfxStart header) q1 Hcurves)
      as (q2 & -> & Hp2 & Hf2 & Hpos2 & Hns2).
    cbn [negb]. cbv iota.
    destruct (IH q2 Hok) as (q' & -> & Hp & Hf & Hpos & Hns).
    exists q'. split; [done|].
    rewrite Hp, Hf, Hpos, Hns, Hp2, Hf2, Hpos2, Hns2, Hp1, Hf1, Hpos1, Hns1.
    unfold outline_points, outline_tags. cbn [map concat].
    rewrite <- !app_assoc. done.
Qed.

Lemma curve_entries_match x0 y0 before curve :
  curve_ok curve ->
  length (curve_points x0 y0 before curve) = length (curve_tags curve) /\
  bezier_runs (curve_tags curve) 0 = true.
Proof.
  unfold curve_points, curve_tags. intros [Hline|[Hspline Hlen]].
  - rewrite Hline. change (TT_PRIM_LINE =? TT_PRIM_LINE) with true. cbv iota.
    rewrite length_map, length_replicate. split; [done|].
    apply bezier_runs_plain, Forall_replicate. done.
  - assert ((wType curve =? TT_PRIM_LINE) = false) as ->.
    { by destruct Hspline as [-> | ->]. }
    destruct (spline_points_ends (outline_point x0 y0 before)
                (map (outline_point x0 y0) (apfx curve))) as (Hl & _);
      [by rewrite length_map|].
    rewrite Hl, length_map, length_replicate. split; [done|].
    rewrite bezier_runs_replicate. apply Nat.eqb_eq.
    rewrite Nat.add_0_l, Nat.mul_comm. apply Nat.Div0.mod_mul.
Qed.

Lemma curves_entries_match x0 y0 cs :
  Forall curve_ok cs ->
  forall before,
    length (curves_points x0 y0 before cs) = length (concat (map curve_tags cs)) /\
    bezier_runs (concat (map curve_tags cs)) 0 = true.
Proof.
  induction 1 as [|curve cs Hcurve Hcs IH]; intros before; [done|].
  cbn [curves_points map concat].
  destruct (curve_entries_match x0 y0 before curve Hcurve) as [Hl Hr].
  destruct (IH (POINTFX_before_next before curve)) as [Hl' Hr'].
  rewrite !length_app, Hl, Hl'. split; [done|]. by apply bezier_runs_app.
Qed.

Lemma outline_entries_match x0 y0 headers :
  Forall header_ok headers ->
  length (outline_points x0 y0 headers) = length (outline_tags headers) /\
  bezier_runs (outline_tags headers) 0 = true.
Proof.
  unfold outline_points, outline_tags.
  induction 1 as [|header headers [_ Hcurves] Hok IH]; [done|].
  cbn [map concat].
  destruct (curves_entries_match x0 y0 (curves header) Hcurves (pfxStart header))
    as [Hl Hr].
  destruct IH as [Hl' Hr'].
  rewrite !length_app. cbn [length]. rewrite Hl, Hl'. split; [done|].
  change (PT_MOVETO :: ?l) with ([PT_MOVETO] ++ l).
  rewrite <- app_assoc. apply bezier_runs_app; [done|]. by apply bezier_runs_app.
Qed.

(** X24. A native glyph outline whose polygons and curves have the known
    types (lines, and splines of two points or more), on a heap that grants
    the blocks: [PATH_add_outline] returns TRUE and appends, for each
    polygon, a MOVE at its start point, a LINE for each point of a line
    curve and the cubic chain of each spline, with x added to and y
    subtracted from the origin in the 32 bits of an [INT], and with the
    joints of a chain at the 32-bit middles of its control points; the
    last entry of all is closed.  Current
    position and latch stay as they were, and a well-formed path stays
    well-formed.  A polygon of another type makes it return FALSE at once,
    with nothing recorded and nothing closed. *)
Theorem add_outline_entries (x0 y0 : INT) (headers : list TTPOLYGONHEADER) (p : gdi_path) :
  heap_grants -> headers <> [] ->
  (Forall header_ok headers ->
   exists p',
     PATH_add_outline x0 y0 headers p = Done (true, p') /\
     points p' = points p ++ outline_points x0 y0 headers /\
     flags p' = flags p ++ close_last (outline_tags headers) /\
     pos p' = pos p /\ newStroke p' = newStroke p /\
     (recorded p -> recorded p')) /\
  (forall header rest, headers = header :: rest -> dwType header <> TT_POLYGON_TYPE ->
     PATH_add_outline x0 y0 headers p = Done (false, p)).
Proof.
  intros Hheap Hne. split.
  - intros Hok.
    destruct (outline_polygons_grants x0 y0 Hheap headers p Hok)
      as (p1 & Hrun & Hp1 & Hf1 & Hpos1 & Hns1).
    destruct (outline_entries_match x0 y0 headers Hok) as [Hlen Hruns].
    destruct headers as [|header headers]; [done|].
    set (tags := outline_tags (header :: headers)) in *.
    assert (exists tags', tags = PT_MOVETO :: tags') as [tags' Htags].
    { unfold tags, outline_tags. cbn [map concat]. by eexists. }
    assert (exists f, last tags = Some f) as [f Hlast].
    { rewrite Htags. destruct (last (PT_MOVETO :: tags')) eqn:E; [by eexists|].
      by apply last_None in E. }
    assert (last (flags p1) = Some f) as Hlast1.
    { rewrite Hf1, last_app, Hlast. done. }
    unfold PATH_add_outline. unfold bind at 1. rewrite Hrun. cbn [negb]. cbv iota.
    unfold bind. rewrite (close_figure_run p1 f Hlast1).
    eexists. split; [done|]. cbn [points flags pos newStroke set_flags].
    assert (recorded p -> recorded p1) as Hrec.
    { intros Hp. apply (recorded_extended p p1 _ tags Hp Hp1 Hf1 Hlen Hruns).
      intros _ f0. rewrite Htags. by intros [= <-]. }
    split; [done|]. split.
    + unfold close_last. rewrite Hlast. unfold count. rewrite Hf1, length_app.
      replace (length (flags p) + length tags - 1)%nat
        with (length (flags p) + (length tags - 1))%nat
        by (rewrite Htags; cbn [length]; lia).
      apply insert_app_r.
    + split; [done|]. split; [done|]. intros Hp. by apply recorded_close; [apply Hrec|].
  - intros header rest -> Htype. unfold PATH_add_outline, bind. cbn [outline_polygons].
    apply Z.eqb_neq in Htype. by rewrite Htype.
Qed.

End Outline_properties.


(** * The further properties at sample inputs *)

Lemma triangle_recorded : recorded triangle.
Proof.
  split; [reflexivity|]. split; [|reflexivity]. intros f [= <-]. reflexivity.
Defined.

Lemma closed_cubic_recorded : recorded closed_cubic.
Proof.
  split; [reflexivity|]. split; [|reflexivity]. intros f [= <-]. reflexivity.
Defined.


Lemma triangle_within_capacity : within_capacity triangle.
Proof. unfold within_capacity, count. simpl. lia. Defined.

Lemma triangle_move_or_line : Forall move_or_line (flags triangle).
Proof.
  apply Forall_cons. split; [left; reflexivity|].
  apply Forall_cons. split; [right; reflexivity|].
  apply Forall_cons. split; [right; reflexivity|]. apply Forall_nil_2.
Defined.

Lemma extensions_chain_witness :
  parallel triangle /\
  (exists p', pathdrv_MoveTo (H := plain_host) 7 7 triangle = Done (true, p') /\
     entries p' = entries triangle /\ pos p' = mkPOINT 7 7 /\
     needs_new_stroke p' = true) /\
  (exists p', pathdrv_CloseFigure triangle = Done (true, p') /\
     points p' = points triangle /\ pos p' = pos triangle /\
     needs_new_stroke p' = true).
Proof.
  split; [reflexivity|].
  destruct (extensions_chain (H := plain_host) triangle eq_refl) as (_ & Hmove & Hclose).
  split; [exact (Hmove 7 7)|]. apply Hclose. discriminate.
Defined.

Lemma poly_draw_accepts_witness :
  let pts := [mkPOINT 1 1; mkPOINT 2 2; mkPOINT 3 3; mkPOINT 4 4] in
  let types := [PT_MOVETO; PT_BEZIERTO; PT_BEZIERTO; Z.lor PT_BEZIERTO PT_CLOSEFIGURE] in
  parallel triangle /\ length pts = length types /\ accepted_types types /\
  exists p', pathdrv_PolyDraw (H := plain_host) pts types triangle = Done (true, p') /\
    parallel p'.
Proof.
  intros pts types.
  assert (accepted_types types) as Hacc.
  { apply accepted_move, accepted_bezier; [right; reflexivity|apply accepted_nil]. }
  split; [reflexivity|]. split; [reflexivity|]. split; [exact Hacc|].
  exact (poly_draw_accepts (H := plain_host) pts types triangle eq_refl eq_refl Hacc
           plain_host_heap_grants).
Defined.

Lemma figures_of_their_own_witness :
  let pts := [mkPOINT 1 1; mkPOINT 2 2; mkPOINT 3 3; mkPOINT 4 4] in
  (3 <= length pts)%nat /\
  pathdrv_Polyline (H := plain_host) pts 3 triangle =
    Done (true, appended triangle (take 3 pts) [PT_MOVETO; PT_LINETO; PT_LINETO]) /\
  pathdrv_Polygon (H := plain_host) pts 3 triangle =
    Done (true, appended triangle (take 3 pts)
                  [PT_MOVETO; PT_LINETO; Z.lor PT_LINETO PT_CLOSEFIGURE]).
Proof.
  intros pts. split; [simpl; lia|].
  destruct (figures_of_their_own (H := plain_host) pts 3 triangle ltac:(simpl; lia))
    as (Hline & Hgon & _).
  split; [exact Hline|exact Hgon].
Defined.

Lemma single_segment_polys_witness :
  let pts := [mkPOINT 1 1; mkPOINT 2 2; mkPOINT 3 3; mkPOINT 4 4] in
  (2 <= 3 <= length pts)%nat /\ Z.of_nat 3 < 2 ^ 32 /\
  pathdrv_PolyPolygon (H := plain_host) pts [3] triangle =
    pathdrv_Polygon (H := plain_host) pts 3 triangle /\
  pathdrv_PolyPolyline (H := plain_host) pts [3] triangle =
    pathdrv_Polyline (H := plain_host) pts 3 triangle.
Proof.
  intros pts. split; [simpl; lia|]. split; [reflexivity|].
  apply (single_segment_polys (H := plain_host) pts 3 triangle); [simpl; lia|reflexivity].
Defined.



Lemma flatten_is_safe_witness :
  recorded closed_cubic /\
  exists r err,
    PATH_FlattenPath (H := plain_host) closed_cubic = Done (r, err) /\
    forall P', r = Some P' -> polyline_path P' /\ recorded P' /\ within_capacity P'.
Proof.
  split; [exact closed_cubic_recorded|].
  exact (flatten_is_safe (H := plain_host) closed_cubic closed_cubic_recorded
           plain_host_bezier_contract).
Defined.

Lemma flatten_copies_polylines_witness :
  parallel triangle /\ Forall move_or_line (flags triangle) /\
  exists P',
    PATH_FlattenPath (H := plain_host) triangle = Done (Some P', None) /\
    entries P' = entries triangle /\ pos P' = mkPOINT 0 0 /\ newStroke P' = true.
Proof.
  split; [reflexivity|]. split; [exact triangle_move_or_line|].
  exact (flatten_copies_polylines (H := plain_host) triangle eq_refl triangle_move_or_line
           plain_host_heap_grants).
Defined.

Lemma flatten_idempotent_witness :
  structural closed_cubic /\
  exists P' P'',
    PATH_FlattenPath (H := plain_host) closed_cubic = Done (Some P', None) /\
    PATH_FlattenPath (H := plain_host) P' = Done (Some P'', None) /\
    entries P'' = entries P'.
Proof.
  assert (structural closed_cubic) as Hstructural.
  { split; [reflexivity|]. split; [reflexivity|].
    apply triples_bezier; try reflexivity. apply triples_nil. }
  split; [exact Hstructural|].
  exact (flatten_idempotent (H := plain_host) closed_cubic Hstructural
           plain_host_bezier_contract plain_host_heap_grants).
Defined.

Lemma region_of_polylines_witness :
  let dc := mk_DC (Some triangle) solid_pen in
  parallel triangle /\ flags triangle !! 0%nat = Some PT_MOVETO /\
  Forall move_or_line (flags triangle) /\
  Forall (fun n => 2 <= n)%nat (move_runs (flags triangle)) /\
  PathToRegion (H := plain_host) dc = Done (mk_reply 2 None (mk_DC None solid_pen)) /\
  get_gdi_flat_path (H := plain_host) dc true =
    Done (mk_reply 3 None (mk_DC None solid_pen),
          Some (points triangle, flags triangle, Some 2)) /\
  get_gdi_flat_path (H := plain_host) dc false =
    Done (mk_reply 3 None (mk_DC None solid_pen),
          Some (points triangle, flags triangle, None)).
Proof.
  intros dc.
  assert (Forall (fun n => 2 <= n)%nat (move_runs (flags triangle))) as Hruns.
  { apply Forall_cons. split; [simpl; lia|apply Forall_nil_2]. }
  split; [reflexivity|]. split; [reflexivity|]. split; [exact triangle_move_or_line|].
  split; [exact Hruns|].
  exact (region_of_polylines (H := plain_host) dc triangle eq_refl eq_refl eq_refl
           triangle_move_or_line Hruns plain_host_heap_grants).
Defined.



Lemma get_path_round_trip_witness :
  let pts := [mkPOINT 0 0; mkPOINT 4 0; mkPOINT 4 4] in
  let room := [mkPOINT 9 9; mkPOINT 9 9; mkPOINT 9 9; mkPOINT 9 9] in
  physDev idle_context = [] /\ (1 <= length pts)%nat /\
  (length pts <= length room)%nat /\ (length pts <= length [9; 9; 9; 9])%nat /\
  DPtoLP (Host := plain_host) (map (LPtoDP (Host := plain_host)) pts) = Some pts /\
  exists c',
    serve_all (H := plain_host)
      [Req_BeginPath; Req_Draw (Polyline pts); Req_EndPath] idle_context = Done c' /\
    GetPath (H := plain_host) (ctx_dc c') room [9; 9; 9; 9] 3 =
      Done (mk_reply 3 None (ctx_dc c'), pts ++ [mkPOINT 9 9],
            [PT_MOVETO; PT_LINETO; PT_LINETO; 9]).
Proof.
  intros pts room. split; [reflexivity|]. split; [simpl; lia|]. split; [simpl; lia|].
  split; [simpl; lia|]. split; [reflexivity|].
  exact (get_path_round_trip (H := plain_host) idle_context pts room [9; 9; 9; 9] eq_refl
           plain_host_heap_grants ltac:(simpl; lia) ltac:(simpl; lia) ltac:(simpl; lia)
           eq_refl).
Defined.

Lemma paths_are_consumed_witness :
  context_ok committed_context /\ context_ok recording_context /\
  FillPath (H := plain_host) committed_context = Done (mk_answer true None idle_context) /\
  StrokePath (H := plain_host) recording_context =
    Done (mk_answer false (Some ERROR_CAN_NOT_COMPLETE) recording_context) /\
  exists c', AbortPath recording_context = Done (mk_answer true None c') /\
    physDev c' = [] /\ ctx_path c' = None.
Proof.
  assert (context_ok committed_context) as Hcommitted by exact triangle_recorded.
  assert (context_ok recording_context) as Hrecording.
  { split; [reflexivity|]. exists triangle. split; [reflexivity|exact triangle_recorded]. }
  split; [exact Hcommitted|]. split; [exact Hrecording|].
  destruct (paths_are_consumed (H := plain_host) committed_context Hcommitted)
    as (Hfill & _).
  destruct (paths_are_consumed (H := plain_host) recording_context Hrecording)
    as (_ & Hstroke & _ & Habort).
  split; [exact Hfill|]. split; [exact Hstroke|exact Habort].
Defined.

Lemma save_restore_round_trip_witness :
  context_ok recording_context /\ path_open idle_context = false /\
  (length (physDev committed_context) <= 1)%nat /\
  exists saved dst' saved',
    PATH_SavePath (H := plain_host) idle_context recording_context
      = Done (mk_answer true None saved) /\
    PATH_RestorePath (H := plain_host) committed_context saved = Done (true, dst', saved') /\
    same_paths (ctx_path dst') (ctx_path recording_context) /\
    same_paths (recording dst') (recording recording_context) /\
    length (physDev dst') = length (physDev recording_context) /\
    ctx_path saved' = None.
Proof.
  assert (context_ok recording_context) as Hrecording.
  { split; [reflexivity|]. exists triangle. split; [reflexivity|exact triangle_recorded]. }
  split; [exact Hrecording|]. split; [reflexivity|]. split; [simpl; lia|].
  exact (save_restore_round_trip (H := plain_host) recording_context idle_context
           committed_context Hrecording eq_refl ltac:(simpl; lia) plain_host_heap_grants).
Defined.

Lemma arcs_entries_witness :
  parallel triangle /\ 0 <> 10 /\ 0 <> 8 /\
  arc_goes_through (FP := plain_float) 8 0 0 10 8 10 4 0 4
    AD_COUNTERCLOCKWISE half_ellipse_spans /\
  length half_ellipse_spans = 3%nat /\
  (exists p' pts,
     pathdrv_Arc (H := plain_host) (FP := plain_float) 8 0 0 10 8 10 4 0 4 triangle
       = Done (Some true, p') /\
     points p' = points triangle ++ pts /\ length pts = 10%nat /\
     flags p' = flags triangle ++ PT_MOVETO :: replicate 9 PT_BEZIERTO /\
     pos p' = pos triangle /\ newStroke p' = newStroke triangle) /\
  (exists p' pts,
     pathdrv_ArcTo (H := plain_host) (FP := plain_float) 8 0 0 10 8 10 4 0 4 triangle
       = Done (Some true, p') /\
     points p' = points triangle ++ [mkPOINT 5 10] ++ pts /\ length pts = 10%nat /\
     flags p' = flags triangle ++ [PT_MOVETO] ++ PT_LINETO :: replicate 9 PT_BEZIERTO /\
     arc_end (H := plain_host) (FP := plain_float) 0 0 10 8 half_ellipse_spans
       = Some (pos p') /\
     last (points p') = Some (pos p') /\ newStroke p' = false).
Proof.
  split; [reflexivity|]. split; [discriminate|]. split; [discriminate|].
  split; [exact half_ellipse_goes_through|]. split; [reflexivity|].
  destruct (arcs_entries (H := plain_host) (FP := plain_float) 8 0 0 10 8 10 4 0 4
              half_ellipse_spans triangle
              plain_host_heap_grants eq_refl ltac:(discriminate) ltac:(discriminate)
              half_ellipse_goes_through)
    as (_ & Harc & _ & _ & Harcto).
  split; [exact Harc|exact Harcto].
Defined.

Lemma round_rect_entries_witness :
  heap_grants (H := plain_host) /\
  exists p' arc1 arc2 arc3 arc4,
    pathdrv_RoundRect (H := plain_host) (FP := plain_float) 0 0 10 8 4 2 triangle
      = Done (true, p') /\
    points p' = points triangle ++ arc1 ++ [mkPOINT 2 0] ++ arc2 ++ [mkPOINT 0 7]
                  ++ arc3 ++ [mkPOINT 8 8] ++ arc4 /\
    length arc1 = 4%nat /\ length arc2 = 3%nat /\ length arc3 = 3%nat /\
    length arc4 = 3%nat /\
    flags p' = flags triangle ++ RoundRect_tags /\
    pos p' = pos triangle /\ newStroke p' = newStroke triangle.
Proof.
  split; [exact plain_host_heap_grants|].
  exact (round_rect_entries (H := plain_host) (FP := plain_float) 0 0 10 8 4 2 triangle
           plain_host_heap_grants).
Defined.

Lemma shapes_keep_structure_witness :
  recorded triangle /\ within_capacity triangle /\
  (exists p',
     pathdrv_RoundRect (H := plain_host) (FP := plain_float) 0 0 10 8 4 2 triangle
       = Done (true, p') /\ recorded p' /\ within_capacity p') /\
  (pathdrv_Pie (H := plain_host) (FP := plain_float) 8 0 0 10 8 10 4 0 4 triangle
     = AssertFailed \/
   exists r p',
     pathdrv_Pie (H := plain_host) (FP := plain_float) 8 0 0 10 8 10 4 0 4 triangle
       = Done (r, p') /\ recorded p' /\ within_capacity p') /\
  (pathdrv_AngleArc (H := plain_host) (FP := plain_float) 8 5 5 3 0 90 triangle
     = AssertFailed \/
   exists r p',
     pathdrv_AngleArc (H := plain_host) (FP := plain_float) 8 5 5 3 0 90 triangle
       = Done (r, p') /\ recorded p' /\ within_capacity p').
Proof.
  split; [exact triangle_recorded|]. split; [exact triangle_within_capacity|].
  destruct (shapes_keep_structure (H := plain_host) (FP := plain_float) triangle
              plain_host_heap_grants triangle_recorded triangle_within_capacity)
    as (Harcs & _ & Hangle & Hround).
  split; [exact (Hround 0 0 10 8 4 2)|].
  split; [exact (proj2 (proj2 (proj2 (Harcs 8%nat 0 0 10 8 10 4 0 4))))|].
  exact (Hangle 8%nat 5 5 3 0 90).
Defined.

Lemma int_from_fixed_rounds_witness :
  0 <= fract (mk_FIXED 0x8000 3) < 65536 /\
  int_from_fixed (mk_FIXED 0x8000 3) = 4 /\
  int_from_fixed (mk_FIXED 0x7fff 3) = 3 /\
  int_from_fixed (mk_FIXED 0x8000 (-4)) = -3.
Proof.
  split; [simpl; lia|].
  split; [exact (int_from_fixed_rounds (mk_FIXED 0x8000 3) ltac:(simpl; lia))|].
  split; [exact (int_from_fixed_rounds (mk_FIXED 0x7fff 3) ltac:(simpl; lia))|].
  exact (int_from_fixed_rounds (mk_FIXED 0x8000 (-4)) ltac:(simpl; lia)).
Defined.

Lemma bezier_to_entries_witness :
  let lppt := [mkPOINT 0 0; mkPOINT 4 2; mkPOINT 2 4; mkPOINT 0 2] in
  let far := [mkPOINT 0 0; mkPOINT 2000000000 0; mkPOINT 2000000000 0; mkPOINT 0 0] in
  heap_grants (H := plain_host) /\
  (exists p', PATH_BezierTo (H := plain_host) lppt 4 triangle = Done (tt, p') /\
     points p' = points triangle ++
       [mkPOINT 0 0; mkPOINT 4 2; mkPOINT 3 3; mkPOINT 3 3; mkPOINT 2 4; mkPOINT 0 2] /\
     flags p' = flags triangle ++ replicate 6 PT_BEZIERTO) /\
  (exists p', PATH_BezierTo (H := plain_host) far 4 triangle = Done (tt, p') /\
     points p' = points triangle ++
       [mkPOINT 0 0; mkPOINT 2000000000 0; mkPOINT (-147483648) 0;
        mkPOINT (-147483648) 0; mkPOINT 2000000000 0; mkPOINT 0 0] /\
     flags p' = flags triangle ++ replicate 6 PT_BEZIERTO).
Proof.
  intros lppt far. split; [exact plain_host_heap_grants|].
  destruct (bezier_to_entries (H := plain_host) lppt triangle plain_host_heap_grants)
    as (_ & _ & Hchain & _).
  destruct (bezier_to_entries (H := plain_host) far triangle plain_host_heap_grants)
    as (_ & _ & Hfar & _).
  split.
  - destruct (Hchain (mkPOINT 0 0) [mkPOINT 4 2; mkPOINT 2 4; mkPOINT 0 2] eq_refl
                ltac:(simpl; lia)) as (p' & Hrun & Hpoints & Hflags & _).
    exists p'. split; [exact Hrun|]. split; [exact Hpoints|exact Hflags].
  - destruct (Hfar (mkPOINT 0 0)
                [mkPOINT 2000000000 0; mkPOINT 2000000000 0; mkPOINT 0 0] eq_refl
                ltac:(simpl; lia)) as (p' & Hrun & Hpoints & Hflags & _).
    exists p'. split; [exact Hrun|]. split; [exact Hpoints|exact Hflags].
Defined.

Lemma add_outline_entries_witness :
  heap_grants (H := plain_host) /\ sample_outline <> [] /\ Forall header_ok sample_outline /\
  exists p',
    PATH_add_outline (H := plain_host) 10 20 sample_outline triangle = Done (true, p') /\
    points p' = points triangle ++
      [mkPOINT 10 20; mkPOINT 14 20;
       mkPOINT 14 20; mkPOINT 14 18; mkPOINT 13 17;
       mkPOINT 13 17; mkPOINT 12 16; mkPOINT 10 18] /\
    flags p' = flags triangle ++
      [PT_MOVETO; PT_LINETO; PT_BEZIERTO; PT_BEZIERTO; PT_BEZIERTO;
       PT_BEZIERTO; PT_BEZIERTO; Z.lor PT_BEZIERTO PT_CLOSEFIGURE].
Proof.
  assert (Forall header_ok sample_outline) as Hok.
  { apply Forall_cons. split; [|apply Forall_nil_2]. split; [reflexivity|].
    apply Forall_cons. split; [left; reflexivity|].
    apply Forall_cons. split; [|apply Forall_nil_2].
    right. split; [left; reflexivity|simpl; lia]. }
  split; [exact plain_host_heap_grants|]. split; [discriminate|]. split; [exact Hok|].
  destruct (add_outline_entries (H := plain_host) 10 20 sample_outline triangle
              plain_host_heap_grants ltac:(discriminate)) as (Hgood & _).
  destruct (Hgood Hok) as (p' & Hrun & Hpoints & Hflags & _).
  exists p'. split; [exact Hrun|]. split; [exact Hpoints|exact Hflags].
Defined.
